(** * Empire Portal, shared package: a shallow embedding of its utility code

    The functions of [packages/shared] that carry logic are embedded here and
    their documented behaviour is proved or refuted:

    - [Security]   : utils/security.ts   (masking and log sanitising)
    - [Currency]   : utils/currency.ts   (cents/dollars arithmetic)
    - [Client]     : api/client.ts       (response envelope, retry loop)
    - [Validation] : validation/index.ts (Zod schemas and their helpers)

    JavaScript strings are sequences of 16-bit code units.  The strings of
    this development are those whose code units are all below 256; they are
    embedded as [string], one [ascii] per code unit.  [length], [slice],
    [repeat], [+] and [includes] treat every code unit alike; [toLowerCase]
    maps each code unit below 256 as JavaScript does. *)

From Stdlib Require Import ZArith QArith Lia Bool List Ascii String DecimalString.
From Stdlib Require Import Floats Uint63.
From stdpp Require Import gmap strings.

Import ListNotations.
Local Open Scope Z_scope.

(** ** JavaScript values and the string methods the code calls *)

Module JS.

(** A JavaScript number seen through its exact value: every double is NaN, an
    infinity or a rational.  The validation code only tests and compares
    numbers, which is exact on doubles, so nothing is lost there.  (Arithmetic
    that rounds is embedded on binary64 floats in [Currency].) *)
Inductive JsNumber : Type :=
| NaN
| PosInfinity
| NegInfinity
| Finite (q : Q).

(** JSON-like values.  An object is seen through the list of its own
    enumerable entries, in the order [Object.entries] visits them; its keys
    are distinct.  The prototype of an object is not part of the value. *)
#[warnings="-register-all"]
Inductive JsValue : Type :=
| JUndefined
| JNull
| JBool (b : bool)
| JNum (n : JsNumber)
| JStr (s : string)
| JArr (items : list JsValue)
| JObj (entries : list (string * JsValue)).

Definition len (s : string) : Z := Z.of_nat (String.length s).

(** [s.slice(beginIndex, endIndex)]; [None] is an omitted [endIndex]. *)
Definition clampIndex (l i : Z) : Z :=
  if i <? 0 then Z.max (l + i) 0 else Z.min i l.

Definition slice (s : string) (beginIndex : Z) (endIndex : option Z) : string :=
  let l := len s in
  let from := clampIndex l beginIndex in
  let to := match endIndex with None => l | Some e => clampIndex l e end in
  String.substring (Z.to_nat from) (Z.to_nat (Z.max (to - from) 0)) s.

Fixpoint repeatN (s : string) (n : nat) : string :=
  match n with
  | O => ""
  | S n' => s +:+ repeatN s n'
  end.

(** [s.repeat(count)] throws a RangeError on a negative count. *)
Definition repeat (s : string) (count : Z) : option string :=
  if count <? 0 then None else Some (repeatN s (Z.to_nat count)).

(** [s.includes(sub)] *)
Fixpoint includes (s sub : string) : bool :=
  String.prefix sub s ||
  match s with
  | EmptyString => false
  | String _ s' => includes s' sub
  end.

(** [toLowerCase] on one code unit below 256.  The code units with another
    lower-case form are [A]-[Z] and the Latin-1 capitals U+00C0-U+00DE
    without the multiplication sign U+00D7; the lower-case form is 32
    further on. *)
Definition lowerChar (c : ascii) : ascii :=
  let n := nat_of_ascii c in
  if ((65 <=? n)%nat && (n <=? 90)%nat)
     || ((192 <=? n)%nat && (n <=? 222)%nat && negb (n =? 215)%nat)
  then ascii_of_nat (n + 32) else c.

Fixpoint toLowerCase (s : string) : string :=
  match s with
  | EmptyString => EmptyString
  | String c s' => String (lowerChar c) (toLowerCase s')
  end.

(** Truthiness of a value, as [!v], [v || d] and [a && b] test it. *)
Definition truthy (v : JsValue) : bool :=
  match v with
  | JUndefined | JNull => false
  | JBool b => b
  | JNum NaN => false
  | JNum (Finite q) => negb (Qeq_bool q 0)
  | JNum _ => true
  | JStr s => negb (String.eqb s "")
  | JArr _ | JObj _ => true
  end.

Fixpoint lookupEntry (k : string) (es : list (string * JsValue)) : option JsValue :=
  match es with
  | [] => None
  | (k', v) :: es' => if String.eqb k k' then Some v else lookupEntry k es'
  end.

(** [obj[k]] on a plain object: a missing property reads as [undefined]. *)
Definition prop (entries : list (string * JsValue)) (k : string) : JsValue :=
  match lookupEntry k entries with
  | Some v => v
  | None => JUndefined
  end.

(** A place inside a value: property names and array indices, outermost
    first, as in [v.config.items[0].token]. *)
Inductive PathSegment : Type :=
| Key (k : string)
| Index (i : nat).


(** [s.split(sep)] for a separator of one code unit: the first piece and the
    pieces after it.  The array JavaScript returns is never empty. *)
Fixpoint split (sep : ascii) (s : string) : string * list string :=
  match s with
  | EmptyString => (EmptyString, [])
  | String c s' =>
      let '(piece, rest) := split sep s' in
      if Ascii.eqb c sep then (EmptyString, piece :: rest) else (String c piece, rest)
  end.

(** [s[i]]: the code unit at [i] as a string, or [undefined]. *)
Definition index (s : string) (i : nat) : option string :=
  option_map (fun c => String c EmptyString) (String.get i s).

(** A string-or-undefined value inside a template literal. *)
Definition template (v : option string) : string :=
  match v with
  | Some s => s
  | None => "undefined"
  end.

(** [s.charCodeAt(i)] of the code unit [c] found there. *)
Definition charCode (c : ascii) : Z := Z.of_nat (nat_of_ascii c).

(** ToInt32, and the two bitwise operators [simpleHash] uses; both work on
    the 32-bit signed reading of their operands. *)
Definition toInt32 (z : Z) : Z := (z + 2 ^ 31) mod 2 ^ 32 - 2 ^ 31.

Definition shiftLeft (a b : Z) : Z := toInt32 (toInt32 a * 2 ^ (b mod 32)).

Definition bitAnd (a b : Z) : Z := Z.land (toInt32 a) (toInt32 b).

(** [n.toString(radix)] for a non-negative integer [n] and a radix from 2 to
    36: the digits [0-9a-z], most significant first, no leading zero.  A
    number below [2 ^ fuel] has fewer than [fuel] digits. *)
Definition digitChar (d : Z) : ascii :=
  if d <? 10 then ascii_of_nat (Z.to_nat (48 + d)) else ascii_of_nat (Z.to_nat (87 + d)).

Fixpoint toStringDigits (fuel : nat) (radix n : Z) (acc : string) : string :=
  match fuel with
  | O => acc
  | S fuel' =>
      let acc' := String (digitChar (n mod radix)) acc in
      if n / radix =? 0 then acc' else toStringDigits fuel' radix (n / radix) acc'
  end.

Definition toStringRadix (radix n : Z) : string :=
  toStringDigits (S (Z.to_nat (Z.log2 n))) radix n EmptyString.

(** *** String(v)

    [Number::toString] in radix 10 prints the fewest digits that read back as
    the same double, and among those the nearest to it.  A finite number is
    given by its exact value [a / b]. *)

(** floor (log2 (a / b)), for positive [a] and [b]. *)
Definition log2Ratio (a b : Z) : Z :=
  let e := Z.log2 a - Z.log2 b in
  if (if 0 <=? e then b * 2 ^ e <=? a else b <=? a * 2 ^ (- e)) then e else e - 1.

(** [a / b] rounded to an integer, ties to even. *)
Definition roundHalfEven (a b : Z) : Z :=
  let q := a / b in
  match 2 * (a mod b) ?= b with
  | Lt => q
  | Gt => q + 1
  | Eq => if Z.even q then q else q + 1
  end.

(** The double nearest to [a / b]: its mantissa [m] and exponent [p], the
    value being [m * 2 ^ p]. *)
Definition nearestDouble (a b : Z) : Z * Z :=
  let p := Z.max (log2Ratio a b - 52) (-1074) in
  (if 0 <=? p then roundHalfEven a (b * 2 ^ p) else roundHalfEven (a * 2 ^ (- p)) b, p).

(** [s * 10 ^ t] reads back as the double [a / b]. *)
Definition roundsTo (a b s t : Z) : bool :=
  let '(num, den) := if 0 <=? t then (s * 10 ^ t, 1) else (s, 10 ^ (- t)) in
  let '(m, p) := nearestDouble num den in
  if 0 <=? p then m * 2 ^ p * b =? a else m * b =? a * 2 ^ (- p).

(** [a / b < 10 ^ n] *)
Definition belowPow10 (a b n : Z) : bool :=
  if 0 <=? n then a <? b * 10 ^ n else a * 10 ^ (- n) <? b.

(** The [n] with [10 ^ (n - 1) <= a / b < 10 ^ n]; it is at most two above
    the estimate drawn from the binary logarithm. *)
Definition decimalPoint (a b : Z) : Z :=
  let est := log2Ratio a b * 30103 / 100000 in
  if belowPow10 a b est then est
  else if belowPow10 a b (est + 1) then est + 1 else est + 2.

(** The digits [s], their number [k] and the position [n] of the decimal
    point: [k] is the least for which some [s * 10 ^ (n - k)] reads back as
    [a / b], and [s] the nearest to [a / b] of those, the even one at a tie.
    Seventeen digits are enough for every double. *)
Fixpoint shortestDigits (fuel : nat) (k a b n : Z) : Z * Z * Z :=
  let t := n - k in
  let lo := if 0 <=? t then a / (b * 10 ^ t) else a * 10 ^ (- t) / b in
  match fuel with
  | O => (lo, k, n)
  | S fuel' =>
      let hi := lo + 1 in
      let nearerLo :=
        match (if 0 <=? t then 2 * a ?= (2 * lo + 1) * 10 ^ t * b
               else 2 * a * 10 ^ (- t) ?= (2 * lo + 1) * b) with
        | Lt => true
        | Gt => false
        | Eq => Z.even lo
        end in
      let okLo := roundsTo a b lo t in
      let okHi := roundsTo a b hi t in
      if okLo && (nearerLo || negb okHi) then (lo, k, n)
      else if okHi then (if hi =? 10 ^ k then (1, 1, n + 1) else (hi, k, n))
      else shortestDigits fuel' (k + 1) a b n
  end.

Definition decimal (z : Z) : string := DecimalString.NilZero.string_of_int (Z.to_int z).

(** [Number::toString] of the positive double nearest to [a / b]. *)
Definition positiveToString (a b : Z) : string :=
  let '(m, p) := nearestDouble a b in
  let '(a, b) := if 0 <=? p then (m * 2 ^ p, 1) else (m, 2 ^ (- p)) in
  let '(s, k, n) := shortestDigits 17 1 a b (decimalPoint a b) in
  let digits := decimal s in
  if (k <=? n) && (n <=? 21) then digits +:+ repeatN "0" (Z.to_nat (n - k))
  else if (0 <? n) && (n <=? 21)
  then String.substring 0 (Z.to_nat n) digits +:+ "."
       +:+ String.substring (Z.to_nat n) (Z.to_nat (k - n)) digits
  else if (-6 <? n) && (n <=? 0) then "0." +:+ repeatN "0" (Z.to_nat (- n)) +:+ digits
  else
    let e := n - 1 in
    let exponent := (if e <? 0 then "-" else "+") +:+ decimal (Z.abs e) in
    if k =? 1 then digits +:+ "e" +:+ exponent
    else String.substring 0 1 digits +:+ "."
         +:+ String.substring 1 (Z.to_nat (k - 1)) digits +:+ "e" +:+ exponent.

Definition numberToString (x : JsNumber) : string :=
  match x with
  | NaN => "NaN"
  | PosInfinity => "Infinity"
  | NegInfinity => "-Infinity"
  | Finite q =>
      match Qnum q with
      | Z0 => "0"
      | Zpos a => positiveToString (Zpos a) (Zpos (Qden q))
      | Zneg a => "-" +:+ positiveToString (Zpos a) (Zpos (Qden q))
      end
  end.

(** [Array.prototype.join] with the separator [,], once its elements are
    converted. *)
Fixpoint joinConverted (items : list (option string)) : option string :=
  match items with
  | [] => Some EmptyString
  | [item] => item
  | item :: rest =>
      match item, joinConverted rest with
      | Some s, Some t => Some (s +:+ "," +:+ t)
      | _, _ => None
      end
  end.

(** [String(v)] for a value parsed from JSON; [None] is the TypeError of an
    object that cannot be converted to a primitive.  An array converts by
    [join], where [null] and [undefined] give the empty string.  A plain
    object converts by [Object.prototype.toString] -- unless an own entry
    [toString] hides it: no entry of parsed JSON is callable, and [valueOf]
    gives no primitive. *)
Fixpoint toStringValue (v : JsValue) : option string :=
  match v with
  | JUndefined => Some "undefined"
  | JNull => Some "null"
  | JBool b => Some (if b then "true" else "false")
  | JNum n => Some (numberToString n)
  | JStr s => Some s
  | JArr items =>
      joinConverted
        (map (fun item =>
                match item with
                | JUndefined | JNull => Some EmptyString
                | _ => toStringValue item
                end) items)
  | JObj entries =>
      match lookupEntry "toString" entries with
      | Some _ => None
      | None => Some "[object Object]"
      end
  end.

End JS.

(** ** utils/security.ts *)

Module Security.
Import JS.

(** [!s] on a string: the empty string is the only falsy one. *)
Definition isEmpty (s : string) : bool := String.eqb s "".

(** [None] stands for an exception escaping the function. *)
Definition maskAccountNumber (accountNumber : string) : option string :=
  if isEmpty accountNumber || (len accountNumber <=? 4) then Some accountNumber
  else
    let lastFour := slice accountNumber (-4) None in
    let maskLength := Z.min (len accountNumber - 4) 4 in
    match repeat "*" maskLength with
    | Some stars => Some (stars +:+ lastFour)
    | None => None
    end.

Definition sanitizeApiKey (apiKey : string) : string :=
  if isEmpty apiKey then "[missing]"
  else if len apiKey <=? 8 then apiKey
  else slice apiKey 0 (Some 8) +:+ "...".

Definition defaultSensitiveFields : list string :=
  [ "apiKey"; "api_key"; "token"; "password"; "secret"; "authorization";
    "accountNumber"; "routingNumber" ].

Definition isSensitive (sensitiveFields : list string) (key : string) : bool :=
  let lowerKey := toLowerCase key in
  existsb (fun field => includes lowerKey (toLowerCase field)) sensitiveFields.

(** [sanitized[key] = value] on the copy, which starts as [{}]: the own
    entry the assignment adds.  The keys come from [Object.entries] and are
    distinct, so no entry is ever overwritten.  The key ["__proto__"] adds
    none: the copy inherits a setter of that name from [Object.prototype],
    and the assignment runs it (see [prototypeOfCopy]). *)
Definition assigned (key : string) (value : JsValue) : list (string * JsValue) :=
  if String.eqb key "__proto__" then [] else [(key, value)].

(** One turn of the loop body of [sanitizeForLog]: the value assigned under
    [key].  The recursive call on a nested non-array object is the [JObj]
    case; what it returns is a new plain object with the entries the loop
    assigns. *)
Fixpoint sanitizeEntry (sensitiveFields : list string) (key : string)
    (value : JsValue) {struct value} : JsValue :=
  match value with
  | JStr s =>
      if isSensitive sensitiveFields key then JStr (sanitizeApiKey s) else value
  | JObj entries =>
      JObj (flat_map
              (fun kv => assigned (fst kv)
                           (sanitizeEntry sensitiveFields (fst kv) (snd kv)))
              entries)
  | _ => value
  end.

(** The own entries of the copy [sanitizeForLog] returns. *)
Definition sanitizeForLogWith (sensitiveFields : list string)
    (obj : list (string * JsValue)) : list (string * JsValue) :=
  flat_map (fun kv => assigned (fst kv) (sanitizeEntry sensitiveFields (fst kv) (snd kv)))
           obj.

(** The prototype of the copy.  It is [Object.prototype] unless the input has
    an own entry ["__proto__"] (as [JSON.parse] creates one): the setter
    makes an object or [null] the prototype of the copy and ignores any other
    value. *)
Inductive Prototype : Type :=
| ObjectPrototype
| PrototypeSetTo (value : JsValue).

Definition prototypeOfCopy (sensitiveFields : list string)
    (obj : list (string * JsValue)) : Prototype :=
  match lookupEntry "__proto__" obj with
  | Some value =>
      match sanitizeEntry sensitiveFields "__proto__" value with
      | JNull => PrototypeSetTo JNull
      | JArr items => PrototypeSetTo (JArr items)
      | JObj copy => PrototypeSetTo (JObj copy)
      | _ => ObjectPrototype
      end
  | None => ObjectPrototype
  end.

Definition sanitizeForLog (obj : list (string * JsValue)) : list (string * JsValue) :=
  sanitizeForLogWith defaultSensitiveFields obj.

Definition maskEmail (email : string) : string :=
  if isEmpty email || negb (includes email "@") then email
  else
    let '(local, rest) := split "@" email in
    let domain := hd_error rest in
    if len local <=? 1 then email
    else template (index local 0) +:+ "***@" +:+ template domain.

(** One turn of the loop of [simpleHash].  The subtraction and the addition
    are on numbers of at most 34 bits, where doubles are exact. *)
Definition hashStep (hash : Z) (c : ascii) : Z :=
  let char := charCode c in
  let hash := shiftLeft hash 5 - hash + char in
  bitAnd hash hash.

Fixpoint hashLoop (hash : Z) (value : string) : Z :=
  match value with
  | EmptyString => hash
  | String c rest => hashLoop (hashStep hash c) rest
  end.

Definition simpleHash (value : string) : string :=
  toStringRadix 36 (Z.abs (hashLoop 0 value)).

End Security.

(** ** api/client.ts *)

Module Client.
Import JS.

(** [class ApiClientError extends Error].  [message] is the string [Error]
    makes of the argument handed to [super]; [statusCode] is optional in the
    class, [code] and [details] are [JUndefined] when omitted. *)
Record ApiClientError : Type := mkApiClientError {
  message : JsValue;
  statusCode : option Z;
  code : JsValue;
  details : JsValue
}.

(** What a [catch (error)] clause can receive: an [ApiClientError]; another
    [Error] instance (its [name] and [message]); a value that is no [Error]
    at all; or a [MercuryAPIError] of utils/errors.ts, the other error class
    of the package that carries a status code: an [Error] named
    [MercuryAPIError] with its [message], [statusCode] and [mercuryCode]. *)
Inductive Thrown : Type :=
| ThrownApiClientError (e : ApiClientError)
| ThrownError (name : string) (msg : string)
| ThrownValue (v : JsValue)
| ThrownMercuryAPIError (msg : string) (statusCode : Z) (mercuryCode : option string).

(** [error instanceof Error] *)
Definition instanceofError (error : Thrown) : bool :=
  match error with
  | ThrownValue _ => false
  | _ => true
  end.

(** How a call ends: a returned (resolved) value or a thrown (rejected) one. *)
Inductive Completion (A : Type) : Type :=
| Return (a : A)
| Throw (error : Thrown).
Arguments Return {A} a.
Arguments Throw {A} error.

Definition bind {A B : Type} (c : Completion A) (k : A -> Completion B) : Completion B :=
  match c with
  | Return a => k a
  | Throw e => Throw e
  end.

Notation "x <- c ;; k" := (bind c (fun x => k))
  (at level 100, c at next level, right associativity).

(** The TypeError of a property read on [undefined] or [null], worded as V8
    words it. *)
Definition cannotRead (what name : string) : Thrown :=
  ThrownError "TypeError"
    ("Cannot read properties of " +:+ what +:+ " (reading '" +:+ name +:+ "')").

(** [v.name] for the property names read in this file ([success], [data],
    [error], [message], [code], [details]): reading a property of [undefined]
    or [null] throws a TypeError, a missing property reads as [undefined], and
    primitives and arrays have none of these names. *)
Definition getProp (v : JsValue) (name : string) : Completion JsValue :=
  match v with
  | JUndefined => Throw (cannotRead "undefined" name)
  | JNull => Throw (cannotRead "null" name)
  | JObj entries => Return (prop entries name)
  | _ => Return JUndefined
  end.

(** [String(v)] inside a constructor call: a failed conversion throws. *)
Definition stringOf (v : JsValue) : Completion string :=
  match toStringValue v with
  | Some s => Return s
  | None => Throw (ThrownError "TypeError" "Cannot convert object to primitive value")
  end.

(** The part of a fetch [Response] the wrapper reads.  [json = None] is a body
    on which [response.json()] rejects. *)
Record Response : Type := mkResponse {
  status : Z;
  json : option JsValue
}.

(** Outcome of [fetchWithTimeout]. *)
Inductive Fetched : Type :=
| FetchResolved (response : Response)
| FetchRejected (error : Thrown).

(** [apiRequest], from the point where the request has been sent: the request
    building above it (URL, headers, body) does not influence how a response
    is turned into a result. *)
Definition apiRequest (fetched : Fetched) : Completion JsValue :=
  match fetched with
  | FetchRejected (ThrownApiClientError e) => Throw (ThrownApiClientError e)
  | FetchRejected other =>
      let msg :=
        match other with
        | ThrownError _ m | ThrownMercuryAPIError m _ _ => JStr m
        | _ => JStr "Network error"
        end in
      Throw (ThrownApiClientError
               (mkApiClientError msg (Some 0) (JStr "NETWORK_ERROR") JUndefined))
  | FetchResolved response =>
      match json response with
      | None =>
          Throw (ThrownApiClientError
                   (mkApiClientError (JStr "Invalid JSON response")
                      (Some (status response)) (JStr "INVALID_RESPONSE") JUndefined))
      | Some data =>
          success <- getProp data "success" ;;
          if negb (truthy success) then
            error <- getProp data "error" ;;
            msg <- getProp error "message" ;;
            errCode <- getProp error "code" ;;
            errDetails <- getProp error "details" ;;
            text <- stringOf (if truthy msg then msg else JStr "API error") ;;
            Throw (ThrownApiClientError
                     (mkApiClientError (JStr text) (Some (status response))
                        errCode errDetails))
          else getProp data "data"
      end
  end.

(** *** retryRequest *)

Section Retry.

(** The operation [fn] is a closure: each invocation sees the state left by
    the previous one and ends in a value or an error. *)
Context {World T : Type}.
Variable fn : World -> Completion T * World.
Variable maxRetries : Z.
Variable baseDelay : Z.

(** What a run does besides returning: the invocations of [fn] and the delays
    handed to [setTimeout], in the order they happen. *)
Inductive Event : Type :=
| Invoked
| Waited (delay : Z).

Record Run : Type := mkRun {
  world : World;
  trace : list Event
}.

Definition start (w : World) : Run := mkRun w [].

Definition invoke (r : Run) : Completion T * Run :=
  (fst (fn (world r)), mkRun (snd (fn (world r))) (trace r ++ [Invoked])).

Definition setTimeout (delay : Z) (r : Run) : Run :=
  mkRun (world r) (trace r ++ [Waited delay]).

(** [error instanceof ApiClientError && error.statusCode && error.statusCode < 500] *)
Definition isClientError (error : Thrown) : bool :=
  match error with
  | ThrownApiClientError e =>
      match statusCode e with
      | Some s => negb (s =? 0) && (s <? 500)
      | None => false
      end
  | _ => false
  end.

(** The [for] loop.  [remaining] counts the iterations still allowed by
    [attempt < maxRetries]; it is [maxRetries - attempt] throughout, so the
    recursion is the loop itself and not an approximation of it. *)
Fixpoint retryLoop (remaining : nat) (attempt : Z) (lastError : option Thrown)
    (r : Run) : Completion T * Run :=
  match remaining with
  | O =>
      (Throw (match lastError with
              | Some e => e
              | None => ThrownError "Error" "Max retries exceeded"
              end), r)
  | S remaining' =>
      match invoke r with
      | (Return v, r1) => (Return v, r1)
      | (Throw error, r1) =>
          let lastError' :=
            if instanceofError error then error
            else ThrownError "Error" "Unknown error" in
          if isClientError error then (Throw error, r1)
          else
            let r2 :=
              if attempt <? maxRetries - 1
              then setTimeout (baseDelay * 2 ^ attempt) r1
              else r1 in
            retryLoop remaining' (attempt + 1) (Some lastError') r2
      end
  end.

Definition retryRequest (w : World) : Completion T * Run :=
  retryLoop (Z.to_nat maxRetries) 0 None (start w).

(** The outcome of the [i]-th invocation of [fn] (from 0) when it is invoked
    over and over from [w]. *)
Fixpoint worldAfter (i : nat) (w : World) : World :=
  match i with
  | O => w
  | S i' => worldAfter i' (snd (fn w))
  end.

Definition outcome (w : World) (i : nat) : Completion T := fst (fn (worldAfter i w)).

End Retry.

Definition defaultMaxRetries : Z := 3.
Definition defaultBaseDelay : Z := 1000.

Definition isInvoked (ev : Event) : bool :=
  match ev with
  | Invoked => true
  | Waited _ => false
  end.

(** The number of times [fn] was invoked in a run. *)
Definition calls {World : Type} (r : Run (World := World)) : nat :=
  List.length (List.filter isInvoked (trace r)).

(** *** fetchWithTimeout

    [fetched] is how the call to [fetch] ended.  When the timer fires first,
    [controller.abort()] makes [fetch] reject with an error named
    [AbortError]; that rejection is turned into a 408. *)
Definition fetchWithTimeout (fetched : Completion Response) : Fetched :=
  match fetched with
  | Return response => FetchResolved response
  | Throw error =>
      match error with
      | ThrownError name _ =>
          if String.eqb name "AbortError"
          then FetchRejected
                 (ThrownApiClientError
                    (mkApiClientError (JStr "Request timeout") (Some 408)
                       (JStr "TIMEOUT") JUndefined))
          else FetchRejected error
      | _ => FetchRejected error
      end
  end.

End Client.

(** ** validation/index.ts

    The schemas are built from Zod's combinators.  Zod is a dependency, not
    part of the repository: the combinators used by the file are embedded here
    after Zod 3's parser ([ZodNumber._parse], [ZodString._parse],
    [ZodOptional], [ZodDefault], [ZodObject] in strip mode) with the messages
    of its default error map. *)

Module Validation.
Import JS.

Record ZodIssue : Type := mkIssue {
  code : string;
  path : list PathSegment;
  message : string
}.

(** [ZodError]: the list read back through [error.errors]. *)
Record ZodError : Type := mkZodError { errors : list ZodIssue }.

(** A schema run at a path: the parsed output, or the issues found. *)
Inductive ParseResult : Type :=
| Valid (data : JsValue)
| Invalid (issues : list ZodIssue).

Definition ZodType : Type := list PathSegment -> JsValue -> ParseResult.

Definition issuesOf (r : ParseResult) : list ZodIssue :=
  match r with
  | Valid _ => []
  | Invalid issues => issues
  end.

(** [getParsedType], as the name Zod prints. *)
Definition parsedType (v : JsValue) : string :=
  match v with
  | JUndefined => "undefined"
  | JNull => "null"
  | JBool _ => "boolean"
  | JNum NaN => "nan"
  | JNum _ => "number"
  | JStr _ => "string"
  | JArr _ => "array"
  | JObj _ => "object"
  end.

Definition invalidType (expected : string) (p : list PathSegment) (v : JsValue)
  : ZodIssue :=
  mkIssue "invalid_type" p
    (match v with
     | JUndefined => "Required"
     | _ => "Expected " +:+ expected +:+ ", received " +:+ parsedType v
     end).

Definition showZ (z : Z) : string := DecimalString.NilZero.string_of_int (Z.to_int z).

(** *** z.number() *)

(** [a < b] on numbers. *)
Definition numLt (a b : JsNumber) : bool :=
  match a, b with
  | NaN, _ | _, NaN => false
  | Finite x, Finite y => negb (Qle_bool y x)
  | NegInfinity, NegInfinity => false
  | NegInfinity, _ => true
  | Finite _, PosInfinity => true
  | _, _ => false
  end.

Definition isInteger (n : JsNumber) : bool :=
  match n with
  | Finite q => (Qnum q mod Zpos (Qden q) =? 0)
  | _ => false
  end.

Definition isFinite (n : JsNumber) : bool :=
  match n with
  | Finite _ => true
  | _ => false
  end.

Definition num (z : Z) : JsNumber := Finite (inject_Z z).

Inductive NumberCheck : Type :=
| CheckInt
| CheckMin (value : Z)
| CheckMax (value : Z)
| CheckFinite.

Definition ZodNumber : Type := list NumberCheck.

Definition z_number : ZodNumber := [].
Definition int (s : ZodNumber) : ZodNumber := s ++ [CheckInt].
Definition min (value : Z) (s : ZodNumber) : ZodNumber := s ++ [CheckMin value].
Definition max (value : Z) (s : ZodNumber) : ZodNumber := s ++ [CheckMax value].
Definition finite (s : ZodNumber) : ZodNumber := s ++ [CheckFinite].

Definition runNumberCheck (p : list PathSegment) (n : JsNumber) (c : NumberCheck)
  : list ZodIssue :=
  match c with
  | CheckInt =>
      if isInteger n then []
      else [mkIssue "invalid_type" p "Expected integer, received float"]
  | CheckMin value =>
      if numLt n (num value)
      then [mkIssue "too_small" p
              ("Number must be greater than or equal to " +:+ showZ value)]
      else []
  | CheckMax value =>
      if numLt (num value) n
      then [mkIssue "too_big" p
              ("Number must be less than or equal to " +:+ showZ value)]
      else []
  | CheckFinite =>
      if isFinite n then [] else [mkIssue "not_finite" p "Number must be finite"]
  end.

(** Every check runs, whether or not an earlier one failed. *)
Definition number (s : ZodNumber) : ZodType := fun p input =>
  match input with
  | JNum NaN => Invalid [invalidType "number" p input]
  | JNum n =>
      match flat_map (runNumberCheck p n) s with
      | [] => Valid input
      | issues => Invalid issues
      end
  | _ => Invalid [invalidType "number" p input]
  end.

(** *** z.string() *)

Inductive StringCheck : Type :=
| CheckMinLength (value : Z)
| CheckMaxLength (value : Z)
| CheckRegex (test : string -> bool) (msg : string).

Definition ZodString : Type := list StringCheck.

Definition z_string : ZodString := [].
Definition minLength (value : Z) (s : ZodString) : ZodString := s ++ [CheckMinLength value].
Definition maxLength (value : Z) (s : ZodString) : ZodString := s ++ [CheckMaxLength value].
Definition regex (test : string -> bool) (msg : string) (s : ZodString) : ZodString :=
  s ++ [CheckRegex test msg].

Definition runStringCheck (p : list PathSegment) (x : string) (c : StringCheck)
  : list ZodIssue :=
  match c with
  | CheckMinLength value =>
      if len x <? value
      then [mkIssue "too_small" p
              ("String must contain at least " +:+ showZ value +:+ " character(s)")]
      else []
  | CheckMaxLength value =>
      if value <? len x
      then [mkIssue "too_big" p
              ("String must contain at most " +:+ showZ value +:+ " character(s)")]
      else []
  | CheckRegex test msg =>
      if test x then [] else [mkIssue "invalid_string" p msg]
  end.

Definition str (s : ZodString) : ZodType := fun p input =>
  match input with
  | JStr x =>
      match flat_map (runStringCheck p x) s with
      | [] => Valid input
      | issues => Invalid issues
      end
  | _ => Invalid [invalidType "string" p input]
  end.

(** *** .optional(), .default(), z.object() *)

Definition optional (inner : ZodType) : ZodType := fun p input =>
  match input with
  | JUndefined => Valid JUndefined
  | _ => inner p input
  end.

Definition default (defaultValue : JsValue) (inner : ZodType) : ZodType := fun p input =>
  match input with
  | JUndefined => inner p defaultValue
  | _ => inner p input
  end.

(** [key in data] *)
Definition hasKey (entries : list (string * JsValue)) (key : string) : bool :=
  match lookupEntry key entries with
  | Some _ => true
  | None => false
  end.

Definition parseField (p : list PathSegment) (entries : list (string * JsValue))
    (kv : string * ZodType) : ParseResult :=
  snd kv (p ++ [Key (fst kv)]) (prop entries (fst kv)).

(** The output object: the shape's keys in order; a key is left out when its
    value is [undefined] and the input did not have it. *)
Definition outputEntry (entries : list (string * JsValue)) (kv : string * ZodType)
    (r : ParseResult) : list (string * JsValue) :=
  match r with
  | Valid JUndefined => if hasKey entries (fst kv) then [(fst kv, JUndefined)] else []
  | Valid v => [(fst kv, v)]
  | Invalid _ => []
  end.

Definition object (shape : list (string * ZodType)) : ZodType := fun p input =>
  match input with
  | JObj entries =>
      let results := map (fun kv => (kv, parseField p entries kv)) shape in
      match flat_map (fun kr => issuesOf (snd kr)) results with
      | [] => Valid (JObj (flat_map (fun kr => outputEntry entries (fst kr) (snd kr)) results))
      | issues => Invalid issues
      end
  | _ => Invalid [invalidType "object" p input]
  end.

(** *** The schemas of the file *)

Definition isLower (c : ascii) : bool :=
  let n := nat_of_ascii c in (97 <=? n)%nat && (n <=? 122)%nat.

Definition isDigit (c : ascii) : bool :=
  let n := nat_of_ascii c in (48 <=? n)%nat && (n <=? 57)%nat.

Fixpoint allChars (f : ascii -> bool) (s : string) : bool :=
  match s with
  | EmptyString => true
  | String c s' => f c && allChars f s'
  end.

(** [/^[a-z][a-z0-9-]*$/] *)
Definition entityIdPattern (s : string) : bool :=
  match s with
  | EmptyString => false
  | String c s' =>
      isLower c && allChars (fun x => isLower x || isDigit x || Ascii.eqb x "-") s'
  end.

(** [/^\d{4}-\d{2}-\d{2}$/] *)
Definition datePattern (s : string) : bool :=
  match s with
  | String y1 (String y2 (String y3 (String y4 (String d1 (String m1 (String m2
      (String d2 (String a1 (String a2 EmptyString))))))))) =>
      isDigit y1 && isDigit y2 && isDigit y3 && isDigit y4 && Ascii.eqb d1 "-"
      && isDigit m1 && isDigit m2 && Ascii.eqb d2 "-" && isDigit a1 && isDigit a2
  | _ => false
  end.

Definition EntityIdSchema : ZodType :=
  str (regex entityIdPattern
         "Entity ID must be lowercase letters, numbers, and dashes only"
         (maxLength 50 (minLength 1 z_string))).

Definition CentsSchema : ZodType := number (finite (int z_number)).

Definition DateSchema : ZodType := str (regex datePattern "Invalid" z_string).

Definition TransactionQueryShape : list (string * ZodType) :=
  [ ("entityId", optional EntityIdSchema);
    ("accountId", optional (str z_string));
    ("startDate", optional DateSchema);
    ("endDate", optional DateSchema);
    ("minAmount", optional CentsSchema);
    ("maxAmount", optional CentsSchema);
    ("search", optional (str (maxLength 200 z_string)));
    ("limit", default (JNum (num 100)) (optional (number (max 1000 (min 1 (int z_number))))));
    ("offset", default (JNum (num 0)) (optional (number (min 0 (int z_number))))) ].

Definition TransactionQuerySchema : ZodType := object TransactionQueryShape.

(** *** Utility functions *)

(** [schema.safeParse(data)] *)
Inductive SafeParseReturn : Type :=
| SafeParseSuccess (data : JsValue)
| SafeParseError (error : ZodError).

Definition safeParse (schema : ZodType) (data : JsValue) : SafeParseReturn :=
  match schema [] data with
  | Valid out => SafeParseSuccess out
  | Invalid issues => SafeParseError (mkZodError issues)
  end.

(** The tagged result of [safeValidate]:
    [{ success: true, data }] or [{ success: false, error }]. *)
Inductive ValidationResult : Type :=
| Success (data : JsValue)
| Failure (error : ZodError).

Definition safeValidate (schema : ZodType) (data : JsValue) : ValidationResult :=
  let result := safeParse schema data in
  match result with
  | SafeParseSuccess out => Success out
  | SafeParseError error => Failure error
  end.



Definition segmentString (seg : PathSegment) : string :=
  match seg with
  | Key k => k
  | Index i => DecimalString.NilZero.string_of_uint (Nat.to_uint i)
  end.

(** [err.path.join('.')] *)
Definition joinPath (p : list PathSegment) : string :=
  String.concat "." (map segmentString p).

Record FormattedError : Type := mkFormatted {
  formattedMessage : string;
  fields : gmap string string
}.

(** [fields[path] = err.message], issue after issue, on a record that
    starts as [{}].  Under the key ["__proto__"] the assignment runs the
    setter inherited from [Object.prototype], which ignores a string: no
    entry is made. *)
Definition setField (fs : gmap string string) (err : ZodIssue) : gmap string string :=
  let key := joinPath (path err) in
  if String.eqb key "__proto__" then fs else <[key := message err]> fs.

Definition formatValidationError (error : ZodError) : FormattedError :=
  mkFormatted "Validation failed" (foldl setField ∅ (errors error)).

(** *** More schemas of the file *)

(** [/^\d{4,17}$/] *)
Definition accountNumberPattern (s : string) : bool :=
  allChars isDigit s && (4 <=? len s) && (len s <=? 17).

(** [/^\d{9}$/] *)
Definition routingNumberPattern (s : string) : bool :=
  allChars isDigit s && (len s =? 9).

Definition AccountNumberSchema : ZodType :=
  str (regex accountNumberPattern "Account number must be 4-17 digits" z_string).

Definition RoutingNumberSchema : ZodType :=
  str (regex routingNumberPattern "Routing number must be 9 digits" z_string).

Definition PercentageSchema : ZodType := number (max 1 (min 0 z_number)).

Definition GoalInputShape : list (string * ZodType) :=
  [ ("name", str (maxLength 200 (minLength 1 z_string)));
    ("description", optional (str (maxLength 1000 z_string)));
    ("entityId", optional EntityIdSchema);
    ("targetValue", CentsSchema);
    ("currentValue", default (JNum (num 0)) (optional CentsSchema));
    ("unit", default (JStr "USD") (optional (str (maxLength 50 z_string))));
    ("startDate", DateSchema);
    ("endDate", DateSchema);
    ("phase", optional (str (maxLength 100 z_string))) ].

Definition GoalInputSchema : ZodType := object GoalInputShape.

End Validation.

(** ** validation/index.ts: the schemas that need the status of a parse

    [.positive()] and [.refine()] need more of Zod than the
    combinators above carry.  Zod's parser keeps a status beside the value: a
    failed check leaves the parse dirty, with its value still at hand, while a
    value of the wrong type aborts it; a refinement runs on a dirty value and
    not on an aborted one.  The combinators are embedded again with that
    status ([ZodNumber._parse], [ZodString._parse], [ZodObject] in strip
    mode, the refinement case of [ZodEffects]); issues are listed in the
    order Zod adds them. *)

Module Zod.
Import JS Validation.

Inductive ParseReturn : Type :=
| OK (value : JsValue)
| DIRTY (value : JsValue) (issues : list ZodIssue)
| INVALID (issues : list ZodIssue).

Definition Schema : Type := list PathSegment -> JsValue -> ParseReturn.

Definition issuesIn (r : ParseReturn) : list ZodIssue :=
  match r with
  | OK _ => []
  | DIRTY _ issues => issues
  | INVALID issues => issues
  end.

Definition aborted (r : ParseReturn) : bool :=
  match r with
  | INVALID _ => true
  | _ => false
  end.

(** The value with the issues its checks raised: dirty as soon as there is one. *)
Definition checked (value : JsValue) (issues : list ZodIssue) : ParseReturn :=
  match issues with
  | [] => OK value
  | _ => DIRTY value issues
  end.

(** *** z.number() *)

Inductive NumberCheck : Type :=
| IsInt
| Min (value : Z) (inclusive : bool)
| Max (value : Z) (inclusive : bool)
| IsFinite.

Definition ZodNumber : Type := list NumberCheck.

Definition z_number : ZodNumber := [].
Definition int (s : ZodNumber) : ZodNumber := s ++ [IsInt].
Definition min (value : Z) (s : ZodNumber) : ZodNumber := s ++ [Min value true].
Definition max (value : Z) (s : ZodNumber) : ZodNumber := s ++ [Max value true].
Definition positive (s : ZodNumber) : ZodNumber := s ++ [Min 0 false].
Definition finite (s : ZodNumber) : ZodNumber := s ++ [IsFinite].

(** [a <= b] on numbers that are not NaN. *)
Definition numLe (a b : JsNumber) : bool := negb (numLt b a).

Definition runNumberCheck (p : list PathSegment) (n : JsNumber) (c : NumberCheck)
  : list ZodIssue :=
  match c with
  | IsInt =>
      if isInteger n then []
      else [mkIssue "invalid_type" p "Expected integer, received float"]
  | Min value inclusive =>
      if (if inclusive then numLt n (num value) else numLe n (num value))
      then [mkIssue "too_small" p
              ("Number must be "
               +:+ (if inclusive then "greater than or equal to " else "greater than ")
               +:+ showZ value)]
      else []
  | Max value inclusive =>
      if (if inclusive then numLt (num value) n else numLe (num value) n)
      then [mkIssue "too_big" p
              ("Number must be "
               +:+ (if inclusive then "less than or equal to " else "less than ")
               +:+ showZ value)]
      else []
  | IsFinite =>
      if isFinite n then [] else [mkIssue "not_finite" p "Number must be finite"]
  end.

Definition number (s : ZodNumber) : Schema := fun p input =>
  match input with
  | JNum NaN => INVALID [invalidType "number" p input]
  | JNum n => checked input (flat_map (runNumberCheck p n) s)
  | _ => INVALID [invalidType "number" p input]
  end.

(** *** z.string(), with the checks of [Validation] *)

Definition str (s : ZodString) : Schema := fun p input =>
  match input with
  | JStr x => checked input (flat_map (runStringCheck p x) s)
  | _ => INVALID [invalidType "string" p input]
  end.

(** *** z.object(), .refine() *)

Definition parseField (p : list PathSegment) (entries : list (string * JsValue))
    (kv : string * Schema) : ParseReturn :=
  snd kv (p ++ [Key (fst kv)]) (prop entries (fst kv)).

(** What a field contributes to the output object: its value, unless that is
    [undefined] and the input did not have the key. *)
Definition outputEntry (entries : list (string * JsValue)) (key : string)
    (r : ParseReturn) : list (string * JsValue) :=
  match r with
  | OK JUndefined | DIRTY JUndefined _ =>
      if hasKey entries key then [(key, JUndefined)] else []
  | OK v | DIRTY v _ => [(key, v)]
  | INVALID _ => []
  end.

(** Every field is parsed; one aborted field aborts the object. *)
Definition object (shape : list (string * Schema)) : Schema := fun p input =>
  match input with
  | JObj entries =>
      let results := map (fun kv => (fst kv, parseField p entries kv)) shape in
      let issues := flat_map (fun kr => issuesIn (snd kr)) results in
      if existsb (fun kr => aborted (snd kr)) results then INVALID issues
      else checked (JObj (flat_map (fun kr => outputEntry entries (fst kr) (snd kr)) results))
                   issues
  | _ => INVALID [invalidType "object" p input]
  end.

(** [schema.refine(check, { message })]: the check runs on the value of a
    valid or dirty parse, and its failure is one more issue at the path of
    the schema. *)
Definition refine (check : JsValue -> bool) (message : string) (inner : Schema)
  : Schema := fun p input =>
  match inner p input with
  | INVALID issues => INVALID issues
  | OK value =>
      if check value then OK value else DIRTY value [mkIssue "custom" p message]
  | DIRTY value issues =>
      if check value then DIRTY value issues
      else DIRTY value (issues ++ [mkIssue "custom" p message])
  end.

(** [schema.safeParse(data)] succeeds on a valid parse only. *)
Definition safeParse (schema : Schema) (data : JsValue) : SafeParseReturn :=
  match schema [] data with
  | OK value => SafeParseSuccess value
  | r => SafeParseError (mkZodError (issuesIn r))
  end.

(** *** The schemas *)

Definition PositiveCentsSchema : Schema := number (finite (positive (int z_number))).

Definition DateSchema : Schema := str (regex datePattern "Invalid" z_string).

(** [a < b] and [a <= b] on strings: by code units, a proper prefix first. *)
Fixpoint strLt (a b : string) : bool :=
  match a, b with
  | _, EmptyString => false
  | EmptyString, String _ _ => true
  | String x a', String y b' =>
      if charCode x <? charCode y then true
      else if charCode y <? charCode x then false
      else strLt a' b'
  end.

Definition strLe (a b : string) : bool := negb (strLt b a).

(** [(data) => data.startDate <= data.endDate].  The callback is typed on
    the output of the object schema, where both fields are strings; the last
    case is never reached. *)
Definition startNotAfterEnd (data : JsValue) : bool :=
  match data with
  | JObj entries =>
      match prop entries "startDate", prop entries "endDate" with
      | JStr startDate, JStr endDate => strLe startDate endDate
      | _, _ => false
      end
  | _ => false
  end.

Definition DateRangeSchema : Schema :=
  refine startNotAfterEnd "Start date must be before or equal to end date"
    (object [ ("startDate", DateSchema); ("endDate", DateSchema) ]).

End Zod.

(** ** utils/currency.ts

    Here numbers are computed with, and [/] and [*] round: amounts are
    binary64 floats, the kernel's [float], whose operations are those of IEEE
    754 in round-to-nearest-even exactly as JavaScript performs them. *)

Module Currency.

(** The number denoted by an integer literal or an integer amount of cents
    (exact up to 2^53 in magnitude). *)
Definition ofZ (z : Z) : float :=
  match z with
  | Z0 => 0%float
  | Zpos _ => PrimFloat.of_uint63 (Uint63.of_Z z)
  | Zneg p => PrimFloat.opp (PrimFloat.of_uint63 (Uint63.of_Z (Zpos p)))
  end.

(** [Math.round(x)]: [x] itself when it is not finite or is an integer,
    otherwise floor(x + 1/2), computed exactly on the value [m * 2^e] of [x];
    a result of zero keeps the sign of [x]. *)
Definition Math_round (x : float) : float :=
  match Prim2SF x with
  | S754_finite s m e =>
      if 0 <=? e then x
      else
        let k := - e in
        let v := if s then Zneg m else Zpos m in
        let n := Z.shiftr (2 * v + Z.shiftl 1 k) (k + 1) in
        if (n =? 0) && s then (-0)%float else ofZ n
  | _ => x
  end.

Definition calculatePercentageChange (current previous : float) : float :=
  if (previous =? 0)%float then (if (0 <? current)%float then 1%float else 0%float)
  else ((current - previous) / PrimFloat.abs previous)%float.

Definition dollarsToCents (dollars : float) : float :=
  Math_round (dollars * 100)%float.

Definition centsToDollars (cents : float) : float := (cents / 100)%float.

(** [amounts.reduce((sum, amount) => sum + amount, 0)] *)
Definition sumCents (amounts : list float) : float :=
  fold_left (fun sum amount => (sum + amount)%float) amounts 0%float.

(** [amounts.length] is below 2^32 in JavaScript, where [ofZ] is exact. *)
Definition averageCents (amounts : list float) : float :=
  if (List.length amounts =? 0)%nat then 0%float
  else Math_round (sumCents amounts / ofZ (Z.of_nat (List.length amounts)))%float.

End Currency.

(** * Properties *)

(** ** Strings *)

Section StringFacts.

Lemma append_nil_l (b : string) : "" +:+ b = b.
Proof. reflexivity. Qed.

Lemma append_cons (c : ascii) (a b : string) : String c a +:+ b = String c (a +:+ b).
Proof. reflexivity. Qed.

Lemma length_append (a b : string) :
  String.length (a +:+ b) = (String.length a + String.length b)%nat.
Proof.
  induction a as [|c a IH]; [reflexivity|].
  rewrite append_cons. simpl. now rewrite IH.
Qed.

Lemma length_substring (s : string) : forall n m : nat,
  String.length (String.substring n m s) = Nat.min m (String.length s - n).
Proof.
  induction s as [|c s IH]; intros n m.
  - destruct n, m; reflexivity.
  - destruct n as [|n]; simpl.
    + destruct m as [|m]; simpl; [reflexivity|]. rewrite IH. now rewrite Nat.sub_0_r.
    + apply IH.
Qed.

Lemma substring_all (s : string) : String.substring 0 (String.length s) s = s.
Proof. induction s as [|c s IH]; simpl; [reflexivity | now rewrite IH]. Qed.

(** A string splits at any position into the part before and the part from it. *)
Lemma substring_split (s : string) : forall n : nat,
  (n <= String.length s)%nat ->
  s = String.substring 0 n s +:+ String.substring n (String.length s - n) s.
Proof.
  induction s as [|c s IH]; intros n Hn.
  - destruct n; [reflexivity | simpl in Hn; lia].
  - destruct n as [|n]; simpl.
    + now rewrite substring_all.
    + simpl in Hn. rewrite append_cons. f_equal. apply IH. lia.
Qed.

Lemma get_append_r (a b : string) (i : nat) :
  String.get (String.length a + i) (a +:+ b) = String.get i b.
Proof.
  induction a as [|c a IH]; [reflexivity|].
  rewrite append_cons. simpl. exact IH.
Qed.

Lemma append_assoc (a b c : string) : (a +:+ b) +:+ c = a +:+ (b +:+ c).
Proof.
  induction a as [|x a IH]; [reflexivity|].
  rewrite !append_cons. now rewrite IH.
Qed.

Lemma prefix_true (p s : string) :
  String.prefix p s = true -> exists rest, s = p +:+ rest.
Proof.
  revert s. induction p as [|c p IH]; intros s H.
  - exists s. reflexivity.
  - destruct s as [|d s]; simpl in H; [discriminate|].
    destruct (ascii_dec c d) as [->|]; [|discriminate].
    destruct (IH s H) as [rest ->]. exists rest. reflexivity.
Qed.

Lemma prefix_append (p rest : string) : String.prefix p (p +:+ rest) = true.
Proof.
  induction p as [|c p IH]; [now destruct rest|].
  rewrite append_cons. simpl.
  destruct (ascii_dec c c); [exact IH | congruence].
Qed.

Lemma includes_nil (sub : string) :
  JS.includes "" sub = String.prefix sub "".
Proof. simpl. apply orb_false_r. Qed.

Lemma includes_cons (c : ascii) (s sub : string) :
  JS.includes (String c s) sub = String.prefix sub (String c s) || JS.includes s sub.
Proof. reflexivity. Qed.

(** [includes] decides the substring relation. *)
Lemma includes_true_iff (s sub : string) :
  JS.includes s sub = true <-> exists pre suf, s = pre +:+ sub +:+ suf.
Proof.
  split.
  - induction s as [|c s IH]; intros H.
    + rewrite includes_nil in H. apply prefix_true in H as [rest H].
      exists EmptyString, rest. exact H.
    + rewrite includes_cons in H. apply orb_true_iff in H as [H|H].
      * apply prefix_true in H as [rest H]. exists EmptyString, rest. exact H.
      * destruct (IH H) as (pre & suf & ->). exists (String c pre), suf. reflexivity.
  - intros (pre & suf & ->). induction pre as [|c pre IH].
    + rewrite append_nil_l. destruct (sub +:+ suf) as [|d t] eqn:E.
      * rewrite includes_nil, <- E. apply prefix_append.
      * rewrite includes_cons, <- E, prefix_append. reflexivity.
    + rewrite append_cons, includes_cons, IH. apply orb_true_r.
Qed.

Lemma get_append_l (a b : string) : forall i : nat,
  (i < String.length a)%nat -> String.get i (a +:+ b) = String.get i a.
Proof.
  induction a as [|c a IH]; intros i Hi; simpl in Hi; [lia|].
  rewrite append_cons. destruct i as [|i]; simpl; [reflexivity|].
  apply IH. lia.
Qed.

Lemma len_nonneg (s : string) : 0 <= JS.len s.
Proof. unfold JS.len. lia. Qed.

Lemma len_append (a b : string) : JS.len (a +:+ b) = JS.len a + JS.len b.
Proof. unfold JS.len. rewrite length_append. lia. Qed.

Lemma isEmpty_false (s : string) : 0 < JS.len s -> Security.isEmpty s = false.
Proof. destruct s; [unfold JS.len; simpl; lia | reflexivity]. Qed.

(** [s.slice(0, n)] is the prefix of length [n] and [s.slice(-n)] the suffix
    of length [n], whenever [s] has at least [n] code units. *)
Lemma slice_prefix (s : string) (n : Z) :
  0 <= n <= JS.len s ->
  JS.slice s 0 (Some n) = String.substring 0 (Z.to_nat n) s.
Proof.
  intros Hn. unfold JS.slice, JS.clampIndex.
  replace (0 <? 0) with false by reflexivity.
  destruct (n <? 0) eqn:E; [apply Z.ltb_lt in E; lia|].
  rewrite (Z.min_l 0) by apply len_nonneg.
  rewrite (Z.min_l n) by lia.
  rewrite Z.sub_0_r, Z.max_l by lia. reflexivity.
Qed.

Lemma slice_suffix (s : string) (n : Z) :
  0 < n <= JS.len s ->
  JS.slice s (- n) None
  = String.substring (String.length s - Z.to_nat n) (Z.to_nat n) s.
Proof.
  intros Hn. unfold JS.slice, JS.clampIndex.
  destruct (- n <? 0) eqn:E; [|apply Z.ltb_ge in E; lia].
  rewrite (Z.max_l (JS.len s + - n)) by lia.
  replace (JS.len s - (JS.len s + - n)) with n by lia.
  rewrite Z.max_l by lia.
  f_equal. unfold JS.len in *. lia.
Qed.

(** [toLowerCase] beyond ASCII: the capital E with acute accent (U+00C9) has
    the lower-case form U+00E9; the multiplication sign (U+00D7) and the
    small y with diaeresis (U+00FF) have none. *)
Example toLowerCase_latin1 :
  JS.toLowerCase (String (ascii_of_nat 201) (String (ascii_of_nat 215)
                    (String (ascii_of_nat 255) "KEY")))
  = String (ascii_of_nat 233) (String (ascii_of_nat 215)
      (String (ascii_of_nat 255) "key")).
Proof. reflexivity. Qed.

End StringFacts.

(** ** utils/security.ts *)

Section SecurityFacts.
Import JS Security.

(** C9. [maskAccountNumber] never throws.  On an account number of at least 5
    characters it returns min(length - 4, 4) asterisks followed by exactly the
    last 4 characters of the input; an input of at most 4 characters (the empty
    string included) is returned unchanged. *)
Theorem maskAccountNumber_keeps_only_tail (accountNumber : string) :
  (5 <= len accountNumber ->
   exists hidden lastFour,
     accountNumber = hidden +:+ lastFour /\
     len lastFour = 4 /\
     maskAccountNumber accountNumber
     = Some (repeatN "*" (Z.to_nat (Z.min (len accountNumber - 4) 4)) +:+ lastFour)) /\
  (len accountNumber <= 4 -> maskAccountNumber accountNumber = Some accountNumber).
Proof.
  split; intros Hlen.
  - exists (String.substring 0 (String.length accountNumber - 4) accountNumber),
           (String.substring (String.length accountNumber - 4) 4 accountNumber).
    assert (Hnat : (5 <= String.length accountNumber)%nat) by (unfold len in Hlen; lia).
    split; [|split].
    + rewrite (substring_split accountNumber (String.length accountNumber - 4)) at 1 by lia.
      do 2 f_equal. lia.
    + unfold len. rewrite length_substring. lia.
    + unfold maskAccountNumber.
      rewrite isEmpty_false by lia.
      destruct (len accountNumber <=? 4) eqn:E; [apply Z.leb_le in E; lia|].
      cbn [orb]. change (-4) with (- (4)).
      rewrite (slice_suffix accountNumber 4) by lia.
      unfold repeat.
      destruct (Z.min (len accountNumber - 4) 4 <? 0) eqn:E'; [apply Z.ltb_lt in E'; lia|].
      reflexivity.
  - unfold maskAccountNumber.
    destruct (len accountNumber <=? 4) eqn:E; [|apply Z.leb_gt in E; lia].
    now rewrite orb_true_r.
Qed.

Lemma maskAccountNumber_keeps_only_tail_witness :
  (exists hidden lastFour,
     "1234567890" = hidden +:+ lastFour /\
     len lastFour = 4 /\
     maskAccountNumber "1234567890" = Some ("****" +:+ lastFour)) /\
  maskAccountNumber "123" = Some "123".
Proof.
  split.
  - apply (proj1 (maskAccountNumber_keeps_only_tail "1234567890")).
    vm_compute. discriminate.
  - apply (proj2 (maskAccountNumber_keeps_only_tail "123")).
    vm_compute. discriminate.
Defined.

Lemma get_dots (j : nat) : (j < 3)%nat -> String.get j "..." = Some "."%char.
Proof. destruct j as [|[|[|j]]]; intros; [reflexivity..|lia]. Qed.

Lemma get_in_range (s : string) : forall i : nat,
  (i < String.length s)%nat -> exists c, String.get i s = Some c.
Proof.
  induction s as [|c s IH]; intros i Hi; simpl in Hi; [lia|].
  destruct i as [|i]; simpl; [now exists c | apply IH; lia].
Qed.

(** The masked form of a long key: its first 8 characters and three dots. *)
Lemma sanitizeApiKey_long (apiKey : string) :
  8 < len apiKey ->
  sanitizeApiKey apiKey = String.substring 0 8 apiKey +:+ "...".
Proof.
  intros Hlen. unfold sanitizeApiKey.
  rewrite isEmpty_false by lia.
  destruct (len apiKey <=? 8) eqn:E; [apply Z.leb_le in E; lia|].
  now rewrite (slice_prefix apiKey 8) by lia.
Qed.

(** C1, as the code has it.  A token of more than 8 characters is masked to
    its first 8 characters followed by [...]; the token is not a substring of
    that masked form when it is longer than the masked form (more than 11
    characters) or does not end in a dot.  A token of at most 8 characters is
    returned as it is, and the empty token reads [[missing]]. *)
Theorem sanitizeApiKey_masks_long_tokens (apiKey : string) :
  (8 < len apiKey ->
   exists first8 rest,
     apiKey = first8 +:+ rest /\
     len first8 = 8 /\
     sanitizeApiKey apiKey = first8 +:+ "..." /\
     (11 < len apiKey \/
      String.get (String.length apiKey - 1) apiKey <> Some "."%char ->
      includes (sanitizeApiKey apiKey) apiKey = false)) /\
  (0 < len apiKey <= 8 -> sanitizeApiKey apiKey = apiKey) /\
  (len apiKey = 0 -> sanitizeApiKey apiKey = "[missing]").
Proof.
  split; [|split].
  - intros Hlen.
    assert (Hnat : (8 < String.length apiKey)%nat) by (unfold len in Hlen; lia).
    exists (String.substring 0 8 apiKey),
           (String.substring 8 (String.length apiKey - 8) apiKey).
    assert (Hfirst : String.length (String.substring 0 8 apiKey) = 8%nat)
      by (rewrite length_substring; lia).
    split; [apply substring_split; lia|].
    split; [unfold len; rewrite Hfirst; reflexivity|].
    split; [apply sanitizeApiKey_long; exact Hlen|].
    intros Hcond. rewrite sanitizeApiKey_long by exact Hlen.
    destruct (includes (String.substring 0 8 apiKey +:+ "...") apiKey) eqn:Hinc;
      [exfalso | reflexivity].
    apply includes_true_iff in Hinc as (pre & suf & Heq).
    assert (Hsize : (8 + 3 = String.length pre + (String.length apiKey + String.length suf))%nat).
    { apply (f_equal String.length) in Heq.
      rewrite !length_append, Hfirst in Heq. exact Heq. }
    destruct Hcond as [Hbig | Hlast]; [unfold len in Hbig; lia|].
    apply Hlast.
    (* the last character of the token sits among the dots *)
    assert (Hpos : String.get (String.length pre + (String.length apiKey - 1))
                     (String.substring 0 8 apiKey +:+ "...")
                   = String.get (String.length apiKey - 1) apiKey).
    { rewrite Heq, get_append_r. apply get_append_l. lia. }
    rewrite <- Hpos.
    replace (String.length pre + (String.length apiKey - 1))%nat
      with (String.length (String.substring 0 8 apiKey)
            + (String.length pre + String.length apiKey - 9))%nat by lia.
    rewrite get_append_r. apply get_dots. lia.
  - intros Hlen. unfold sanitizeApiKey.
    rewrite isEmpty_false by lia.
    destruct (len apiKey <=? 8) eqn:E; [reflexivity | apply Z.leb_gt in E; lia].
  - intros Hlen. destruct apiKey; [reflexivity | unfold len in Hlen; simpl in Hlen; lia].
Qed.

(** The scenario of the specification: the token [secret-token:abc123456789]
    masks to [secret-t...], which does not contain the token. *)
Lemma sanitizeApiKey_masks_long_tokens_witness :
  exists first8 rest,
    "secret-token:abc123456789" = first8 +:+ rest /\
    len first8 = 8 /\
    sanitizeApiKey "secret-token:abc123456789" = first8 +:+ "..." /\
    (11 < len "secret-token:abc123456789" \/
     String.get (String.length "secret-token:abc123456789" - 1)
       "secret-token:abc123456789" <> Some "."%char ->
     includes (sanitizeApiKey "secret-token:abc123456789")
       "secret-token:abc123456789" = false).
Proof.
  apply (proj1 (sanitizeApiKey_masks_long_tokens "secret-token:abc123456789")).
  vm_compute. reflexivity.
Defined.

Example sanitizeApiKey_scenario :
  sanitizeApiKey "secret-token:abc123456789" = "secret-t..." /\
  includes (sanitizeApiKey "secret-token:abc123456789") "secret-t..." = true /\
  includes (sanitizeApiKey "secret-token:abc123456789") "secret-token:abc123456789" = false.
Proof. repeat split. Qed.

(** C1 as stated fails on short tokens: [short] is returned whole, so the
    result neither is "first 8 characters and an ellipsis" nor hides the
    token. *)
Lemma sanitizeApiKey_short_token_unmasked :
  ~ (forall token : string,
       sanitizeApiKey token = slice token 0 (Some 8) +:+ "..." /\
       includes (sanitizeApiKey token) token = false).
Proof.
  intros H. destruct (H "short") as [Hmask _]. vm_compute in Hmask. discriminate.
Qed.

(** A token made of dots is found again in its own mask. *)
Example sanitizeApiKey_dots :
  sanitizeApiKey "........." = "..........." /\
  includes (sanitizeApiKey ".........") "........." = true.
Proof. split; reflexivity. Qed.

(** *** sanitizeForLog *)














Example sanitizeForLog_test_sensitive :
  sanitizeForLog
    [ ("apiKey", JStr "secret-token:abc123"); ("balance", JNum (Finite 50000));
      ("accountNumber", JStr "1234567890") ]
  = [ ("apiKey", JStr "secret-t..."); ("balance", JNum (Finite 50000));
      ("accountNumber", JStr "12345678...") ].
Proof. reflexivity. Qed.



(** An own entry [__proto__] of the input, as [JSON.parse] creates one, is
    not an entry of the copy; the other entries are treated as ever. *)
Example sanitizeForLog_parsed_proto :
  sanitizeForLog
    [ ("__proto__", JObj [ ("password", JStr "correct horse battery") ]);
      ("password", JStr "correct horse battery") ]
  = [ ("password", JStr "correct ...") ] /\
  prototypeOfCopy defaultSensitiveFields
    [ ("__proto__", JObj [ ("password", JStr "correct horse battery") ]);
      ("password", JStr "correct horse battery") ]
  = PrototypeSetTo (JObj [ ("password", JStr "correct ...") ]).
Proof. split; reflexivity. Qed.

(** A short secret is "masked" to itself. *)
Example sanitizeForLog_short_secret :
  sanitizeForLog [ ("password", JStr "hunter2") ] = [ ("password", JStr "hunter2") ].
Proof. reflexivity. Qed.

End SecurityFacts.

(** ** api/client.ts *)

Section ApiRequestFacts.
Import JS Client.

(** The message an error envelope ends up with: [data.error.message || 'API error']. *)
Definition envelopeMessage (msg : string) : string :=
  if String.eqb msg "" then "API error" else msg.

(** C3, as the code has it.  A body that parses to an envelope with
    [success: true] makes the call return the envelope's [data]; one with
    [success: false] makes it throw an [ApiClientError] with the response
    status, the envelope error's [code] and [details], and its [message] --
    or ['API error'] when that message is empty; a body that is not JSON makes
    it throw an error with code [INVALID_RESPONSE].  No value is returned in
    the two failure cases. *)
Theorem apiRequest_envelope (httpStatus : Z) (entries : list (string * JsValue)) :
  let parsed := FetchResolved (mkResponse httpStatus (Some (JObj entries))) in
  let unparsable := FetchResolved (mkResponse httpStatus None) in
  (lookupEntry "success" entries = Some (JBool true) ->
   apiRequest parsed = Return (prop entries "data")) /\
  (forall (errEntries : list (string * JsValue)) (msg : string),
     lookupEntry "success" entries = Some (JBool false) ->
     lookupEntry "error" entries = Some (JObj errEntries) ->
     lookupEntry "message" errEntries = Some (JStr msg) ->
     apiRequest parsed
     = Throw (ThrownApiClientError
                (mkApiClientError (JStr (envelopeMessage msg)) (Some httpStatus)
                   (prop errEntries "code") (prop errEntries "details"))) /\
     (forall v, apiRequest parsed <> Return v)) /\
  apiRequest unparsable
  = Throw (ThrownApiClientError
             (mkApiClientError (JStr "Invalid JSON response") (Some httpStatus)
                (JStr "INVALID_RESPONSE") JUndefined)) /\
  (forall v, apiRequest unparsable <> Return v).
Proof.
  cbn zeta. split; [|split; [|split]].
  - intros Hs. unfold apiRequest, bind, getProp, prop. cbn [json status].
    rewrite Hs. reflexivity.
  - intros errEntries msg Hs He Hm.
    assert (Hthrow : apiRequest (FetchResolved (mkResponse httpStatus (Some (JObj entries))))
      = Throw (ThrownApiClientError
                 (mkApiClientError (JStr (envelopeMessage msg)) (Some httpStatus)
                    (prop errEntries "code") (prop errEntries "details")))).
    { assert (Ps : prop entries "success" = JBool false) by (unfold prop; now rewrite Hs).
      assert (Pe : prop entries "error" = JObj errEntries) by (unfold prop; now rewrite He).
      assert (Pm : prop errEntries "message" = JStr msg) by (unfold prop; now rewrite Hm).
      unfold apiRequest. cbn [json status getProp bind].
      rewrite Ps. cbn [truthy negb]. rewrite Pe. cbn [getProp bind]. rewrite Pm.
      unfold envelopeMessage, truthy.
      destruct (String.eqb msg ""); reflexivity. }
    split; [exact Hthrow|]. intros v. rewrite Hthrow. discriminate.
  - reflexivity.
  - intros v. discriminate.
Qed.

Definition okEnvelope : list (string * JsValue) :=
  [ ("success", JBool true); ("data", JArr [JNum (Finite 1); JNum (Finite 2)]) ].

Definition notFoundEnvelope : list (string * JsValue) :=
  [ ("success", JBool false);
    ("error", JObj [ ("message", JStr "Entity not found"); ("code", JStr "NOT_FOUND") ]) ].

Lemma apiRequest_envelope_witness :
  apiRequest (FetchResolved (mkResponse 200 (Some (JObj okEnvelope))))
  = Return (JArr [JNum (Finite 1); JNum (Finite 2)]) /\
  apiRequest (FetchResolved (mkResponse 404 (Some (JObj notFoundEnvelope))))
  = Throw (ThrownApiClientError
             (mkApiClientError (JStr "Entity not found") (Some 404)
                (JStr "NOT_FOUND") JUndefined)).
Proof.
  split.
  - apply (proj1 (apiRequest_envelope 200 okEnvelope)). reflexivity.
  - apply (proj1 (proj2 (apiRequest_envelope 404 notFoundEnvelope))
             [ ("message", JStr "Entity not found"); ("code", JStr "NOT_FOUND") ]
             "Entity not found"); reflexivity.
Defined.

(** C3 as stated fails on an envelope whose error message is the empty
    string: the thrown error carries ['API error'], not the envelope's
    message. *)
Lemma apiRequest_empty_message_replaced :
  ~ (forall (status : Z) (errEntries : list (string * JsValue)) (msg : string),
       lookupEntry "message" errEntries = Some (JStr msg) ->
       exists e,
         apiRequest (FetchResolved (mkResponse status
                       (Some (JObj [ ("success", JBool false);
                                     ("error", JObj errEntries) ]))))
         = Throw (ThrownApiClientError e) /\
         message e = JStr msg).
Proof.
  intros H.
  destruct (H 400 [ ("message", JStr ""); ("code", JStr "BAD_REQUEST") ] "" eq_refl)
    as (e & Hthrow & Hmsg).
  vm_compute in Hthrow. injection Hthrow as <-. discriminate.
Qed.

(** A message that is no string reaches the error as [String] makes it; an
    object that cannot be converted makes the constructor call throw. *)
Definition failing (msg : JsValue) : Fetched :=
  FetchResolved
    (mkResponse 500 (Some (JObj [ ("success", JBool false);
                                  ("error", JObj [ ("message", msg) ]) ]))).

Example apiRequest_other_messages :
  map (fun msg => apiRequest (failing msg))
      [ JNum (Finite 42); JBool true; JArr [JNum (Finite (3 # 2)); JNull; JStr "x"];
        JObj [ ("reason", JStr "quota") ] ]
  = map (fun text => Throw (ThrownApiClientError
                              (mkApiClientError (JStr text) (Some 500)
                                 JUndefined JUndefined)))
        [ "42"; "true"; "1.5,,x"; "[object Object]" ] /\
  apiRequest (failing (JObj [ ("toString", JNum (Finite 1)) ]))
  = Throw (ThrownError "TypeError" "Cannot convert object to primitive value").
Proof. split; vm_compute; reflexivity. Qed.

Example numberToString_examples :
  map numberToString
      [ Finite (1 # 10); Finite (3602879701896397 # 36028797018963968);
        Finite (5404319552844596 # 18014398509481984); Finite 1000000000000000000000;
        Finite 123456789012345680000; Finite (1 # 10000000); Finite (1 # 1000000);
        Finite (- 435 # 100); Finite 9007199254740992; Finite 0; NaN; NegInfinity ]
  = [ "0.1"; "0.1"; "0.30000000000000004"; "1e+21"; "123456789012345680000";
      "1e-7"; "0.000001"; "-4.35"; "9007199254740992"; "0"; "NaN"; "-Infinity" ].
Proof. vm_compute. reflexivity. Qed.

End ApiRequestFacts.

Section RetryFacts.
Import JS Client.
Context {World T : Type}.
Variable fn : World -> Completion T * World.
Variable maxRetries baseDelay : Z.

(** An outcome that ends the loop at once: a value, or a client error. *)
Definition final (c : Completion T) : bool :=
  match c with
  | Return _ => true
  | Throw e => isClientError e
  end.

(** What the loop throws once the attempts are used up, given the outcome of
    the last one. *)
Definition surfaced (c : Completion T) : Completion T :=
  match c with
  | Throw e => Throw (if instanceofError e then e else ThrownError "Error" "Unknown error")
  | Return v => Return v
  end.

(** [k] failed attempts from attempt number [attempt] on, each followed by its
    wait. *)
Definition backoff (attempt : Z) (k : nat) : list Event :=
  flat_map (fun i => [Invoked; Waited (baseDelay * 2 ^ (attempt + Z.of_nat i))])
           (seq 0 k).

Lemma backoff_S (attempt : Z) (k : nat) :
  backoff attempt (S k)
  = [Invoked; Waited (baseDelay * 2 ^ attempt)] ++ backoff (attempt + 1) k.
Proof.
  unfold backoff. cbn [seq flat_map]. rewrite Z.add_0_r. f_equal.
  rewrite <- seq_shift, flat_map_concat_map, map_map, <- flat_map_concat_map.
  apply flat_map_ext. intros i.
  replace (attempt + Z.of_nat (S i)) with (attempt + 1 + Z.of_nat i) by lia.
  reflexivity.
Qed.

Lemma invoke_outcome (r : Run) :
  invoke fn r
  = (outcome fn (world r) 0, mkRun (worldAfter fn 1 (world r)) (trace r ++ [Invoked])).
Proof. reflexivity. Qed.

Lemma not_final_throws (c : Completion T) :
  final c = false -> exists e, c = Throw e /\ isClientError e = false.
Proof. destruct c as [v|e]; simpl; [discriminate | eauto]. Qed.

(** The loop stops at the first attempt that returns or fails with a client
    error, having waited after each earlier failure. *)
Lemma retryLoop_stops : forall (k remaining : nat) (attempt : Z)
    (lastError : option Thrown) (r : Run),
  (k < remaining)%nat ->
  attempt + Z.of_nat remaining = maxRetries ->
  (forall i, (i < k)%nat -> final (outcome fn (world r) i) = false) ->
  final (outcome fn (world r) k) = true ->
  retryLoop fn maxRetries baseDelay remaining attempt lastError r
  = (outcome fn (world r) k,
     mkRun (worldAfter fn (S k) (world r)) (trace r ++ backoff attempt k ++ [Invoked])).
Proof.
  induction k as [|k IH]; intros remaining attempt lastError r Hk Hinv Hfail Hfinal.
  - destruct remaining as [|remaining]; [lia|].
    cbn [retryLoop]. rewrite invoke_outcome.
    destruct (outcome fn (world r) 0) as [v|e] eqn:E; [reflexivity|].
    simpl in Hfinal. rewrite Hfinal. reflexivity.
  - destruct remaining as [|remaining]; [lia|].
    cbn [retryLoop]. rewrite invoke_outcome.
    destruct (not_final_throws _ (Hfail 0%nat ltac:(lia))) as (e & -> & ->).
    destruct (attempt <? maxRetries - 1) eqn:E; [|apply Z.ltb_ge in E; lia].
    rewrite IH.
    + cbn [setTimeout world trace]. rewrite backoff_S.
      f_equal. f_equal. rewrite <- !app_assoc. reflexivity.
    + lia.
    + lia.
    + intros i Hi. apply (Hfail (S i)). lia.
    + exact Hfinal.
Qed.

(** When every allowed attempt fails with an error that is retried, the loop
    makes them all, waits between them but not after the last, and throws the
    last error. *)
Lemma retryLoop_exhausts : forall (n : nat) (attempt : Z)
    (lastError : option Thrown) (r : Run),
  attempt + Z.of_nat (S n) = maxRetries ->
  (forall i, (i <= n)%nat -> final (outcome fn (world r) i) = false) ->
  retryLoop fn maxRetries baseDelay (S n) attempt lastError r
  = (surfaced (outcome fn (world r) n),
     mkRun (worldAfter fn (S n) (world r)) (trace r ++ backoff attempt n ++ [Invoked])).
Proof.
  induction n as [|n IH]; intros attempt lastError r Hinv Hfail.
  - cbn [retryLoop]. rewrite invoke_outcome.
    destruct (not_final_throws _ (Hfail 0%nat ltac:(lia))) as (e & -> & ->).
    destruct (attempt <? maxRetries - 1) eqn:E; [apply Z.ltb_lt in E; lia|].
    reflexivity.
  - remember (S n) as m. cbn [retryLoop]. rewrite invoke_outcome.
    destruct (not_final_throws _ (Hfail 0%nat ltac:(lia))) as (e & -> & ->).
    destruct (attempt <? maxRetries - 1) eqn:E; [|apply Z.ltb_ge in E; lia].
    subst m. rewrite IH.
    + cbn [setTimeout world trace]. rewrite backoff_S.
      f_equal. f_equal. rewrite <- !app_assoc. reflexivity.
    + lia.
    + intros i Hi. apply (Hfail (S i)). lia.
Qed.

End RetryFacts.

Section RetryPolicy.
Import JS Client.
Context {World T : Type}.

(** The status code a failure carries, whatever its class. *)
Definition statusOf (t : Thrown) : option Z :=
  match t with
  | ThrownApiClientError e => statusCode e
  | ThrownMercuryAPIError _ s _ => Some s
  | _ => None
  end.

(** A failure that carries a 4xx status, as the claim has it. *)
Definition carries4xx (t : Thrown) : Prop :=
  exists s, statusOf t = Some s /\ 400 <= s < 500.

(** An [ApiClientError] that carries a 4xx status: the failures the loop
    rethrows at once. *)
Definition clientFailure (t : Thrown) (e : ApiClientError) : Prop :=
  t = ThrownApiClientError e /\
  exists s, statusCode e = Some s /\ 400 <= s < 500.

(** The failures the loop retries: a network failure -- reported by
    [apiRequest] as an [ApiClientError] with status 0, or thrown by [fetch]
    itself as a plain [Error] --, an [ApiClientError] with a 5xx status, and
    whatever else is no [ApiClientError]: an [Error] of another class even
    when it carries a status code, and a thrown value that is no [Error]. *)
Definition retriedFailure (t : Thrown) : Prop :=
  match t with
  | ThrownApiClientError e =>
      match statusCode e with
      | Some s => s = 0 \/ 500 <= s
      | None => False
      end
  | ThrownError _ _ => True
  | ThrownValue _ => True
  | ThrownMercuryAPIError _ _ _ => True
  end.

(** The events of a run that makes attempts [0 .. k]: before attempt [i + 1]
    comes a wait of [baseDelay * 2^i]. *)
Definition attemptsUpTo (baseDelay : Z) (k : nat) : list Event :=
  flat_map (fun i => [Invoked; Waited (baseDelay * 2 ^ Z.of_nat i)]) (seq 0 k)
  ++ [Invoked].

Lemma retriedFailure_not_final (t : Thrown) :
  retriedFailure t -> final (@Throw T t) = false.
Proof.
  destruct t as [e|name msg|v|msg s c]; simpl; try reflexivity.
  destruct (statusCode e) as [s|]; [|contradiction].
  intros [->|Hs]; [reflexivity|].
  destruct (s <? 500) eqn:E; [apply Z.ltb_lt in E; lia|].
  apply andb_false_r.
Qed.

Lemma clientFailure_final (t : Thrown) (e : ApiClientError) :
  clientFailure t e -> final (@Throw T t) = true.
Proof.
  intros [-> (s & Hs & Hrange)]. simpl. rewrite Hs.
  destruct (s =? 0) eqn:E0; [apply Z.eqb_eq in E0; lia|].
  destruct (s <? 500) eqn:E5; [reflexivity | apply Z.ltb_ge in E5; lia].
Qed.

Lemma backoff_attemptsUpTo (baseDelay : Z) (k : nat) :
  backoff baseDelay 0 k ++ [Invoked] = attemptsUpTo baseDelay k.
Proof. reflexivity. Qed.

(** C2, as the code has it.  With the default cap of 3 attempts: an
    [ApiClientError] carrying a 4xx status is rethrown at once, with no
    further attempt; the failures that are retried -- network and 5xx
    failures, and every failure that is no [ApiClientError], whatever status
    it carries -- are followed by a wait of [baseDelay * 2^k] before attempt
    [k + 1]; after the third failed attempt the last error is thrown, or
    [Error('Unknown error')] in its place when what was thrown last is no
    [Error]. *)
Theorem retryRequest_backoff_policy
    (fn : World -> Completion T * World) (baseDelay : Z) (w : World) :
  let run := retryRequest fn defaultMaxRetries baseDelay w in
  (forall (k : nat) (t : Thrown) (e : ApiClientError),
     (k < 3)%nat ->
     (forall i, (i < k)%nat -> exists ti, outcome fn w i = Throw ti /\ retriedFailure ti) ->
     outcome fn w k = Throw t ->
     clientFailure t e ->
     fst run = Throw (ThrownApiClientError e) /\
     trace (snd run) = attemptsUpTo baseDelay k /\
     calls (snd run) = S k) /\
  ((forall i, (i < 3)%nat -> exists ti, outcome fn w i = Throw ti /\ retriedFailure ti) ->
   (exists last,
      outcome fn w 2 = Throw last /\
      fst run = Throw (if instanceofError last then last
                       else ThrownError "Error" "Unknown error")) /\
   trace (snd run)
   = [Invoked; Waited (baseDelay * 2 ^ 0); Invoked; Waited (baseDelay * 2 ^ 1); Invoked] /\
   calls (snd run) = 3%nat).
Proof.
  cbn zeta. unfold retryRequest, defaultMaxRetries.
  change (Z.to_nat 3) with 3%nat. split.
  - intros k t e Hk Hbefore Hout Hclient.
    rewrite (retryLoop_stops fn 3 baseDelay k 3 0 None (start w)).
    + cbn [fst snd trace world start app]. rewrite backoff_attemptsUpTo.
      split; [rewrite Hout; now destruct Hclient as [-> _]|].
      split; [reflexivity|].
      unfold calls. cbn [trace].
      destruct k as [|[|[|k]]]; [reflexivity..|lia].
    + exact Hk.
    + reflexivity.
    + intros i Hi. cbn [start world].
      destruct (Hbefore i Hi) as (ti & -> & Hti).
      apply (retriedFailure_not_final ti Hti).
    + cbn [start world]. rewrite Hout. apply (clientFailure_final t e Hclient).
  - intros Hall.
    rewrite (retryLoop_exhausts fn 3 baseDelay 2 0 None (start w)).
    + cbn [fst snd trace world start app].
      destruct (Hall 2%nat ltac:(lia)) as (t2 & Ht2 & Htr).
      split; [|split; reflexivity].
      exists t2. split; [exact Ht2|]. rewrite Ht2. reflexivity.
    + reflexivity.
    + intros i Hi. cbn [start world].
      destruct (Hall i ltac:(lia)) as (ti & -> & Hti).
      apply (retriedFailure_not_final ti Hti).
Qed.

End RetryPolicy.

(** Operations to run the loop on: the state counts the invocations. *)
Definition alwaysUnavailable (n : nat) : Client.Completion JS.JsValue * nat :=
  (Client.Throw (Client.ThrownApiClientError
     (Client.mkApiClientError (JS.JStr "Service unavailable") (Some 503)
        (JS.JStr "UNAVAILABLE") JS.JUndefined)), S n).

Definition unavailableThenForbidden (n : nat) : Client.Completion JS.JsValue * nat :=
  match n with
  | O => alwaysUnavailable n
  | _ => (Client.Throw (Client.ThrownApiClientError
            (Client.mkApiClientError (JS.JStr "Forbidden") (Some 403)
               (JS.JStr "FORBIDDEN") JS.JUndefined)), S n)
  end.

(** A Mercury call that is turned down each time: [MercuryAPIError] with
    status 401. *)
Definition alwaysUnauthorized (n : nat) : Client.Completion JS.JsValue * nat :=
  (Client.Throw (Client.ThrownMercuryAPIError "Unauthorized" 401 None), S n).

Lemma retryRequest_backoff_policy_witness :
  (let run := Client.retryRequest unavailableThenForbidden 3 1000 0%nat in
   fst run = Client.Throw (Client.ThrownApiClientError
               (Client.mkApiClientError (JS.JStr "Forbidden") (Some 403)
                  (JS.JStr "FORBIDDEN") JS.JUndefined)) /\
   Client.trace (snd run) = [Client.Invoked; Client.Waited 1000; Client.Invoked] /\
   Client.calls (snd run) = 2%nat) /\
  (let run := Client.retryRequest alwaysUnauthorized 3 1000 0%nat in
   (exists last,
      Client.outcome alwaysUnauthorized 0%nat 2 = Client.Throw last /\
      fst run = Client.Throw (if Client.instanceofError last then last
                              else Client.ThrownError "Error" "Unknown error")) /\
   Client.trace (snd run)
   = [Client.Invoked; Client.Waited 1000; Client.Invoked; Client.Waited 2000;
      Client.Invoked] /\
   Client.calls (snd run) = 3%nat).
Proof.
  split.
  - apply (proj1 (retryRequest_backoff_policy unavailableThenForbidden 1000 0%nat)
             1%nat
             (Client.ThrownApiClientError
                (Client.mkApiClientError (JS.JStr "Forbidden") (Some 403)
                   (JS.JStr "FORBIDDEN") JS.JUndefined))).
    + lia.
    + intros i Hi. assert (i = 0%nat) as -> by lia.
      eexists. split; [reflexivity|]. simpl. lia.
    + reflexivity.
    + split; [reflexivity|]. exists 403. split; [reflexivity | lia].
  - apply (proj2 (retryRequest_backoff_policy alwaysUnauthorized 1000 0%nat)).
    intros i Hi. eexists. split; [reflexivity|]. exact I.
Defined.

(** C2 as stated fails: a failure that carries a 4xx status but is no
    [ApiClientError] is not rethrown at once.  The loop reads the status of
    an [ApiClientError] only, so the [MercuryAPIError] with status 401 is
    met with all three attempts. *)
Lemma retryRequest_retries_foreign_4xx :
  ~ (forall (fn : nat -> Client.Completion JS.JsValue * nat) (w : nat)
            (t : Client.Thrown),
       Client.outcome fn w 0 = Client.Throw t ->
       carries4xx t ->
       fst (Client.retryRequest fn 3 1000 w) = Client.Throw t /\
       Client.calls (snd (Client.retryRequest fn 3 1000 w)) = 1%nat).
Proof.
  intros H.
  destruct (H alwaysUnauthorized 0%nat
              (Client.ThrownMercuryAPIError "Unauthorized" 401 None) eq_refl)
    as [_ Hcalls].
  - exists 401. split; [reflexivity | lia].
  - vm_compute in Hcalls. discriminate.
Qed.

(** ** validation/index.ts *)

Section NumberFacts.
Import JS Validation.

(** The number [n] is the integer [z]. *)
Definition isInt (n : JsNumber) (z : Z) : Prop :=
  match n with
  | Finite q => q == inject_Z z
  | _ => False
  end.

Lemma isInteger_iff (n : JsNumber) : isInteger n = true <-> exists z, isInt n z.
Proof.
  destruct n as [| | |[a b]]; simpl; try (split; [discriminate | now intros [z Hz]]).
  unfold Qeq. simpl. rewrite Z.eqb_eq. split.
  - intros H. exists (a / Zpos b).
    apply Z.mod_divide in H; [|discriminate]. destruct H as [c ->].
    rewrite Z.div_mul by discriminate. lia.
  - intros [z Hz]. rewrite Z.mul_1_r in Hz. subst a. apply Z.mod_mul. discriminate.
Qed.

Lemma numLt_int_l (n : JsNumber) (z bound : Z) :
  isInt n z -> numLt n (num bound) = (z <? bound).
Proof.
  destruct n as [| | |q]; simpl; try contradiction. intros Hq.
  destruct (Qle_bool (inject_Z bound) q) eqn:E.
  - apply Qle_bool_iff in E. rewrite Hq in E. rewrite <- Zle_Qle in E.
    symmetry. apply Z.ltb_ge. exact E.
  - symmetry. apply Z.ltb_lt. apply Z.nle_gt. intros Hle.
    rewrite Zle_Qle in Hle. rewrite <- Hq in Hle. apply Qle_bool_iff in Hle. congruence.
Qed.

Lemma numLt_int_r (n : JsNumber) (z bound : Z) :
  isInt n z -> numLt (num bound) n = (bound <? z).
Proof.
  destruct n as [| | |q]; simpl; try contradiction. intros Hq.
  destruct (Qle_bool q (inject_Z bound)) eqn:E.
  - apply Qle_bool_iff in E. rewrite Hq in E. rewrite <- Zle_Qle in E.
    symmetry. apply Z.ltb_ge. exact E.
  - symmetry. apply Z.ltb_lt. apply Z.nle_gt. intros Hle.
    rewrite Zle_Qle in Hle. rewrite <- Hq in Hle. apply Qle_bool_iff in Hle. congruence.
Qed.

(** C5.  [CentsSchema] accepts a value iff it is a number that is a finite
    integer (zero and negative integers included), and hands an accepted
    value back unchanged; fractional numbers, NaN and the infinities are
    rejected, as is anything that is not a number. *)
Theorem CentsSchema_accepts_finite_integers (p : list PathSegment) (v : JsValue) :
  ((exists out, CentsSchema p v = Valid out) <-> (exists n z, v = JNum n /\ isInt n z)) /\
  (forall out, CentsSchema p v = Valid out -> out = v) /\
  (forall q, ~ (exists z, q == inject_Z z) ->
     exists issues, CentsSchema p (JNum (Finite q)) = Invalid issues) /\
  (exists issues, CentsSchema p (JNum NaN) = Invalid issues) /\
  (exists issues, CentsSchema p (JNum PosInfinity) = Invalid issues) /\
  (exists issues, CentsSchema p (JNum NegInfinity) = Invalid issues).
Proof.
  assert (Hfin : forall q,
    CentsSchema p (JNum (Finite q))
    = if isInteger (Finite q) then Valid (JNum (Finite q))
      else Invalid [mkIssue "invalid_type" p "Expected integer, received float"]).
  { intros q. unfold CentsSchema, number, finite, int, z_number.
    cbn [app flat_map runNumberCheck isFinite].
    destruct (isInteger (Finite q)); reflexivity. }
  split; [split|split; [|split; [|repeat split]]].
  - intros [out H]. destruct v as [| | |[| | |q]| | |]; try discriminate.
    rewrite Hfin in H. destruct (isInteger (Finite q)) eqn:E; [|discriminate].
    apply isInteger_iff in E as [z Hz]. now exists (Finite q), z.
  - intros (n & z & -> & Hz). destruct n as [| | |q]; try contradiction.
    exists (JNum (Finite q)). rewrite Hfin.
    now rewrite (proj2 (isInteger_iff (Finite q)) (ex_intro _ z Hz)).
  - intros out H. destruct v as [| | |[| | |q]| | |]; try discriminate.
    rewrite Hfin in H. destruct (isInteger (Finite q)); [|discriminate].
    now injection H as <-.
  - intros q Hq. rewrite Hfin. destruct (isInteger (Finite q)) eqn:E; [|eauto].
    apply isInteger_iff in E. contradiction.
  - eexists. reflexivity.
  - eexists. reflexivity.
  - eexists. reflexivity.
Qed.

Lemma CentsSchema_accepts_finite_integers_witness :
  (exists out, CentsSchema [] (JNum (Finite (-500))) = Valid out) /\
  (exists issues, CentsSchema [] (JNum (Finite (12345 # 100))) = Invalid issues).
Proof.
  destruct (CentsSchema_accepts_finite_integers [] (JNum (Finite (-500))))
    as ([_ Haccept] & _ & Hreject & _).
  split.
  - apply Haccept. exists (Finite (-500)), (-500). split; reflexivity.
  - apply Hreject. intros [z Hz]. unfold Qeq in Hz. simpl in Hz. lia.
Defined.

End NumberFacts.

Section ObjectFacts.
Import JS Validation.

#[local] Instance PathSegment_eq_dec : EqDecision PathSegment.
Proof. solve_decision. Defined.

(** The issues a result holds for one place of the input. *)
Definition issuesAt (place : list PathSegment) (r : ParseResult) : list ZodIssue :=
  List.filter (fun i => bool_decide (path i = place)) (issuesOf r).

(** A schema that reports its issues at the very path it is run at. *)
Definition pathLocal (s : ZodType) : Prop :=
  forall p v i, In i (issuesOf (s p v)) -> path i = p.

Lemma issuesOf_checked (l : list ZodIssue) (v : JsValue) :
  issuesOf (match l with [] => Valid v | i :: rest => Invalid (i :: rest) end) = l.
Proof. destruct l; reflexivity. Qed.

Lemma pathLocal_number (checks : ZodNumber) : pathLocal (number checks).
Proof.
  intros p v i. unfold number.
  assert (Hflat : forall n, In i (flat_map (runNumberCheck p n) checks) -> path i = p).
  { intros n Hin. apply in_flat_map in Hin as (c & _ & Hin).
    destruct c; simpl in Hin;
      repeat match type of Hin with
             | In _ (if ?b then _ else _) => destruct b
             end; simpl in Hin; intuition (subst; reflexivity). }
  destruct v as [| | |n| | |]; try (simpl; intros [<-|[]]; reflexivity).
  destruct n; try (simpl; intros [<-|[]]; reflexivity);
    lazy beta iota; rewrite issuesOf_checked; apply Hflat.
Qed.

Lemma pathLocal_str (checks : ZodString) : pathLocal (str checks).
Proof.
  intros p v i. unfold str.
  destruct v as [| | | |x| |]; try (simpl; intros [<-|[]]; reflexivity).
  lazy beta iota. rewrite issuesOf_checked. intros Hin.
  apply in_flat_map in Hin as (c & _ & Hin).
  destruct c; simpl in Hin;
    repeat match type of Hin with
           | In _ (if ?b then _ else _) => destruct b
           end; simpl in Hin; intuition (subst; reflexivity).
Qed.

Lemma pathLocal_optional (s : ZodType) : pathLocal s -> pathLocal (optional s).
Proof. intros Hs p v i. unfold optional. destruct v; try apply Hs. simpl. tauto. Qed.

Lemma pathLocal_default (d : JsValue) (s : ZodType) : pathLocal s -> pathLocal (default d s).
Proof. intros Hs p v i. unfold default. destruct v; apply Hs. Qed.

Lemma issuesOf_object (shape : list (string * ZodType)) (p : list PathSegment)
    (entries : list (string * JsValue)) :
  issuesOf (object shape p (JObj entries))
  = flat_map (fun kv => issuesOf (parseField p entries kv)) shape.
Proof.
  unfold object.
  rewrite flat_map_concat_map, map_map, <- flat_map_concat_map. cbn [snd].
  apply issuesOf_checked.
Qed.

Lemma filter_nothing {A : Type} (f : A -> bool) (l : list A) :
  (forall x, In x l -> f x = false) -> List.filter f l = [].
Proof.
  induction l as [|a l IH]; intros H; [reflexivity|]. simpl.
  rewrite (H a (or_introl eq_refl)). apply IH. intros x Hx. apply H. now right.
Qed.

Lemma filter_everything {A : Type} (f : A -> bool) (l : list A) :
  (forall x, In x l -> f x = true) -> List.filter f l = l.
Proof.
  induction l as [|a l IH]; intros H; [reflexivity|]. simpl.
  rewrite (H a (or_introl eq_refl)). f_equal. apply IH. intros x Hx. apply H. now right.
Qed.

(** In an object schema whose fields report at their own path, the issues at
    a field's place are exactly those of the field's schema run on the
    field's value. *)
Lemma issuesAt_object (shape : list (string * ZodType)) (p : list PathSegment)
    (entries : list (string * JsValue)) (key : string) (s : ZodType) :
  List.Forall (fun kv => pathLocal (snd kv)) shape ->
  List.NoDup (map fst shape) ->
  In (key, s) shape ->
  issuesAt (p ++ [Key key]) (object shape p (JObj entries))
  = issuesOf (s (p ++ [Key key]) (prop entries key)).
Proof.
  unfold issuesAt. rewrite issuesOf_object.
  induction shape as [|[k' s'] shape IH]; intros Hlocal Hnodup Hin; [destruct Hin|].
  inversion Hlocal as [|? ? Hs' Hrest]; subst. cbn [snd] in Hs'.
  inversion Hnodup as [|? ? Hfresh Hnodup']; subst.
  cbn [flat_map]. rewrite List.filter_app. unfold parseField at 1. cbn [fst snd].
  destruct Hin as [Heq|Hin].
  - injection Heq as -> ->.
    rewrite filter_everything.
    2:{ intros i Hi. apply Hs' in Hi. now apply bool_decide_eq_true. }
    rewrite filter_nothing; [apply app_nil_r|].
    intros i Hi. apply in_flat_map in Hi as ([k'' s''] & Hin'' & Hi).
    apply bool_decide_eq_false. intros Hpath.
    rewrite List.Forall_forall in Hrest. apply (Hrest _ Hin'') in Hi. cbn [fst snd] in Hi.
    rewrite Hi in Hpath. apply List.app_inv_head in Hpath. injection Hpath as ->.
    apply Hfresh. apply List.in_map_iff. now exists (key, s'').
  - rewrite filter_nothing.
    2:{ intros i Hi. apply Hs' in Hi. apply bool_decide_eq_false. intros Hpath.
        rewrite Hi in Hpath. apply List.app_inv_head in Hpath. injection Hpath as ->.
        apply Hfresh. apply List.in_map_iff. now exists (key, s). }
    now apply IH.
Qed.

End ObjectFacts.

Section PaginationFacts.
Import JS Validation.

Lemma object_valid_output (shape : list (string * ZodType)) (p : list PathSegment)
    (entries : list (string * JsValue)) (out : JsValue) :
  object shape p (JObj entries) = Valid out ->
  out = JObj (flat_map (fun kv => outputEntry entries kv (parseField p entries kv)) shape).
Proof.
  unfold object.
  destruct (flat_map _ (map _ shape)); [|discriminate].
  intros H. injection H as <-. f_equal.
  rewrite flat_map_concat_map, map_map, <- flat_map_concat_map. reflexivity.
Qed.

Lemma lookupEntry_outputEntry_other (entries : list (string * JsValue))
    (key : string) (kv : string * ZodType) (r : ParseResult)
    (rest : list (string * JsValue)) :
  fst kv <> key ->
  lookupEntry key (outputEntry entries kv r ++ rest) = lookupEntry key rest.
Proof.
  intros Hne.
  assert (E : String.eqb key (fst kv) = false) by (apply String.eqb_neq; congruence).
  unfold outputEntry.
  destruct r as [v|]; [|reflexivity].
  destruct v; try (simpl; now rewrite E).
  destruct (hasKey entries (fst kv)); [simpl; now rewrite E | reflexivity].
Qed.

(** The parsed object holds, under each key of the shape, the output of that
    key's schema. *)
Lemma lookupEntry_output (shape : list (string * ZodType)) (p : list PathSegment)
    (entries : list (string * JsValue)) (key : string) (s : ZodType) (x : JsValue) :
  List.NoDup (map fst shape) ->
  In (key, s) shape ->
  parseField p entries (key, s) = Valid x ->
  x <> JUndefined ->
  lookupEntry key
    (flat_map (fun kv => outputEntry entries kv (parseField p entries kv)) shape)
  = Some x.
Proof.
  intros Hnodup Hin Hvalid Hdef.
  induction shape as [|[k' s'] shape IH]; [destruct Hin|].
  inversion Hnodup as [|? ? Hfresh Hnodup']; subst. cbn [flat_map].
  destruct Hin as [Heq|Hin].
  - injection Heq as -> ->. rewrite Hvalid. unfold outputEntry. cbn [fst].
    destruct x; try congruence; simpl; now rewrite String.eqb_refl.
  - rewrite lookupEntry_outputEntry_other; [now apply IH|].
    cbn [fst]. intros ->. apply Hfresh. apply List.in_map_iff. now exists (key, s).
Qed.

Lemma number_valid_output (checks : ZodNumber) (p : list PathSegment) (v : JsValue) :
  issuesOf (number checks p v) = [] -> number checks p v = Valid v.
Proof.
  unfold number. destruct v as [| | |n| | |]; try discriminate.
  destruct n; try discriminate;
    destruct (flat_map _ checks); (reflexivity || discriminate).
Qed.

Lemma isInt_unique (n : JsNumber) (z z' : Z) : isInt n z -> isInt n z' -> z = z'.
Proof.
  destruct n as [| | |q]; simpl; try contradiction.
  intros H H'. rewrite H in H'. unfold Qeq in H'. simpl in H'. lia.
Qed.

(** An integer schema with bounds accepts exactly the bounded integers. *)
Lemma number_int_min_max (p : list PathSegment) (n : JsNumber) (lo hi : Z) :
  issuesOf (number (max hi (min lo (int z_number))) p (JNum n)) = [] <->
  exists z, isInt n z /\ lo <= z <= hi.
Proof.
  unfold max, min, int, z_number. cbn [app].
  destruct n as [| | |q] eqn:En;
    try (split; [discriminate | now intros (z & [] & _)]).
  rewrite <- En. replace (number _ p (JNum n))
    with (match flat_map (runNumberCheck p n) [CheckInt; CheckMin lo; CheckMax hi] with
          | [] => Valid (JNum n)
          | i :: rest => Invalid (i :: rest)
          end) by (subst n; reflexivity).
  rewrite issuesOf_checked. cbn [flat_map runNumberCheck]. rewrite app_nil_r.
  destruct (isInteger n) eqn:Eint.
  - destruct (proj1 (isInteger_iff n) Eint) as [z Hz].
    rewrite (numLt_int_l n z lo Hz), (numLt_int_r n z hi Hz). cbn [app].
    destruct (z <? lo) eqn:Elo; destruct (hi <? z) eqn:Ehi;
      try apply Z.ltb_lt in Elo; try apply Z.ltb_ge in Elo;
      try apply Z.ltb_lt in Ehi; try apply Z.ltb_ge in Ehi.
    all: split; [first [discriminate | intros _; exists z; split; [exact Hz | lia]]|].
    all: intros (z' & Hz' & Hrange); rewrite (isInt_unique n z z' Hz Hz') in *;
      try reflexivity; lia.
  - split; [discriminate|]. intros (z & Hz & _).
    rewrite (proj2 (isInteger_iff n) (ex_intro _ z Hz)) in Eint. discriminate.
Qed.

Lemma number_int_min (p : list PathSegment) (n : JsNumber) (lo : Z) :
  issuesOf (number (min lo (int z_number)) p (JNum n)) = [] <->
  exists z, isInt n z /\ lo <= z.
Proof.
  unfold min, int, z_number. cbn [app].
  destruct n as [| | |q] eqn:En;
    try (split; [discriminate | now intros (z & [] & _)]).
  rewrite <- En. replace (number _ p (JNum n))
    with (match flat_map (runNumberCheck p n) [CheckInt; CheckMin lo] with
          | [] => Valid (JNum n)
          | i :: rest => Invalid (i :: rest)
          end) by (subst n; reflexivity).
  rewrite issuesOf_checked. cbn [flat_map runNumberCheck]. rewrite app_nil_r.
  destruct (isInteger n) eqn:Eint.
  - destruct (proj1 (isInteger_iff n) Eint) as [z Hz].
    rewrite (numLt_int_l n z lo Hz). cbn [app].
    destruct (z <? lo) eqn:Elo;
      try apply Z.ltb_lt in Elo; try apply Z.ltb_ge in Elo.
    all: split; [first [discriminate | intros _; exists z; split; [exact Hz | lia]]|].
    all: intros (z' & Hz' & Hrange); rewrite (isInt_unique n z z' Hz Hz') in *;
      try reflexivity; lia.
  - split; [discriminate|]. intros (z & Hz & _).
    rewrite (proj2 (isInteger_iff n) (ex_intro _ z Hz)) in Eint. discriminate.
Qed.

End PaginationFacts.

Section TransactionQueryFacts.
Import JS Validation.

Lemma TransactionQueryShape_local :
  List.Forall (fun kv => pathLocal (snd kv)) TransactionQueryShape.
Proof.
  unfold TransactionQueryShape, EntityIdSchema, CentsSchema, DateSchema.
  repeat constructor; cbn [snd];
    repeat (apply pathLocal_default || apply pathLocal_optional);
    (apply pathLocal_number || apply pathLocal_str).
Qed.

Lemma TransactionQueryShape_keys : List.NoDup (map fst TransactionQueryShape).
Proof.
  simpl. repeat constructor; simpl; intuition discriminate.
Qed.

(** The value a defaulted field is parsed from. *)
Definition orDefault (d : JsNumber) (v : JsValue) : JsValue :=
  match v with
  | JUndefined => JNum d
  | _ => v
  end.

Lemma default_optional (d : JsNumber) (s : ZodType) (p : list PathSegment) (v : JsValue) :
  default (JNum d) (optional s) p v = s p (orDefault d v).
Proof. destruct v; reflexivity. Qed.

Lemma number_rejects_others (checks : ZodNumber) (p : list PathSegment) (v : JsValue) :
  (forall n, v <> JNum n) -> issuesOf (number checks p v) <> [].
Proof. destruct v; try discriminate. intros H. now destruct (H n). Qed.

(** A defaulted numeric field raises no issue iff it is absent or holds a
    number its checks accept. *)
Lemma defaulted_field_issues (checks : ZodNumber) (d : JsNumber)
    (p : list PathSegment) (v : JsValue) (accepted : JsNumber -> Prop) :
  (forall n, issuesOf (number checks p (JNum n)) = [] <-> accepted n) ->
  accepted d ->
  issuesOf (default (JNum d) (optional (number checks)) p v) = [] <->
  v = JUndefined \/ exists n, v = JNum n /\ accepted n.
Proof.
  intros Hspec Hd. rewrite default_optional.
  destruct v as [| | |n| | |]; cbn [orDefault].
  2-3,5-7: split; [intros H; now apply number_rejects_others in H
                  | intros [H|(n & H & _)]; discriminate].
  - split; [now left | intros _; now apply Hspec].
  - rewrite Hspec. split; [intros H; right; now exists n|].
    intros [H|(n' & H & Hn')]; [discriminate|]. now injection H as ->.
Qed.

Lemma defaulted_field_output (checks : ZodNumber) (d : JsNumber)
    (p : list PathSegment) (v : JsValue) :
  issuesOf (default (JNum d) (optional (number checks)) p v) = [] ->
  default (JNum d) (optional (number checks)) p v = Valid (orDefault d v) /\
  orDefault d v <> JUndefined.
Proof.
  rewrite default_optional. intros H. split; [now apply number_valid_output|].
  destruct v; discriminate.
Qed.

(** C4.  Parsing an object with [TransactionQuerySchema] raises no issue for
    [limit] iff the limit is absent or an integer between 1 and 1000, and no
    issue for [offset] iff the offset is absent or a non-negative integer;
    when the object parses, the result holds the supplied limit and offset,
    or the defaults 100 and 0 where they were absent. *)
Theorem TransactionQuerySchema_pagination (entries : list (string * JsValue)) :
  let r := TransactionQuerySchema [] (JObj entries) in
  (issuesAt [Key "limit"] r = [] <->
   prop entries "limit" = JUndefined \/
   exists n z, prop entries "limit" = JNum n /\ isInt n z /\ 1 <= z <= 1000) /\
  (issuesAt [Key "offset"] r = [] <->
   prop entries "offset" = JUndefined \/
   exists n z, prop entries "offset" = JNum n /\ isInt n z /\ 0 <= z) /\
  (forall out, r = Valid out ->
   exists outEntries,
     out = JObj outEntries /\
     prop outEntries "limit" = orDefault (num 100) (prop entries "limit") /\
     prop outEntries "offset" = orDefault (num 0) (prop entries "offset")).
Proof.
  cbn zeta. unfold TransactionQuerySchema.
  pose proof TransactionQueryShape_local as Hlocal.
  pose proof TransactionQueryShape_keys as Hkeys.
  assert (Hlimit : In ("limit",
                       default (JNum (num 100))
                         (optional (number (max 1000 (min 1 (int z_number))))))
                      TransactionQueryShape) by (simpl; tauto).
  assert (Hoffset : In ("offset",
                        default (JNum (num 0))
                          (optional (number (min 0 (int z_number)))))
                       TransactionQueryShape) by (simpl; tauto).
  pose proof (issuesAt_object _ [] entries _ _ Hlocal Hkeys Hlimit) as Elimit.
  pose proof (issuesAt_object _ [] entries _ _ Hlocal Hkeys Hoffset) as Eoffset.
  cbn [app] in Elimit, Eoffset.
  assert (Slimit := defaulted_field_issues (max 1000 (min 1 (int z_number))) (num 100)
                      [Key "limit"] (prop entries "limit")
                      (fun n => exists z, isInt n z /\ 1 <= z <= 1000)
                      (fun n => number_int_min_max _ n 1 1000)).
  assert (Soffset := defaulted_field_issues (min 0 (int z_number)) (num 0)
                       [Key "offset"] (prop entries "offset")
                       (fun n => exists z, isInt n z /\ 0 <= z)
                       (fun n => number_int_min _ n 0)).
  split; [|split].
  - rewrite Elimit, Slimit.
    + split.
      * intros [H|(n & H & z & Hz)]; [now left | right; exists n, z; tauto].
      * intros [H|(n & z & H & Hz)];
          [now left | right; exists n; split; [exact H | exists z; exact Hz]].
    + exists 100. split; [reflexivity | lia].
  - rewrite Eoffset, Soffset.
    + split.
      * intros [H|(n & H & z & Hz)]; [now left | right; exists n, z; tauto].
      * intros [H|(n & z & H & Hz)];
          [now left | right; exists n; split; [exact H | exists z; exact Hz]].
    + exists 0. split; [reflexivity | lia].
  - intros out Hvalid.
    apply object_valid_output in Hvalid as Hout. eexists. split; [exact Hout|].
    assert (Hnone : forall place,
              issuesAt place (object TransactionQueryShape [] (JObj entries)) = [])
      by (intros place; unfold issuesAt; now rewrite Hvalid).
    rewrite Hnone in Elimit, Eoffset.
    destruct (defaulted_field_output _ _ _ _ (eq_sym Elimit)) as [Vlimit Dlimit].
    destruct (defaulted_field_output _ _ _ _ (eq_sym Eoffset)) as [Voffset Doffset].
    unfold prop at 1 3.
    rewrite (lookupEntry_output _ [] entries _ _ _ Hkeys Hlimit Vlimit Dlimit).
    rewrite (lookupEntry_output _ [] entries _ _ _ Hkeys Hoffset Voffset Doffset).
    split; reflexivity.
Qed.

Definition pageQuery : list (string * JsValue) :=
  [ ("entityId", JStr "cortex"); ("limit", JNum (num 50)) ].

Lemma TransactionQuerySchema_pagination_witness :
  issuesAt [Key "limit"] (TransactionQuerySchema [] (JObj pageQuery)) = [] /\
  issuesAt [Key "offset"] (TransactionQuerySchema [] (JObj pageQuery)) = [] /\
  exists outEntries,
    TransactionQuerySchema [] (JObj pageQuery) = Valid (JObj outEntries) /\
    prop outEntries "limit" = JNum (num 50) /\
    prop outEntries "offset" = JNum (num 0).
Proof.
  destruct (TransactionQuerySchema_pagination pageQuery) as (Hlimit & Hoffset & Hout).
  split; [|split].
  - apply Hlimit. right. exists (num 50), 50.
    split; [reflexivity|]. split; [reflexivity | lia].
  - apply Hoffset. left. reflexivity.
  - destruct (Hout _ eq_refl) as (outEntries & Heq & Hl & Ho).
    exists outEntries. rewrite <- Heq. split; [reflexivity|]. split; assumption.
Defined.

Example TransactionQuerySchema_rejects_limit_0 :
  issuesAt [Key "limit"] (TransactionQuerySchema [] (JObj [ ("limit", JNum (num 0)) ]))
  = [ mkIssue "too_small" [Key "limit"] "Number must be greater than or equal to 1" ].
Proof. reflexivity. Qed.

Example TransactionQuerySchema_rejects_limit_2000 :
  TransactionQuerySchema [] (JObj [ ("limit", JNum (num 2000)) ])
  = Invalid [ mkIssue "too_big" [Key "limit"] "Number must be less than or equal to 1000" ].
Proof. reflexivity. Qed.

End TransactionQueryFacts.

Section FormatFacts.
Import JS Validation.


Lemma lookup_setField (key : string) (fs : gmap string string) (i : ZodIssue) :
  key <> "__proto__" ->
  setField fs i !! key
  = if decide (joinPath (path i) = key) then Some (message i) else fs !! key.
Proof.
  intros Hkey. unfold setField. cbv zeta.
  destruct (String.eqb (joinPath (path i)) "__proto__") eqn:Ep.
  - apply String.eqb_eq in Ep.
    destruct (decide (joinPath (path i) = key)) as [E|E]; [congruence | reflexivity].
  - rewrite lookup_insert.
    destruct (decide (joinPath (path i) = key)); reflexivity.
Qed.

Lemma lookup_setField_proto (fs : gmap string string) (i : ZodIssue) :
  setField fs i !! "__proto__" = fs !! "__proto__".
Proof.
  unfold setField. cbv zeta.
  destruct (String.eqb (joinPath (path i)) "__proto__") eqn:Ep; [reflexivity|].
  apply String.eqb_neq in Ep. rewrite lookup_insert.
  destruct (decide (joinPath (path i) = "__proto__")); [contradiction | reflexivity].
Qed.

Lemma lookup_foldl_setField (key : string) (issues : list ZodIssue) :
  key <> "__proto__" ->
  forall fs : gmap string string,
    foldl setField fs issues !! key
    = foldl (fun acc i => if decide (joinPath (path i) = key) then Some (message i) else acc)
            (fs !! key) issues.
Proof.
  intros Hkey. induction issues as [|i issues IH]; intros fs; [reflexivity|].
  cbn [foldl]. rewrite IH. f_equal. now apply lookup_setField.
Qed.

Lemma lookup_foldl_setField_proto (issues : list ZodIssue) :
  forall fs : gmap string string,
    foldl setField fs issues !! "__proto__" = fs !! "__proto__".
Proof.
  induction issues as [|i issues IH]; intros fs; [reflexivity|].
  cbn [foldl]. rewrite IH. apply lookup_setField_proto.
Qed.

Lemma is_Some_foldl_last (key : string) (issues : list ZodIssue) :
  forall acc : option string,
    is_Some (foldl (fun acc i => if decide (joinPath (path i) = key)
                                 then Some (message i) else acc) acc issues)
    <-> is_Some acc \/ exists i, In i issues /\ joinPath (path i) = key.
Proof.
  induction issues as [|i issues IH]; intros acc; cbn [foldl].
  - split; [now left | intros [H|(i & [] & _)]; exact H].
  - rewrite IH. destruct (decide (joinPath (path i) = key)) as [E|E].
    + split; [intros _; right; exists i; split; [now left | exact E]|].
      intros _. left. now exists (message i).
    + split.
      * intros [H|(j & Hj & Ej)]; [now left | right; exists j; split; [now right | exact Ej]].
      * intros [H|(j & [->|Hj] & Ej)]; [now left | contradiction | right; now exists j].
Qed.


Definition badQuery : JsValue :=
  JObj [ ("entityId", JStr ""); ("limit", JNum (num (-1))) ].

Definition badQueryError : ZodError :=
  mkZodError (issuesOf (TransactionQuerySchema [] badQuery)).




Example formatValidationError_two_issues_one_entry :
  List.length (errors badQueryError) = 3%nat /\
  size (fields (formatValidationError badQueryError)) = 2%nat.
Proof. split; vm_compute; reflexivity. Qed.

End FormatFacts.

(** ** utils/currency.ts *)

Section PercentageFacts.
Import Currency.
Local Open Scope float_scope.

Lemma Prim2SF_zero : Prim2SF 0 = S754_zero false.
Proof. reflexivity. Qed.

(** [|x|] is zero exactly when [x] is. *)
Lemma abs_eqb_zero (x : float) : (abs x =? 0) = (x =? 0).
Proof.
  rewrite !FloatAxioms.eqb_spec, FloatAxioms.abs_spec, Prim2SF_zero.
  destruct (Prim2SF x) as [s|s| |s m e]; try reflexivity; destruct s; reflexivity.
Qed.

Lemma ltb_zero_asym (x : float) : (x <? 0) = true -> (0 <? x) = false.
Proof.
  rewrite !FloatAxioms.ltb_spec, Prim2SF_zero.
  destruct (Prim2SF x) as [s|s| |s m e]; try discriminate; destruct s;
    (discriminate || reflexivity).
Qed.

(** C10.  [calculatePercentageChange] returns
    [(current - previous) / |previous|] whenever [previous] is not zero, and
    the divisor is then not zero either; when [previous] is zero it returns 1
    if [current > 0] and 0 otherwise -- so 0 for a drop from zero to a negative
    amount -- without dividing. *)
Theorem calculatePercentageChange_guards_zero (current previous : float) :
  ((previous =? 0) = false ->
   calculatePercentageChange current previous = (current - previous) / abs previous /\
   (abs previous =? 0) = false) /\
  ((previous =? 0) = true ->
   calculatePercentageChange current previous = (if 0 <? current then 1 else 0) /\
   ((current <? 0) = true -> calculatePercentageChange current previous = 0)).
Proof.
  unfold calculatePercentageChange. split; intros Hprev; rewrite Hprev.
  - split; [reflexivity|]. now rewrite abs_eqb_zero.
  - split; [reflexivity|]. intros Hneg. now rewrite (ltb_zero_asym current Hneg).
Qed.

Lemma calculatePercentageChange_guards_zero_witness :
  calculatePercentageChange 120000 100000 = (120000 - 100000) / abs 100000 /\
  calculatePercentageChange 100000 0 = 1 /\
  calculatePercentageChange (-50000) 0 = 0.
Proof.
  split; [|split].
  - apply (proj1 (calculatePercentageChange_guards_zero 120000 100000)). reflexivity.
  - apply (proj2 (calculatePercentageChange_guards_zero 100000 0)). reflexivity.
  - apply (proj2 (calculatePercentageChange_guards_zero (-50000) 0)); reflexivity.
Defined.

End PercentageFacts.

(** *** IEEE 754 rounding, as the kernel specifies it

    The lemmas below read the specification of binary64 ([SpecFloat])
    far enough to bound the error of one rounding. *)

Section SpecFloatFacts.

Lemma digits2_pos_size (p : positive) : digits2_pos p = Pos.size p.
Proof. induction p; simpl; congruence. Qed.

(** A positive number lies between the two powers of two its digit count names. *)
Lemma Zdigits2_bounds (m : Z) :
  0 < m -> 2 ^ (Zdigits2 m - 1) <= m < 2 ^ Zdigits2 m.
Proof.
  destruct m as [|p|p]; try lia. intros _. unfold Zdigits2.
  rewrite digits2_pos_size. split.
  - pose proof (Pos.size_le p) as H.
    apply Pos2Z.pos_le_pos in H. rewrite Pos2Z.inj_pow in H.
    assert (E : 2 ^ Zpos (Pos.size p) = 2 * 2 ^ (Zpos (Pos.size p) - 1)).
    { rewrite <- Z.pow_succ_r by lia. f_equal. lia. }
    lia.
  - pose proof (Pos.size_gt p) as H.
    apply Pos2Z.pos_lt_pos in H. rewrite Pos2Z.inj_pow in H. exact H.
Qed.

Lemma Zdigits2_unique (m d : Z) :
  2 ^ (d - 1) <= m < 2 ^ d -> 0 < d -> Zdigits2 m = d.
Proof.
  intros Hm Hd.
  assert (Hpos : 0 < m) by (pose proof (Z.pow_pos_nonneg 2 (d - 1)); lia).
  pose proof (Zdigits2_bounds m Hpos) as Hb.
  assert (Hdig : 0 < Zdigits2 m) by (destruct m; simpl; lia).
  destruct (Z.lt_trichotomy (Zdigits2 m) d) as [H|[H|H]]; [|exact H|].
  - assert (2 ^ Zdigits2 m <= 2 ^ (d - 1)) by (apply Z.pow_le_mono_r; lia). lia.
  - assert (2 ^ d <= 2 ^ (Zdigits2 m - 1)) by (apply Z.pow_le_mono_r; lia). lia.
Qed.

Lemma shr_m_shr_1 (mrs : shr_record) :
  0 <= shr_m mrs -> shr_m (shr_1 mrs) = shr_m mrs / 2.
Proof.
  destruct mrs as [m r s]. simpl. intros Hm.
  destruct m as [|[p|p|]|p]; try lia; simpl.
  - reflexivity.
  - apply Z.div_unique with (r := 1); lia.
  - apply Z.div_unique with (r := 0); lia.
  - reflexivity.
Qed.

Lemma shr_m_iter (p : positive) : forall mrs : shr_record,
  0 <= shr_m mrs ->
  shr_m (SpecFloat.iter_pos shr_1 p mrs) = shr_m mrs / 2 ^ Zpos p.
Proof.
  induction p as [p IH|p IH|]; intros mrs Hm; simpl SpecFloat.iter_pos.
  - assert (Hp : 0 < 2 ^ Zpos p) by (apply Z.pow_pos_nonneg; lia).
    assert (H1 : 0 <= shr_m (shr_1 mrs))
      by (rewrite shr_m_shr_1 by exact Hm; apply Z.div_pos; lia).
    assert (H2 : 0 <= shr_m (SpecFloat.iter_pos shr_1 p (shr_1 mrs)))
      by (rewrite IH by exact H1; apply Z.div_pos; lia).
    rewrite IH by exact H2. rewrite IH by exact H1. rewrite shr_m_shr_1 by exact Hm.
    rewrite !Z.div_div by lia. f_equal.
    replace (Zpos p~1) with (1 + Zpos p + Zpos p) by lia.
    rewrite !Z.pow_add_r by lia. change (2 ^ 1) with 2. ring.
  - assert (Hp : 0 < 2 ^ Zpos p) by (apply Z.pow_pos_nonneg; lia).
    assert (H1 : 0 <= shr_m (SpecFloat.iter_pos shr_1 p mrs))
      by (rewrite IH by exact Hm; apply Z.div_pos; lia).
    rewrite IH by exact H1. rewrite IH by exact Hm.
    rewrite Z.div_div by lia. f_equal.
    replace (Zpos p~0) with (Zpos p + Zpos p) by lia.
    rewrite !Z.pow_add_r by lia. ring.
  - rewrite shr_m_shr_1 by exact Hm. reflexivity.
Qed.

Lemma shr_m_record_of_loc (m : Z) (l : location) : shr_m (shr_record_of_loc m l) = m.
Proof. destruct l as [|[]]; reflexivity. Qed.

(** Shifting by [fexp]: the mantissa is divided by [2 ^ n] and the exponent
    raised by [n], whatever the location. *)
Lemma shr_spec (mrs : shr_record) (e n : Z) :
  0 <= shr_m mrs -> 0 <= n ->
  shr_m (fst (shr mrs e n)) = shr_m mrs / 2 ^ n /\ snd (shr mrs e n) = e + n.
Proof.
  intros Hm Hn. destruct n as [|p|p]; try lia; simpl.
  - rewrite Z.div_1_r. split; [reflexivity | lia].
  - split; [apply shr_m_iter; exact Hm | reflexivity].
Qed.

Lemma round_nearest_even_range (m : Z) (l : location) :
  round_nearest_even m l = m \/ round_nearest_even m l = m + 1.
Proof.
  destruct l as [|[]]; simpl; auto. destruct (Z.even m); auto.
Qed.

End SpecFloatFacts.

Section LocationFacts.

(** The exact value [N / D] lies in [m, m + 1) at the place the location
    names: on [m], below the middle, on it, or above it. *)
Definition located (N D m : Z) (l : location) : Prop :=
  match l with
  | loc_Exact => N = m * D
  | loc_Inexact Lt => m * D < N /\ 2 * N < (2 * m + 1) * D
  | loc_Inexact Eq => 2 * N = (2 * m + 1) * D
  | loc_Inexact Gt => (2 * m + 1) * D < 2 * N /\ N < (m + 1) * D
  end.

Lemma loc_of_shr_record_of_loc (m : Z) (l : location) :
  loc_of_shr_record (shr_record_of_loc m l) = l.
Proof. destruct l as [|[]]; reflexivity. Qed.

(** One shift to the right keeps the record in step with the exact value. *)
Lemma located_shr_1 (N D : Z) (mrs : shr_record) :
  0 < D -> 0 <= shr_m mrs ->
  located N D (shr_m mrs) (loc_of_shr_record mrs) ->
  located N (2 * D) (shr_m (shr_1 mrs)) (loc_of_shr_record (shr_1 mrs)).
Proof.
  destruct mrs as [m r s]. cbn [shr_m]. intros HD Hm.
  destruct m as [|[p|p|]|p]; try lia;
    destruct r, s; cbn [shr_1 orb shr_m loc_of_shr_record located]; lia.
Qed.

Lemma located_iter (N : Z) (p : positive) : forall (D : Z) (mrs : shr_record),
  0 < D -> 0 <= shr_m mrs ->
  located N D (shr_m mrs) (loc_of_shr_record mrs) ->
  located N (2 ^ Zpos p * D) (shr_m (SpecFloat.iter_pos shr_1 p mrs))
    (loc_of_shr_record (SpecFloat.iter_pos shr_1 p mrs)).
Proof.
  induction p as [p IH|p IH|]; intros D mrs HD Hm Hloc; simpl SpecFloat.iter_pos.
  - assert (Hp : 0 < 2 ^ Zpos p) by (apply Z.pow_pos_nonneg; lia).
    assert (H1 : 0 <= shr_m (shr_1 mrs))
      by (rewrite shr_m_shr_1 by exact Hm; apply Z.div_pos; lia).
    assert (H2 : 0 <= shr_m (SpecFloat.iter_pos shr_1 p (shr_1 mrs)))
      by (rewrite shr_m_iter by exact H1; apply Z.div_pos; lia).
    replace (2 ^ Zpos p~1 * D) with (2 ^ Zpos p * (2 ^ Zpos p * (2 * D))).
    + apply IH; [lia | exact H2|]. apply IH; [lia | exact H1|].
      apply located_shr_1; assumption.
    + replace (Zpos p~1) with (1 + Zpos p + Zpos p) by lia.
      rewrite !Z.pow_add_r by lia. change (2 ^ 1) with 2. ring.
  - assert (Hp : 0 < 2 ^ Zpos p) by (apply Z.pow_pos_nonneg; lia).
    assert (H1 : 0 <= shr_m (SpecFloat.iter_pos shr_1 p mrs))
      by (rewrite shr_m_iter by exact Hm; apply Z.div_pos; lia).
    replace (2 ^ Zpos p~0 * D) with (2 ^ Zpos p * (2 ^ Zpos p * D)).
    + apply IH; [lia | exact H1|]. apply IH; assumption.
    + replace (Zpos p~0) with (Zpos p + Zpos p) by lia.
      rewrite !Z.pow_add_r by lia. ring.
  - change (2 ^ 1 * D) with (2 * D). apply located_shr_1; assumption.
Qed.

Lemma located_shr (N D : Z) (mrs : shr_record) (e n : Z) :
  0 < D -> 0 <= shr_m mrs -> 0 <= n ->
  located N D (shr_m mrs) (loc_of_shr_record mrs) ->
  located N (2 ^ n * D) (shr_m (fst (shr mrs e n)))
    (loc_of_shr_record (fst (shr mrs e n))).
Proof.
  intros HD Hm Hn Hloc. destruct n as [|p|p]; try lia; cbn [shr fst].
  - change (2 ^ 0) with 1. rewrite Z.mul_1_l. exact Hloc.
  - apply located_iter; assumption.
Qed.

(** Rounding to nearest (ties to even) moves to an integer no further than
    half a unit from the exact value. *)
Lemma round_nearest_even_located (N D m : Z) (l : location) :
  0 < D -> located N D m l ->
  2 * (round_nearest_even m l * D - N) <= D /\
  2 * (N - round_nearest_even m l * D) <= D.
Proof.
  intros HD. destruct l as [|[]]; cbn [located round_nearest_even];
    [| destruct (Z.even m) | |]; lia.
Qed.

(** The location [SFdiv] computes from the remainder of the division. *)
Lemma new_location_located (N D : Z) :
  0 < D -> located N D (N / D) (SpecFloat.new_location D (N mod D)).
Proof.
  intros HD.
  pose proof (Z.div_mod N D ltac:(lia)) as Hdm.
  pose proof (Z.mod_pos_bound N D HD) as Hmod.
  set (q := N / D) in *. set (r := N mod D) in *.
  assert (Hq : N = q * D + r) by lia. clear Hdm. clearbody q r.
  unfold SpecFloat.new_location, new_location_even, new_location_odd.
  destruct (Z.even D) eqn:Eev.
  - destruct (r =? 0) eqn:E0.
    + apply Z.eqb_eq in E0. cbn [located]. lia.
    + apply Z.eqb_neq in E0.
      destruct (2 * r ?= D) eqn:Ec; cbn [located].
      * apply Z.compare_eq in Ec. lia.
      * change (2 * r < D) in Ec. lia.
      * change (2 * r > D) in Ec. lia.
  - assert (Hodd : D <> 2 * r).
    { intros E. rewrite E, Z.even_mul in Eev. discriminate. }
    destruct (r =? 0) eqn:E0.
    + apply Z.eqb_eq in E0. cbn [located]. lia.
    + apply Z.eqb_neq in E0.
      destruct (2 * r + 1 ?= D) eqn:Ec; cbn [located].
      * apply Z.compare_eq in Ec. lia.
      * change (2 * r + 1 < D) in Ec. lia.
      * change (2 * r + 1 > D) in Ec. lia.
Qed.

End LocationFacts.

Section RoundingFacts.

Lemma fexp_normal (e : Z) : -1021 <= e -> fexp prec emax e = e - 53.
Proof. unfold fexp, SpecFloat.emin, prec, emax. lia. Qed.

Lemma shr_fexp_spec (m e : Z) (l : location) :
  0 < m -> 53 <= Zdigits2 m -> -1021 <= Zdigits2 m + e ->
  shr_m (fst (shr_fexp prec emax m e l)) = m / 2 ^ (Zdigits2 m - 53) /\
  snd (shr_fexp prec emax m e l) = e + (Zdigits2 m - 53).
Proof.
  intros Hm Hd He. unfold shr_fexp. rewrite fexp_normal by exact He.
  replace (Zdigits2 m + e - 53 - e) with (Zdigits2 m - 53) by lia.
  rewrite <- (shr_m_record_of_loc m l) at 3.
  apply shr_spec; [rewrite shr_m_record_of_loc|]; lia.
Qed.

Lemma pow2_pos (n : Z) : 0 <= n -> 0 < 2 ^ n.
Proof. intros. apply Z.pow_pos_nonneg; lia. Qed.

Lemma digits_at_least (m : Z) : 2 ^ 52 <= m -> 53 <= Zdigits2 m.
Proof.
  intros Hm. pose proof (Zdigits2_bounds m ltac:(lia)) as [_ Hhi].
  destruct (Z_lt_le_dec (Zdigits2 m) 53) as [Hlt|]; [|assumption].
  assert (0 <= Zdigits2 m) by (destruct m; simpl; lia).
  assert (2 ^ Zdigits2 m <= 2 ^ 52) by (apply Z.pow_le_mono_r; lia). lia.
Qed.

Lemma shr_fexp_located (N D m e : Z) (l : location) :
  0 < D -> 0 < m -> 53 <= Zdigits2 m -> -1021 <= Zdigits2 m + e ->
  located N D m l ->
  located N (2 ^ (Zdigits2 m - 53) * D)
    (shr_m (fst (shr_fexp prec emax m e l)))
    (loc_of_shr_record (fst (shr_fexp prec emax m e l))).
Proof.
  intros HD Hm Hd He Hloc. unfold shr_fexp. rewrite fexp_normal by exact He.
  replace (Zdigits2 m + e - 53 - e) with (Zdigits2 m - 53) by lia.
  apply located_shr; rewrite ?shr_m_record_of_loc, ?loc_of_shr_record_of_loc;
    first [assumption | lia].
Qed.

(** Rounding to the format is to nearest: the 53-bit mantissa returned, set
    at the exponent returned, is within half a unit in the last place of the
    exact value [N / D] that the mantissa [mx] and the location [lx] stand
    for. *)
Lemma binary_round_aux_nearest (sx : bool) (mx ex : Z) (lx : location) (N D : Z) :
  0 < D -> located N D mx lx ->
  2 ^ 52 <= mx ->
  -1021 <= Zdigits2 mx + ex <= 1023 ->
  exists (m : positive) (e : Z),
    binary_round_aux prec emax sx mx ex lx = S754_finite sx m e /\
    2 ^ 52 <= Zpos m < 2 ^ 53 /\
    0 <= e - ex <= Zdigits2 mx - 52 /\
    2 * (Zpos m * (2 ^ (e - ex) * D) - N) <= 2 ^ (e - ex) * D /\
    2 * (N - Zpos m * (2 ^ (e - ex) * D)) <= 2 ^ (e - ex) * D.
Proof.
  intros HD Hloc Hmx Hex.
  pose proof (digits_at_least mx Hmx) as Hd.
  pose proof (Zdigits2_bounds mx ltac:(lia)) as Hb.
  pose proof (shr_fexp_located N D mx ex lx HD ltac:(lia) Hd ltac:(lia) Hloc) as Hloc1.
  set (n1 := Zdigits2 mx - 53) in *.
  assert (Hn1 : 0 <= n1) by (unfold n1; lia).
  pose proof (pow2_pos n1 Hn1) as Hp1.
  destruct (shr_fexp_spec mx ex lx ltac:(lia) Hd ltac:(lia)) as [Hm1 He1].
  fold n1 in Hm1, He1.
  unfold binary_round_aux.
  destruct (shr_fexp prec emax mx ex lx) as [mrs' e'].
  cbn [fst snd] in Hm1, He1, Hloc1.
  set (m1 := shr_m mrs') in *.
  assert (Hdiv : m1 * 2 ^ n1 <= mx < (m1 + 1) * 2 ^ n1).
  { rewrite Hm1. pose proof (Z.div_mod mx (2 ^ n1) ltac:(lia)).
    pose proof (Z.mod_pos_bound mx (2 ^ n1) Hp1). nia. }
  assert (Hm1r : 2 ^ 52 <= m1 < 2 ^ 53).
  { replace (Zdigits2 mx - 1) with (52 + n1) in Hb by (unfold n1; lia).
    replace (Zdigits2 mx) with (53 + n1) in Hb by (unfold n1; lia).
    rewrite !Z.pow_add_r in Hb by lia. nia. }
  assert (HD1 : 0 < 2 ^ n1 * D) by (apply Z.mul_pos_pos; assumption).
  pose proof (round_nearest_even_located N (2 ^ n1 * D) m1 _ HD1 Hloc1) as Hnear.
  set (m2 := round_nearest_even m1 (loc_of_shr_record mrs')) in *.
  assert (Hm2 : m2 = m1 \/ m2 = m1 + 1) by apply round_nearest_even_range.
  set (D1 := 2 ^ n1 * D) in *.
  destruct (Z_lt_le_dec m2 (2 ^ 53)) as [Hsmall|Hbig].
  - (* the rounded mantissa still has 53 bits *)
    assert (Hd2 : Zdigits2 m2 = 53) by (apply Zdigits2_unique; simpl; lia).
    destruct (shr_fexp_spec m2 e' loc_Exact ltac:(lia) ltac:(lia) ltac:(lia)) as [Hm3 He3].
    rewrite Hd2 in Hm3, He3. change (2 ^ (53 - 53)) with 1 in Hm3.
    rewrite Z.div_1_r in Hm3.
    destruct (shr_fexp prec emax m2 e' loc_Exact) as [mrs'' e''].
    cbn [fst snd] in Hm3, He3. rewrite Hm3.
    destruct m2 as [|m|m] eqn:Em2; try lia.
    assert (Hle : (e'' <=? emax - prec) = true)
      by (apply Z.leb_le; unfold emax, prec; lia).
    rewrite Hle. exists m, e''.
    replace (e'' - ex) with n1 by lia. fold D1.
    split; [reflexivity|]. split; [lia|]. split; [unfold n1; lia|]. exact Hnear.
  - (* the rounding carried into a 54th bit *)
    assert (Em2 : m2 = 2 ^ 53) by lia.
    assert (Hd2 : Zdigits2 m2 = 54) by (rewrite Em2; reflexivity).
    destruct (shr_fexp_spec m2 e' loc_Exact ltac:(lia) ltac:(lia) ltac:(lia)) as [Hm3 He3].
    rewrite Hd2 in Hm3, He3.
    replace (m2 / 2 ^ (54 - 53)) with (2 ^ 52) in Hm3 by (rewrite Em2; reflexivity).
    destruct (shr_fexp prec emax m2 e' loc_Exact) as [mrs'' e''].
    cbn [fst snd] in Hm3, He3. rewrite Hm3.
    change (2 ^ 52) with (Zpos (2 ^ 52)%positive). cbv iota.
    assert (Hle : (e'' <=? emax - prec) = true)
      by (apply Z.leb_le; unfold emax, prec; lia).
    rewrite Hle. exists (2 ^ 52)%positive, e''.
    replace (e'' - ex) with (n1 + 1) by lia.
    rewrite Z.pow_add_r by lia. change (2 ^ 1) with 2.
    replace (2 ^ n1 * 2 * D) with (2 * D1) by (unfold D1; ring).
    split; [reflexivity|]. split; [simpl; lia|]. split; [unfold n1; lia|].
    rewrite Em2 in Hnear.
    change (Zpos (2 ^ 52)) with 4503599627370496.
    change (2 ^ 53) with 9007199254740992 in Hnear. lia.
Qed.

End RoundingFacts.

Section OperationFacts.

Lemma digits_of_53_bits (m : positive) : 2 ^ 52 <= Zpos m < 2 ^ 53 -> Zdigits2 (Zpos m) = 53.
Proof. intros H. apply Zdigits2_unique; simpl; lia. Qed.

Lemma digits_between (m lo hi : Z) :
  0 <= lo -> 2 ^ lo <= m < 2 ^ hi -> lo < Zdigits2 m <= hi.
Proof.
  intros Hlo Hm.
  assert (Hpos : 0 < m) by (pose proof (pow2_pos lo Hlo); lia).
  pose proof (Zdigits2_bounds m Hpos) as Hb.
  assert (Hd : 0 < Zdigits2 m) by (destruct m; simpl; lia).
  split.
  - destruct (Z_lt_le_dec lo (Zdigits2 m)) as [|Hle]; [assumption|].
    assert (2 ^ Zdigits2 m <= 2 ^ lo) by (apply Z.pow_le_mono_r; lia). lia.
  - destruct (Z_lt_le_dec hi (Zdigits2 m)) as [Hlt|]; [|assumption].
    assert (2 ^ hi <= 2 ^ (Zdigits2 m - 1)) by (apply Z.pow_le_mono_r; lia). lia.
Qed.

(** The product of two normal numbers is rounded to nearest. *)
Lemma SFmul_nearest (sx sy : bool) (mx my : positive) (ex ey : Z) :
  2 ^ 52 <= Zpos mx < 2 ^ 53 ->
  2 ^ 52 <= Zpos my < 2 ^ 53 ->
  -900 <= ex + ey <= 900 ->
  exists (m : positive) (e : Z),
    SFmul prec emax (S754_finite sx mx ex) (S754_finite sy my ey)
    = S754_finite (xorb sx sy) m e /\
    2 ^ 52 <= Zpos m < 2 ^ 53 /\
    0 <= e - (ex + ey) <= 54 /\
    2 * (Zpos m * 2 ^ (e - (ex + ey)) - Zpos mx * Zpos my) <= 2 ^ (e - (ex + ey)) /\
    2 * (Zpos mx * Zpos my - Zpos m * 2 ^ (e - (ex + ey))) <= 2 ^ (e - (ex + ey)).
Proof.
  intros Hx Hy He. cbn [SFmul]. rewrite Pos2Z.inj_mul.
  assert (Hprod : 2 ^ 104 <= Zpos mx * Zpos my < 2 ^ 106).
  { change (2 ^ 104) with (2 ^ 52 * 2 ^ 52). change (2 ^ 106) with (2 ^ 53 * 2 ^ 53). nia. }
  pose proof (digits_between _ 104 106 ltac:(lia) Hprod) as Hd.
  destruct (binary_round_aux_nearest (xorb sx sy) (Zpos mx * Zpos my) (ex + ey)
              loc_Exact (Zpos mx * Zpos my) 1) as (m & e & Hround & Hm & Ht & Hup & Hdown).
  - lia.
  - cbn [located]. lia.
  - change (2 ^ 52) with 4503599627370496.
    change (2 ^ 104) with 20282409603651670423947251286016 in Hprod. lia.
  - lia.
  - exists m, e. rewrite Z.mul_1_r in Hup, Hdown.
    split; [exact Hround|]. split; [exact Hm|]. split; [lia|]. split; assumption.
Qed.

(** The quotient of two normal numbers is rounded to nearest. *)
Lemma SFdiv_nearest (sx sy : bool) (mx my : positive) (ex ey : Z) :
  2 ^ 52 <= Zpos mx < 2 ^ 53 ->
  2 ^ 52 <= Zpos my < 2 ^ 53 ->
  -900 <= ex - ey <= 900 ->
  exists (m : positive) (e : Z),
    SFdiv prec emax (S754_finite sx mx ex) (S754_finite sy my ey)
    = S754_finite (xorb sx sy) m e /\
    2 ^ 52 <= Zpos m < 2 ^ 53 /\
    0 <= e - (ex - ey - 53) <= 2 /\
    2 * (Zpos m * (2 ^ (e - (ex - ey - 53)) * Zpos my) - Zpos mx * 2 ^ 53)
      <= 2 ^ (e - (ex - ey - 53)) * Zpos my /\
    2 * (Zpos mx * 2 ^ 53 - Zpos m * (2 ^ (e - (ex - ey - 53)) * Zpos my))
      <= 2 ^ (e - (ex - ey - 53)) * Zpos my.
Proof.
  intros Hx Hy He. cbn [SFdiv]. unfold SFdiv_core_binary.
  rewrite (digits_of_53_bits mx Hx), (digits_of_53_bits my Hy).
  replace (53 + ex - (53 + ey)) with (ex - ey) by lia.
  rewrite fexp_normal by lia.
  rewrite Z.min_l by lia.
  replace (ex - ey - (ex - ey - 53)) with 53 by lia.
  cbv iota. rewrite Z.shiftl_mul_pow2 by lia.
  pose proof (Z.div_mod (Zpos mx * 2 ^ 53) (Zpos my) ltac:(lia)) as Hdm.
  pose proof (Z.mod_pos_bound (Zpos mx * 2 ^ 53) (Zpos my) ltac:(lia)) as Hmod.
  pose proof (new_location_located (Zpos mx * 2 ^ 53) (Zpos my) ltac:(lia)) as Hloc.
  unfold Z.div, Z.modulo in Hdm, Hmod, Hloc.
  destruct (Z.div_eucl (Zpos mx * 2 ^ 53) (Zpos my)) as [q r].
  assert (Hq : 2 ^ 52 <= q < 2 ^ 54).
  { change (2 ^ 52) with 4503599627370496 in *.
    change (2 ^ 53) with 9007199254740992 in *.
    change (2 ^ 54) with 18014398509481984. nia. }
  pose proof (digits_between q 52 54 ltac:(lia) Hq) as Hd.
  destruct (binary_round_aux_nearest (xorb sx sy) q (ex - ey - 53)
              (SpecFloat.new_location (Zpos my) r) (Zpos mx * 2 ^ 53) (Zpos my)
              ltac:(lia) Hloc ltac:(lia) ltac:(lia))
    as (m & e & Hround & Hm & Ht & Hup & Hdown).
  exists m, e. split; [exact Hround|]. split; [exact Hm|]. split; [lia|].
  split; assumption.
Qed.

End OperationFacts.

Section ConversionFacts.
Import Currency.

Lemma iter_xO (p k : positive) : Zpos (Pos.iter xO p k) = Zpos p * 2 ^ Zpos k.
Proof.
  induction k as [|k IH] using Pos.peano_ind.
  - simpl. lia.
  - rewrite Pos.iter_succ, Pos2Z.inj_xO, IH, Pos2Z.inj_succ, Z.pow_succ_r by lia. ring.
Qed.

(** A mantissa of exactly 53 bits is left alone by rounding. *)
Lemma binary_round_aux_exact (sx : bool) (m : positive) (e : Z) :
  2 ^ 52 <= Zpos m < 2 ^ 53 -> -1074 <= e <= 970 ->
  binary_round_aux prec emax sx (Zpos m) e loc_Exact = S754_finite sx m e.
Proof.
  intros Hm He.
  assert (Hshr : forall l, shr_fexp prec emax (Zpos m) e l = (shr_record_of_loc (Zpos m) l, e)).
  { intros l. unfold shr_fexp. rewrite (digits_of_53_bits m Hm), fexp_normal by lia.
    replace (53 + e - 53 - e) with 0 by lia. reflexivity. }
  unfold binary_round_aux. rewrite Hshr. cbn [shr_record_of_loc shr_m loc_of_shr_record round_nearest_even].
  rewrite Hshr. cbn [shr_record_of_loc shr_m].
  assert (Hle : (e <=? emax - prec) = true) by (apply Z.leb_le; unfold emax, prec; lia).
  now rewrite Hle.
Qed.

(** The float of a positive integer below 2^53 holds it exactly: its mantissa
    is the integer shifted up to 53 bits. *)
Lemma Prim2SF_of_pos (p : positive) :
  Zpos p < 2 ^ 53 ->
  exists (m : positive) (a : Z),
    Prim2SF (PrimFloat.of_uint63 (Uint63.of_Z (Zpos p))) = S754_finite false m (- a) /\
    0 <= a /\ Zpos m = Zpos p * 2 ^ a /\ 2 ^ 52 <= Zpos m < 2 ^ 53.
Proof.
  intros Hp. rewrite of_uint63_spec, Uint63.of_Z_spec.
  rewrite Z.mod_small by (change (2 ^ 53) with 9007199254740992 in Hp;
                          change Uint63.wB with 9223372036854775808; lia).
  cbn [binary_normalize]. unfold binary_round.
  pose proof (Zdigits2_bounds (Zpos p) ltac:(lia)) as Hb. cbn [Zdigits2] in Hb.
  set (d := Zpos (digits2_pos p)) in *.
  assert (Hd : 0 < d <= 53).
  { split; [unfold d; lia|].
    destruct (Z_lt_le_dec 53 d) as [Hlt|]; [|assumption].
    assert (2 ^ 53 <= 2 ^ (d - 1)) by (apply Z.pow_le_mono_r; lia). lia. }
  rewrite Z.add_0_r, fexp_normal by lia. unfold shl_align.
  destruct (d - 53 - 0) as [|k|k] eqn:Ek; try lia.
  - (* already 53 bits *)
    assert (Ed : d = 53) by lia. rewrite Ed in Hb. change (53 - 1) with 52 in Hb.
    rewrite binary_round_aux_exact by lia.
    exists p, 0. split; [reflexivity|]. split; [lia|]. split; [lia | exact Hb].
  - assert (Ea : Zpos k = 53 - d) by lia.
    assert (Hm : 2 ^ 52 <= Zpos (Pos.iter xO p k) < 2 ^ 53).
    { rewrite iter_xO, Ea.
      assert (E52 : 2 ^ 52 = 2 ^ (d - 1) * 2 ^ (53 - d))
        by (rewrite <- Z.pow_add_r by lia; f_equal; lia).
      assert (E53 : 2 ^ 53 = 2 ^ d * 2 ^ (53 - d))
        by (rewrite <- Z.pow_add_r by lia; f_equal; lia).
      rewrite E52, E53.
      assert (0 < 2 ^ (53 - d)) by (apply pow2_pos; lia). nia. }
    rewrite binary_round_aux_exact by lia.
    exists (Pos.iter xO p k), (53 - d).
    split; [f_equal; lia|]. split; [lia|]. split; [now rewrite iter_xO, Ea | exact Hm].
Qed.

Lemma Prim2SF_hundred :
  Prim2SF 100%float = S754_finite false 7036874417766400 (-46).
Proof. reflexivity. Qed.

End ConversionFacts.

Section RoundTripFacts.
Import Currency.

(** The largest integer amount every smaller one of which is a double. *)
Definition maxSafeInteger : Z := 2 ^ 53 - 1.

Definition roundTrip (c : Z) : float := dollarsToCents (centsToDollars (ofZ c)).

Lemma hundred_normal : 2 ^ 52 <= Zpos 7036874417766400 < 2 ^ 53.
Proof. split; [vm_compute; discriminate | reflexivity]. Qed.

Lemma pow2_lt_inv (a b : Z) : 0 <= a -> 0 <= b -> 2 ^ a < 2 ^ b -> a < b.
Proof. intros Ha Hb H. apply (Z.pow_lt_mono_r_iff 2); lia. Qed.

(** The arithmetic of the round trip.  [p * 2 ^ a] is the 53-bit mantissa of
    the amount [p], [my] the mantissa of its quotient by 100 and [mz] that of
    the product of the quotient with 100, each rounded to nearest at the
    exponents [t] and [t'] the roundings chose; 7036874417766400 is the
    mantissa of 100.  Below 100 * 2^45 the two roundings together stay under
    half a unit of the amount. *)
Lemma round_trip_core (p a t t' my mz : Z) :
  0 < p < 3518437208883200 ->
  0 <= a -> 0 <= t -> 0 <= t' ->
  2 ^ 52 <= p * 2 ^ a < 2 ^ 53 ->
  2 ^ 52 <= my < 2 ^ 53 ->
  2 ^ 52 <= mz < 2 ^ 53 ->
  2 * (my * (2 ^ t * 7036874417766400) - p * 2 ^ a * 2 ^ 53) <= 2 ^ t * 7036874417766400 ->
  2 * (p * 2 ^ a * 2 ^ 53 - my * (2 ^ t * 7036874417766400)) <= 2 ^ t * 7036874417766400 ->
  2 * (mz * 2 ^ t' - my * 7036874417766400) <= 2 ^ t' ->
  2 * (my * 7036874417766400 - mz * 2 ^ t') <= 2 ^ t' ->
  1 <= a + 53 - t - t' /\
  (2 * p - 1) * 2 ^ (a + 53 - t - t') < 2 * mz < (2 * p + 1) * 2 ^ (a + 53 - t - t').
Proof.
  intros Hp Ha Ht Ht' Hm1 Hmy Hmz Hdiv_up Hdiv_down Hmul_up Hmul_down.
  pose proof (pow2_pos a Ha) as HA. pose proof (pow2_pos t Ht) as HU.
  pose proof (pow2_pos t' Ht') as HU'.
  (* the product's exponent is at most 53 above the operands' *)
  assert (Ht'53 : t' <= 53).
  { destruct (Z_le_gt_dec t' 53) as [|Hgt]; [assumption | exfalso].
    assert (HU54 : 2 ^ 54 <= 2 ^ t') by (apply Z.pow_le_mono_r; lia).
    assert (2 ^ 52 * 2 ^ t' <= mz * 2 ^ t') by (apply Z.mul_le_mono_nonneg_r; lia).
    change (2 ^ 54) with 18014398509481984 in *.
    change (2 ^ 52) with 4503599627370496 in *.
    change (2 ^ 53) with 9007199254740992 in *. lia. }
  (* the quotient's exponent is at most 1 above the operands' *)
  assert (Ht1 : t <= 1).
  { destruct (Z_le_gt_dec t 1) as [|Hgt]; [assumption | exfalso].
    assert (HU4 : 2 ^ 2 <= 2 ^ t) by (apply Z.pow_le_mono_r; lia).
    assert (2 ^ 52 * 2 ^ t <= my * 2 ^ t) by (apply Z.mul_le_mono_nonneg_r; lia).
    change (2 ^ 2) with 4 in *.
    change (2 ^ 52) with 4503599627370496 in *.
    change (2 ^ 53) with 9007199254740992 in *. lia. }
  assert (HU'53 : 2 ^ t' <= 2 ^ 53) by (apply Z.pow_le_mono_r; lia).
  assert (HU2 : 2 ^ t <= 2 ^ 1) by (apply Z.pow_le_mono_r; lia).
  (* an amount of 52 bits is divided without a change of exponent *)
  assert (Hbinade : 2 <= a \/ a = 1 /\ t = 0).
  { destruct (Z_le_gt_dec 2 a) as [|Hlt]; [left; assumption | right].
    assert (a = 0 \/ a = 1) as [->| ->] by lia.
    - change (2 ^ 0) with 1 in *. change (2 ^ 52) with 4503599627370496 in *. lia.
    - split; [reflexivity|].
      assert (t = 0 \/ t = 1) as [->| ->] by lia; [reflexivity | exfalso].
      change (2 ^ 1) with 2 in *.
      change (2 ^ 52) with 4503599627370496 in *.
      change (2 ^ 53) with 9007199254740992 in *. lia. }
  assert (Hk : 1 <= a + 53 - t - t') by lia.
  split; [exact Hk|].
  set (k := a + 53 - t - t') in *.
  assert (Hsplit : 2 ^ k * (2 ^ t * 2 ^ t') = 2 ^ a * 2 ^ 53).
  { rewrite <- !Z.pow_add_r by lia. f_equal. unfold k. lia. }
  (* the two half units, at the scale of the amount, stay below one half *)
  assert (Hkey : 2 ^ t * 2 ^ t' + 2 ^ t * 7036874417766400 < 2 ^ a * 2 ^ 53).
  { destruct Hbinade as [Ha2|[-> ->]].
    - assert (HA4 : 2 ^ 2 <= 2 ^ a) by (apply Z.pow_le_mono_r; lia).
      assert (2 ^ t * 2 ^ t' <= 2 ^ t * 2 ^ 53) by (apply Z.mul_le_mono_nonneg_l; lia).
      change (2 ^ 2) with 4 in *. change (2 ^ 1) with 2 in *.
      change (2 ^ 53) with 9007199254740992 in *. lia.
    - change (2 ^ 0) with 1. change (2 ^ 1) with 2.
      change (2 ^ 53) with 9007199254740992 in *. lia. }
  pose proof (pow2_pos k ltac:(lia)) as HPk.
  set (A := 2 ^ a) in *. set (U := 2 ^ t) in *. set (U' := 2 ^ t') in *.
  set (Pk := 2 ^ k) in *. clearbody A U U' Pk.
  assert (HW : 0 < U * U') by (apply Z.mul_pos_pos; assumption).
  assert (E : p * A * 2 ^ 53 = p * Pk * (U * U')).
  { rewrite <- !Z.mul_assoc. f_equal. rewrite <- Hsplit. ring. }
  rewrite E in Hdiv_up, Hdiv_down.
  pose proof (Z.mul_le_mono_nonneg_r _ _ U (Z.lt_le_incl _ _ HU) Hmul_up) as Gup.
  pose proof (Z.mul_le_mono_nonneg_r _ _ U (Z.lt_le_incl _ _ HU) Hmul_down) as Gdown.
  change (2 ^ 53) with 9007199254740992 in *.
  split; apply Z.mul_lt_mono_pos_r with (p := U * U'); try exact HW; lia.
Qed.

(** The round trip of a float that holds [p] (or [-p]) exactly. *)
Lemma round_trip_signed (s : bool) (p m1 : positive) (a : Z) (x : float) :
  Zpos p < 3518437208883200 ->
  Prim2SF x = S754_finite s m1 (- a) ->
  0 <= a -> Zpos m1 = Zpos p * 2 ^ a -> 2 ^ 52 <= Zpos m1 < 2 ^ 53 ->
  dollarsToCents (centsToDollars x) = ofZ (if s then Zneg p else Zpos p).
Proof.
  intros Hp Hx Ha Em1 Hm1.
  assert (Ha53 : a < 53).
  { apply pow2_lt_inv; [lia..|]. pose proof (pow2_pos a Ha). nia. }
  unfold dollarsToCents, centsToDollars, Math_round.
  rewrite FloatAxioms.mul_spec, FloatAxioms.div_spec, Hx, Prim2SF_hundred.
  unfold SF64mul, SF64div.
  destruct (SFdiv_nearest s false m1 7036874417766400 (- a) (-46) Hm1
              hundred_normal ltac:(lia))
    as (my & ey & Hdiv & Hmy & Ht & Hdiv_up & Hdiv_down).
  rewrite Hdiv, xorb_false_r.
  destruct (SFmul_nearest s false my 7036874417766400 ey (-46) Hmy
              hundred_normal ltac:(lia))
    as (mz & ez & Hmul & Hmz & Ht' & Hmul_up & Hmul_down).
  rewrite Hmul, xorb_false_r. cbv beta iota.
  set (t := ey - (- a - -46 - 53)) in *. set (t' := ez - (ey + -46)) in *.
  rewrite Em1 in Hdiv_up, Hdiv_down, Hm1.
  destruct (round_trip_core (Zpos p) a t t' (Zpos my) (Zpos mz)) as [Hk Hhalf];
    try assumption; try lia.
  assert (Ez : ez = - (a + 53 - t - t')) by (unfold t, t'; lia).
  set (k := a + 53 - t - t') in *.
  destruct (0 <=? ez) eqn:E0; [apply Z.leb_le in E0; lia|].
  cbv zeta. rewrite Ez, Z.opp_involutive.
  rewrite Z.shiftr_div_pow2, Z.shiftl_mul_pow2, Z.pow_add_r by lia.
  change (2 ^ 1) with 2. rewrite Z.mul_1_l.
  pose proof (pow2_pos k ltac:(lia)) as HPk.
  set (Pk := 2 ^ k) in *.
  assert (En : (2 * (if s then Zneg mz else Zpos mz) + Pk) / (Pk * 2)
               = (if s then Zneg p else Zpos p)).
  { destruct s; symmetry.
    - apply Z.div_unique with (r := 2 * Zneg mz + Pk + Zpos p * (Pk * 2)); lia.
    - apply Z.div_unique with (r := 2 * Zpos mz + Pk - Zpos p * (Pk * 2)); lia. }
  rewrite En. destruct s; reflexivity.
Qed.

(** Up to 100 * 2^45 the arithmetic above applies; the two amounts that
    follow are run. *)
Lemma round_trip_positive (s : bool) (p : positive) :
  Zpos p < 3518437208883202 ->
  dollarsToCents (centsToDollars (ofZ (if s then Zneg p else Zpos p)))
  = ofZ (if s then Zneg p else Zpos p).
Proof.
  intros Hp. destruct (Z_lt_le_dec (Zpos p) 3518437208883200) as [Hlt|Hge].
  - destruct (Prim2SF_of_pos p) as (m & a & Hx & Ha & Em & Hm).
    { change (2 ^ 53) with 9007199254740992. lia. }
    apply (round_trip_signed s p m a); try assumption.
    destruct s; [|exact Hx].
    cbn [ofZ]. rewrite FloatAxioms.opp_spec, Hx. reflexivity.
  - assert (p = 3518437208883200 \/ p = 3518437208883201)%positive as [->| ->] by lia;
      destruct s; vm_compute; reflexivity.
Qed.

(** C8, as the code has it.  For every integer amount of cents [c] with
    [|c| <= 3518437208883201] (100 * 2^45 + 1, some 35 trillion dollars),
    [dollarsToCents(centsToDollars(c))] is [c] again: the quotient by 100 and
    the product with 100 are each rounded to nearest, the two roundings
    together leave the result less than half a cent from [c], and
    [Math.round] returns [c]. *)
Theorem dollars_round_trip (c : Z) :
  - 3518437208883202 < c < 3518437208883202 -> roundTrip c = ofZ c.
Proof.
  intros Hc. unfold roundTrip. destruct c as [|p|p].
  - reflexivity.
  - apply (round_trip_positive false p). lia.
  - apply (round_trip_positive true p). lia.
Qed.

Lemma dollars_round_trip_witness : roundTrip 123456 = ofZ 123456.
Proof. apply dollars_round_trip. split; reflexivity. Defined.

(** C8 as stated fails inside the safe integer range, and at the first amount
    the theorem above leaves out: 3518437208883202 cents come back as
    3518437208883203.  The quotient by 100 is rounded, its product with 100
    is rounded again, and from there on the two roundings can add up to half
    a cent or more. *)
Lemma dollars_round_trip_off_by_one :
  ~ (forall c : Z, - maxSafeInteger <= c <= maxSafeInteger -> roundTrip c = ofZ c).
Proof.
  intros H.
  assert (Hc : roundTrip 3518437208883202 = ofZ 3518437208883202)
    by (apply H; unfold maxSafeInteger; lia).
  apply (f_equal (fun x => PrimFloat.eqb x (ofZ 3518437208883202))) in Hc.
  vm_compute in Hc. discriminate.
Qed.

Example dollars_round_trip_first_loss :
  roundTrip 3518437208883202 = ofZ 3518437208883203.
Proof. vm_compute. reflexivity. Qed.

End RoundTripFacts.


(** * The repository's unit tests, replayed on the embedding

    [security.test.ts], [currency.test.ts] and the validation tests state
    what the functions return on sample inputs; the embedding returns the
    same. *)

Section ReplayedTests.
Import JS Security Validation Currency.

Example test_maskAccountNumber :
  maskAccountNumber "1234567890" = Some "****7890" /\
  maskAccountNumber "123456789012345" = Some "****2345" /\
  maskAccountNumber "12345678" = Some "****5678" /\
  maskAccountNumber "1234" = Some "1234" /\
  maskAccountNumber "" = Some "".
Proof. repeat split. Qed.

Example test_sanitizeApiKey :
  sanitizeApiKey "secret-token:mercury_production_wma_ABC123" = "secret-t..." /\
  sanitizeApiKey "1234567890abcdef" = "12345678..." /\
  sanitizeApiKey "short" = "short" /\
  sanitizeApiKey "" = "[missing]".
Proof. repeat split. Qed.

Example test_sanitizeForLog_custom_fields :
  sanitizeForLogWith ["customSecret"]
    [ ("customSecret", JStr "sensitive-data-123"); ("normalField", JStr "value") ]
  = [ ("customSecret", JStr "sensitiv..."); ("normalField", JStr "value") ].
Proof. reflexivity. Qed.

Example test_sanitizeForLog_preserves :
  sanitizeForLog
    [ ("userId", JStr "123"); ("action", JStr "balance.view");
      ("timestamp", JNum (Finite 1234567890)) ]
  = [ ("userId", JStr "123"); ("action", JStr "balance.view");
      ("timestamp", JNum (Finite 1234567890)) ].
Proof. reflexivity. Qed.

Example test_CentsSchema :
  CentsSchema [] (JNum (num 12345)) = Valid (JNum (num 12345)) /\
  CentsSchema [] (JNum (num (-500))) = Valid (JNum (num (-500))) /\
  CentsSchema [] (JNum (num 0)) = Valid (JNum (num 0)) /\
  issuesOf (CentsSchema [] (JNum (Finite (12345 # 100)))) <> [] /\
  issuesOf (CentsSchema [] (JNum PosInfinity)) <> [] /\
  issuesOf (CentsSchema [] (JNum NaN)) <> [].
Proof. repeat split; discriminate. Qed.

Example test_EntityIdSchema :
  EntityIdSchema [] (JStr "cortex-automations") = Valid (JStr "cortex-automations") /\
  issuesOf (EntityIdSchema [] (JStr "UPPERCASE")) <> [] /\
  issuesOf (EntityIdSchema [] (JStr "has_underscore")) <> [] /\
  issuesOf (EntityIdSchema [] (JStr "")) <> [].
Proof. repeat split; discriminate. Qed.

Example test_TransactionQuerySchema :
  TransactionQuerySchema []
    (JObj [ ("entityId", JStr "cortex"); ("startDate", JStr "2026-01-01");
            ("endDate", JStr "2026-01-31"); ("minAmount", JNum (num 10000));
            ("maxAmount", JNum (num 100000)); ("search", JStr "AWS") ])
  = Valid
      (JObj [ ("entityId", JStr "cortex"); ("startDate", JStr "2026-01-01");
              ("endDate", JStr "2026-01-31"); ("minAmount", JNum (num 10000));
              ("maxAmount", JNum (num 100000)); ("search", JStr "AWS");
              ("limit", JNum (num 100)); ("offset", JNum (num 0)) ]).
Proof. reflexivity. Qed.

#[warnings="-inexact-float"]
Example test_calculatePercentageChange :
  calculatePercentageChange 120000 100000 = 0.2%float /\
  calculatePercentageChange 80000 100000 = (-0.2)%float /\
  calculatePercentageChange 100000 0 = 1%float /\
  calculatePercentageChange 0 0 = 0%float /\
  calculatePercentageChange 100000 100000 = 0%float.
Proof. repeat split. Qed.

#[warnings="-inexact-float"]
Example test_dollarsToCents :
  dollarsToCents 12.34 = 1234%float /\
  dollarsToCents 100 = 10000%float /\
  dollarsToCents 0.5 = 50%float /\
  dollarsToCents 12.345 = 1235%float /\
  dollarsToCents 12.344 = 1234%float.
Proof. repeat split. Qed.

#[warnings="-inexact-float"]
Example test_centsToDollars :
  centsToDollars 1234 = 12.34%float /\
  centsToDollars 10000 = 100%float /\
  centsToDollars 50 = 0.5%float.
Proof. repeat split. Qed.

End ReplayedTests.

(** * Further properties of the shared package *)

(** ** utils/security.ts: the other masks *)

Section SplitFacts.
Import JS.

Fixpoint hasChar (c : ascii) (s : string) : bool :=
  match s with
  | EmptyString => false
  | String d s' => Ascii.eqb d c || hasChar c s'
  end.

Lemma includes_char (c : ascii) (s : string) :
  includes s (String c EmptyString) = hasChar c s.
Proof.
  induction s as [|d s IH]; [reflexivity|].
  rewrite includes_cons, IH. cbn [String.prefix hasChar].
  destruct (ascii_dec c d) as [->|Hne].
  - rewrite Ascii.eqb_refl. now destruct s.
  - destruct (Ascii.eqb d c) eqn:E; [apply Ascii.eqb_eq in E; congruence | reflexivity].
Qed.

Lemma hasChar_append (c : ascii) (a b : string) :
  hasChar c (a +:+ b) = hasChar c a || hasChar c b.
Proof.
  induction a as [|d a IH]; [reflexivity|].
  rewrite append_cons. cbn [hasChar]. now rewrite IH, orb_assoc.
Qed.

(** Without the separator there is one piece, the string itself. *)
Lemma split_none (sep : ascii) (s : string) :
  hasChar sep s = false -> split sep s = (s, []).
Proof.
  induction s as [|c s IH]; [reflexivity|].
  cbn [hasChar split]. intros H. apply orb_false_iff in H as [Hc Hs].
  rewrite (IH Hs), Hc. reflexivity.
Qed.

(** The first piece ends at the first separator; the other pieces are those
    of what follows it. *)
Lemma split_first (sep : ascii) (a b : string) :
  hasChar sep a = false ->
  split sep (a +:+ String sep b) = (a, fst (split sep b) :: snd (split sep b)).
Proof.
  induction a as [|c a IH]; intros H.
  - rewrite append_nil_l. cbn [split]. rewrite Ascii.eqb_refl.
    now destruct (split sep b).
  - cbn [hasChar] in H. apply orb_false_iff in H as [Hc Ha].
    rewrite append_cons. cbn [split]. rewrite (IH Ha), Hc. reflexivity.
Qed.

(** A string that has the separator splits around its first occurrence. *)
Lemma hasChar_split (sep : ascii) (s : string) :
  hasChar sep s = true ->
  exists a b, s = a +:+ String sep b /\ hasChar sep a = false.
Proof.
  induction s as [|c s IH]; [discriminate|].
  cbn [hasChar]. destruct (Ascii.eqb c sep) eqn:E.
  - intros _. apply Ascii.eqb_eq in E. subst c. exists EmptyString, s. split; reflexivity.
  - cbn [orb]. intros H. destruct (IH H) as (a & b & -> & Ha).
    exists (String c a), b. split; [reflexivity|]. cbn [hasChar]. now rewrite E, Ha.
Qed.

(** No piece contains the separator. *)
Lemma split_pieces (sep : ascii) (s : string) :
  hasChar sep (fst (split sep s)) = false /\
  List.Forall (fun piece => hasChar sep piece = false) (snd (split sep s)).
Proof.
  induction s as [|c s IH]; [split; [reflexivity | constructor]|].
  cbn [split]. destruct (split sep s) as [piece rest]. cbn [fst snd] in IH.
  destruct IH as [Hp Hr]. destruct (Ascii.eqb c sep) eqn:E; cbn [fst snd].
  - split; [reflexivity | now constructor].
  - split; [cbn [hasChar]; now rewrite E, Hp | exact Hr].
Qed.

End SplitFacts.

Section MaskFacts.
Import JS Security.

(** The parts of an address as [maskEmail] sees them: [local] up to the first
    [@], [domain] up to the next one or the end. *)
Lemma maskEmail_parts (local tail : string) :
  hasChar "@" local = false ->
  maskEmail (local +:+ String "@" tail)
  = if len local <=? 1 then local +:+ String "@" tail
    else template (index local 0) +:+ "***@" +:+ fst (split "@" tail).
Proof.
  intros Hlocal. unfold maskEmail.
  assert (Hinc : includes (local +:+ String "@" tail) "@" = true).
  { rewrite includes_char, hasChar_append. cbn [hasChar].
    rewrite Ascii.eqb_refl. apply orb_true_r. }
  rewrite Hinc.
  assert (Hne : isEmpty (local +:+ String "@" tail) = false) by now destruct local.
  rewrite Hne. cbn [orb negb].
  rewrite (split_first "@" local tail Hlocal). reflexivity.
Qed.

(** X1.  An address whose part before the first [@] has two characters or
    more is masked to the first character of that part, three asterisks, [@]
    and the domain -- the text up to a second [@], if there is one.  An
    address without [@], and one with at most one character before it, is
    returned as it is. *)
Theorem maskEmail_hides_local (c : ascii) (local domain tail : string) :
  hasChar "@" (String c local) = false ->
  hasChar "@" domain = false ->
  tail = EmptyString \/ (exists t, tail = String "@" t) ->
  maskEmail (String c local +:+ String "@" (domain +:+ tail))
  = (if String.eqb local "" then String c local +:+ String "@" (domain +:+ tail)
     else String c "***@" +:+ domain) /\
  maskEmail (String c local +:+ domain) = String c local +:+ domain /\
  maskEmail (String "@" (domain +:+ tail)) = String "@" (domain +:+ tail).
Proof.
  intros Hlocal Hdomain Htail. split; [|split].
  - rewrite (maskEmail_parts (String c local) (domain +:+ tail) Hlocal).
    assert (Hfst : fst (split "@" (domain +:+ tail)) = domain).
    { destruct Htail as [->|[t ->]].
      - assert (E : domain +:+ "" = domain).
        { clear. induction domain as [|d s IH]; [reflexivity|].
          rewrite append_cons. now rewrite IH. }
        rewrite E, (split_none "@" domain Hdomain). reflexivity.
      - now rewrite (split_first "@" domain t Hdomain). }
    rewrite Hfst. destruct local as [|d local]; [reflexivity|].
    replace (len (String c (String d local)) <=? 1) with false
      by (symmetry; apply Z.leb_gt; unfold len; simpl; lia).
    reflexivity.
  - unfold maskEmail.
    assert (Hinc : includes (String c local +:+ domain) "@" = false).
    { rewrite includes_char, hasChar_append, Hlocal, Hdomain. reflexivity. }
    rewrite Hinc. now rewrite orb_true_r.
  - apply (maskEmail_parts EmptyString (domain +:+ tail)). reflexivity.
Qed.

Lemma maskEmail_hides_local_witness :
  maskEmail "david@cortex.ai" = "d***@cortex.ai" /\
  maskEmail "davidcortex.ai" = "davidcortex.ai" /\
  maskEmail "@cortex.ai" = "@cortex.ai".
Proof.
  apply (maskEmail_hides_local "d" "avid" "cortex.ai" EmptyString);
    [reflexivity | reflexivity | left; reflexivity].
Defined.

(** X2.  Masking a masked address changes nothing. *)
Theorem maskEmail_idempotent (email : string) :
  maskEmail (maskEmail email) = maskEmail email.
Proof.
  destruct (hasChar "@" email) eqn:Hat.
  - destruct (hasChar_split "@" email Hat) as (local & tail & -> & Hlocal).
    rewrite (maskEmail_parts local tail Hlocal).
    destruct (len local <=? 1) eqn:Hlen.
    + rewrite (maskEmail_parts local tail Hlocal), Hlen. reflexivity.
    + destruct local as [|c local]; [discriminate Hlen|].
      destruct local as [|d local]; [discriminate Hlen|].
      cbn [index String.get option_map template].
      cbn [hasChar] in Hlocal. apply orb_false_iff in Hlocal as [Hc _].
      pose proof (proj1 (split_pieces "@" tail)) as Hdom.
      set (domain := fst (split "@" tail)) in *.
      change (String c "" +:+ "***@" +:+ domain)
        with (String c "***" +:+ String "@" domain).
      rewrite (maskEmail_parts (String c "***") domain)
        by (cbn [hasChar]; rewrite Hc; reflexivity).
      rewrite (split_none "@" domain Hdom). reflexivity.
  - unfold maskEmail at 2. rewrite includes_char, Hat, orb_true_r.
    unfold maskEmail. now rewrite includes_char, Hat, orb_true_r.
Qed.

End MaskFacts.

Section MaskAgainFacts.
Import JS Security.

Lemma length_repeatN (s : string) (n : nat) :
  String.length (repeatN s n) = (n * String.length s)%nat.
Proof.
  induction n as [|n IH]; [reflexivity|].
  cbn [repeatN]. rewrite length_append, IH. lia.
Qed.

Lemma substring_append_r (a b : string) (m : nat) :
  String.substring (String.length a) m (a +:+ b) = String.substring 0 m b.
Proof.
  induction a as [|c a IH]; [reflexivity|].
  rewrite append_cons. exact IH.
Qed.

Lemma substring_append_l (a b : string) :
  String.substring 0 (String.length a) (a +:+ b) = a.
Proof.
  induction a as [|c a IH]; [now destruct b|].
  rewrite append_cons. simpl. now rewrite IH.
Qed.

(** The mask of an account number of five characters or more. *)
Lemma maskAccountNumber_long (accountNumber : string) :
  5 <= len accountNumber ->
  maskAccountNumber accountNumber
  = Some (repeatN "*" (Z.to_nat (Z.min (len accountNumber - 4) 4))
          +:+ String.substring (String.length accountNumber - 4) 4 accountNumber).
Proof.
  intros Hlen. unfold maskAccountNumber.
  rewrite isEmpty_false by lia.
  destruct (len accountNumber <=? 4) eqn:E; [apply Z.leb_le in E; lia|].
  cbn [orb]. change (-4) with (- (4)).
  rewrite (slice_suffix accountNumber 4) by lia.
  unfold repeat.
  destruct (Z.min (len accountNumber - 4) 4 <? 0) eqn:E'; [apply Z.ltb_lt in E'; lia|].
  reflexivity.
Qed.

Lemma maskAccountNumber_short (accountNumber : string) :
  len accountNumber <= 4 -> maskAccountNumber accountNumber = Some accountNumber.
Proof.
  intros Hlen. unfold maskAccountNumber.
  destruct (len accountNumber <=? 4) eqn:E; [|apply Z.leb_gt in E; lia].
  now rewrite orb_true_r.
Qed.

(** X3.  The mask of an account number is never longer than the number and
    never longer than 8 characters, and masking it again leaves it as it is. *)
Theorem maskAccountNumber_idempotent (accountNumber : string) :
  exists masked,
    maskAccountNumber accountNumber = Some masked /\
    len masked = Z.min (len accountNumber) 8 /\
    maskAccountNumber masked = Some masked.
Proof.
  destruct (Z_le_gt_dec (len accountNumber) 4) as [Hshort|Hlong].
  - exists accountNumber. rewrite (maskAccountNumber_short _ Hshort).
    split; [reflexivity|]. split; [lia | reflexivity].
  - rewrite (maskAccountNumber_long accountNumber) by lia.
    set (k := Z.to_nat (Z.min (len accountNumber - 4) 4)).
    set (lastFour := String.substring (String.length accountNumber - 4) 4 accountNumber).
    assert (Hk : (1 <= k <= 4)%nat) by (unfold k; lia).
    assert (Hstars : String.length (repeatN "*" k) = k)
      by (rewrite length_repeatN; simpl; lia).
    assert (Hlast : String.length lastFour = 4%nat)
      by (unfold lastFour; rewrite length_substring; unfold len in Hlong; lia).
    assert (Hlen : len (repeatN "*" k +:+ lastFour) = Z.of_nat k + 4)
      by (unfold len; rewrite length_append, Hstars, Hlast; lia).
    exists (repeatN "*" k +:+ lastFour).
    split; [reflexivity|]. split; [unfold k in *; lia|].
    rewrite maskAccountNumber_long by lia.
    rewrite Hlen. replace (Z.to_nat (Z.min (Z.of_nat k + 4 - 4) 4)) with k by lia.
    do 2 f_equal.
    replace (String.length (repeatN "*" k +:+ lastFour) - 4)%nat
      with (String.length (repeatN "*" k)) by (rewrite length_append; lia).
    rewrite substring_append_r, <- Hlast. apply substring_all.
Qed.

(** X4.  A sanitised key has at most 11 characters, and sanitising it again
    leaves it as it is -- unless the key was empty: [[missing]] is itself
    cut to [[missing...]. *)
Theorem sanitizeApiKey_idempotent (apiKey : string) :
  len (sanitizeApiKey apiKey) <= 11 /\
  (apiKey <> EmptyString ->
   sanitizeApiKey (sanitizeApiKey apiKey) = sanitizeApiKey apiKey) /\
  sanitizeApiKey (sanitizeApiKey EmptyString) = "[missing...".
Proof.
  assert (Hcases : len apiKey = 0 /\ apiKey = EmptyString \/ 0 < len apiKey <= 8 \/ 8 < len apiKey).
  { destruct apiKey; [left; split; reflexivity|].
    unfold len. simpl String.length. lia. }
  assert (Hshort : forall s, 0 < len s <= 8 -> sanitizeApiKey s = s).
  { intros s Hs. unfold sanitizeApiKey. rewrite isEmpty_false by lia.
    destruct (len s <=? 8) eqn:E; [reflexivity | apply Z.leb_gt in E; lia]. }
  split; [|split; [|reflexivity]].
  - destruct Hcases as [[_ ->]|[Hs|Hl]].
    + vm_compute. discriminate.
    + rewrite Hshort by exact Hs. lia.
    + rewrite sanitizeApiKey_long by exact Hl.
      unfold len in *. rewrite length_append, length_substring. simpl String.length. lia.
  - intros Hne. destruct Hcases as [[_ ->]|[Hs|Hl]]; [congruence | |].
    + now rewrite !Hshort by (rewrite ?Hshort by exact Hs; exact Hs).
    + rewrite (sanitizeApiKey_long apiKey Hl).
      assert (Hfirst : String.length (String.substring 0 8 apiKey) = 8%nat)
        by (rewrite length_substring; unfold len in Hl; lia).
      rewrite sanitizeApiKey_long
        by (unfold len; rewrite length_append, Hfirst; simpl String.length; lia).
      f_equal. exact (eq_trans (f_equal (fun n => String.substring 0 n _) (eq_sym Hfirst))
                        (substring_append_l _ _)).
Qed.

Lemma sanitizeApiKey_idempotent_witness :
  sanitizeApiKey (sanitizeApiKey "secret-token:abc") = sanitizeApiKey "secret-token:abc".
Proof.
  apply (proj1 (proj2 (sanitizeApiKey_idempotent "secret-token:abc"))). discriminate.
Defined.

End MaskAgainFacts.

Section SanitizeShapeFacts.
Import JS Security.

(** No object of the value has an own key [__proto__].  Arrays are not looked
    into: the loop does not enter them. *)
Fixpoint noProtoKey (value : JsValue) : bool :=
  match value with
  | JObj entries =>
      forallb (fun kv => negb (String.eqb (fst kv) "__proto__") && noProtoKey (snd kv))
              entries
  | _ => true
  end.

Lemma isSensitive_no_fields (key : string) : isSensitive [] key = false.
Proof. reflexivity. Qed.

Lemma sanitizeEntry_no_fields : forall (value : JsValue) (key : string),
  noProtoKey value = true -> sanitizeEntry [] key value = value.
Proof.
  fix IH 1. intros [| |b|n|s|items|entries] key H; try reflexivity.
  cbn [sanitizeEntry]. f_equal. cbn [noProtoKey] in H.
  induction entries as [|[k v] entries IHentries]; [reflexivity|].
  cbn [forallb fst snd] in H.
  apply andb_true_iff in H as [Hkv Hrest]. apply andb_true_iff in Hkv as [Hk Hv].
  apply negb_true_iff in Hk.
  cbn [flat_map fst snd]. unfold assigned at 1. rewrite Hk, (IH v k Hv).
  cbn [app]. f_equal. apply IHentries, Hrest.
Qed.

Lemma keys_sanitizeForLogWith (sensitiveFields : list string)
    (obj : list (string * JsValue)) :
  map fst (sanitizeForLogWith sensitiveFields obj)
  = List.filter (fun key => negb (String.eqb key "__proto__")) (map fst obj).
Proof.
  induction obj as [|[k v] obj IH]; [reflexivity|].
  change (sanitizeForLogWith sensitiveFields ((k, v) :: obj))
    with (assigned k (sanitizeEntry sensitiveFields k v)
          ++ sanitizeForLogWith sensitiveFields obj).
  rewrite map_app, IH. cbn [map fst List.filter]. unfold assigned.
  now destruct (String.eqb k "__proto__").
Qed.

(** X5.  The own keys of the sanitised copy are the keys of the input other
    than [__proto__], in the same order, whatever the list of sensitive
    fields; the copy never has an own entry [__proto__], and its prototype is
    another than [Object.prototype] exactly when the input has an own entry
    [__proto__] that holds an object, an array or [null].  With an empty list
    of sensitive fields and no key [__proto__] in the input or in a non-array
    object inside it, the copy has the entries of the input. *)
Theorem sanitizeForLog_keeps_shape (sensitiveFields : list string)
    (obj : list (string * JsValue)) :
  map fst (sanitizeForLogWith sensitiveFields obj)
  = List.filter (fun key => negb (String.eqb key "__proto__")) (map fst obj) /\
  lookupEntry "__proto__" (sanitizeForLogWith sensitiveFields obj) = None /\
  (prototypeOfCopy sensitiveFields obj <> ObjectPrototype <->
   exists value, lookupEntry "__proto__" obj = Some value /\
                 (value = JNull \/ (exists items, value = JArr items) \/
                  exists entries, value = JObj entries)) /\
  (noProtoKey (JObj obj) = true -> sanitizeForLogWith [] obj = obj).
Proof.
  split; [apply keys_sanitizeForLogWith | split; [|split]].
  - induction obj as [|[k v] obj IH]; [reflexivity|].
    change (sanitizeForLogWith sensitiveFields ((k, v) :: obj))
      with (assigned k (sanitizeEntry sensitiveFields k v)
            ++ sanitizeForLogWith sensitiveFields obj).
    unfold assigned. destruct (String.eqb k "__proto__") eqn:Ek; [exact IH|].
    cbn [app lookupEntry]. rewrite String.eqb_sym, Ek. exact IH.
  - unfold prototypeOfCopy.
    destruct (lookupEntry "__proto__" obj) as [value|].
    + split.
      * intros H. exists value. split; [reflexivity|].
        destruct value as [| |b|n|s|items|entries]; cbn [sanitizeEntry] in H;
          try destruct (isSensitive sensitiveFields "__proto__");
          try (now contradiction H); eauto.
      * intros (value' & Hv & Hkind). injection Hv as <-.
        destruct Hkind as [->|[(items & ->)|(entries & ->)]]; discriminate.
    + split; [intros H; now contradiction H | intros (value & Hv & _); discriminate].
  - intros H.
    pose proof (sanitizeEntry_no_fields (JObj obj) "" H) as Hcopy.
    now injection Hcopy.
Qed.

(** The object [JSON.parse] makes of the text
    [{"__proto__": {"admin": true}, "password": "hunter2hunter2"}]. *)
Definition parsedWithProto : list (string * JsValue) :=
  [ ("__proto__", JObj [ ("admin", JBool true) ]); ("password", JStr "hunter2hunter2") ].

Lemma sanitizeForLog_keeps_shape_witness :
  map fst (sanitizeForLogWith defaultSensitiveFields parsedWithProto) = ["password"] /\
  lookupEntry "__proto__" (sanitizeForLogWith defaultSensitiveFields parsedWithProto) = None /\
  prototypeOfCopy defaultSensitiveFields parsedWithProto <> ObjectPrototype.
Proof.
  destruct (sanitizeForLog_keeps_shape defaultSensitiveFields parsedWithProto)
    as (Hkeys & Hproto & Hprototype & _).
  split; [rewrite Hkeys; reflexivity | split; [exact Hproto|]].
  apply Hprototype. exists (JObj [ ("admin", JBool true) ]).
  split; [reflexivity|]. right. right. now exists [ ("admin", JBool true) ].
Defined.

End SanitizeShapeFacts.

(** *** simpleHash *)

Section HashFacts.
Import JS Security.

(** The polynomial in 31 that the loop evaluates, over the integers. *)
Fixpoint polynomialFrom (h : Z) (value : string) : Z :=
  match value with
  | EmptyString => h
  | String c rest => polynomialFrom (31 * h + charCode c) rest
  end.

Definition polynomial (value : string) : Z := polynomialFrom 0 value.

Lemma toInt32_wrap (z : Z) : exists q, toInt32 z = z + 2 ^ 32 * q.
Proof.
  exists (- ((z + 2 ^ 31) / 2 ^ 32)). unfold toInt32.
  pose proof (Z.div_mod (z + 2 ^ 31) (2 ^ 32) ltac:(discriminate)). lia.
Qed.

Lemma toInt32_add_multiple (z q : Z) : toInt32 (z + 2 ^ 32 * q) = toInt32 z.
Proof.
  unfold toInt32. f_equal.
  replace (z + 2 ^ 32 * q + 2 ^ 31) with (z + 2 ^ 31 + q * 2 ^ 32) by ring.
  apply Z_mod_plus_full.
Qed.

Lemma toInt32_range (z : Z) : - 2 ^ 31 <= toInt32 z < 2 ^ 31.
Proof.
  unfold toInt32.
  pose proof (Z.mod_pos_bound (z + 2 ^ 31) (2 ^ 32) ltac:(reflexivity)).
  change (2 ^ 32) with (2 ^ 31 + 2 ^ 31) in *. lia.
Qed.

(** One turn of the loop multiplies by 31 and adds the code unit, modulo 2^32. *)
Lemma hashStep_toInt32 (h : Z) (c : ascii) :
  hashStep (toInt32 h) c = toInt32 (31 * h + charCode c).
Proof.
  unfold hashStep, bitAnd, shiftLeft. rewrite Z.land_diag.
  change (2 ^ (5 mod 32)) with 32.
  destruct (toInt32_wrap h) as [q1 E1].
  destruct (toInt32_wrap (toInt32 h)) as [q1' E1'].
  destruct (toInt32_wrap (toInt32 (toInt32 h) * 32)) as [q2 E2].
  rewrite E2, E1', E1.
  replace (((h + 2 ^ 32 * q1 + 2 ^ 32 * q1') * 32 + 2 ^ 32 * q2
            - (h + 2 ^ 32 * q1) + charCode c))
    with (31 * h + charCode c + 2 ^ 32 * (31 * q1 + 32 * q1' + q2)) by ring.
  apply toInt32_add_multiple.
Qed.

Lemma hashLoop_polynomial (value : string) : forall h : Z,
  hashLoop (toInt32 h) value = toInt32 (polynomialFrom h value).
Proof.
  induction value as [|c rest IH]; intros h; [reflexivity|].
  cbn [hashLoop polynomialFrom]. rewrite hashStep_toInt32. apply IH.
Qed.

(** The value of a digit, and of a string of digits read in a radix. *)
Definition digitValue (c : ascii) : Z :=
  if Validation.isDigit c then charCode c - 48 else charCode c - 87.

Fixpoint fromDigits (radix acc : Z) (s : string) : Z :=
  match s with
  | EmptyString => acc
  | String c rest => fromDigits radix (acc * radix + digitValue c) rest
  end.

Definition isBase36 (c : ascii) : bool := Validation.isDigit c || Validation.isLower c.

Lemma digitChar_base36 (d : Z) :
  0 <= d < 36 -> digitValue (digitChar d) = d /\ isBase36 (digitChar d) = true.
Proof.
  intros Hd. rewrite <- (Z2Nat.id d) by lia.
  assert (Hn : (Z.to_nat d < 36)%nat) by lia.
  generalize dependent (Z.to_nat d). clear d Hd. intros n Hn.
  do 36 (destruct n as [|n]; [split; reflexivity|]). lia.
Qed.

Lemma fromDigits_acc (radix : Z) (s : string) : forall acc : Z,
  fromDigits radix acc s
  = acc * radix ^ Z.of_nat (String.length s) + fromDigits radix 0 s.
Proof.
  induction s as [|c s IH]; intros acc.
  - cbn [fromDigits String.length]. change (radix ^ Z.of_nat 0) with 1. lia.
  - cbn [fromDigits String.length]. rewrite IH, (IH (0 * radix + digitValue c)).
    rewrite Nat2Z.inj_succ, Z.pow_succ_r by lia. ring.
Qed.

(** The digits written are those of [n]: read back, they give [n]. *)
Lemma toStringDigits_value (radix : Z) (fuel : nat) : forall (n : Z) (acc : string),
  2 <= radix <= 36 -> 0 <= n < 2 ^ Z.of_nat fuel ->
  fromDigits radix 0 (toStringDigits fuel radix n acc)
  = n * radix ^ Z.of_nat (String.length acc) + fromDigits radix 0 acc.
Proof.
  induction fuel as [|fuel IH]; intros n acc Hr Hn.
  - change (2 ^ Z.of_nat 0) with 1 in Hn. assert (n = 0) as -> by lia.
    cbn [toStringDigits]. lia.
  - cbn [toStringDigits].
    pose proof (Z.div_mod n radix ltac:(lia)) as Hdm.
    pose proof (Z.mod_pos_bound n radix ltac:(lia)) as Hmod.
    assert (Hq : 0 <= n / radix) by (apply Z.div_pos; lia).
    assert (Hv : fromDigits radix 0 (String (digitChar (n mod radix)) acc)
                 = n mod radix * radix ^ Z.of_nat (String.length acc)
                   + fromDigits radix 0 acc).
    { cbn [fromDigits]. rewrite fromDigits_acc.
      rewrite (proj1 (digitChar_base36 (n mod radix) ltac:(lia))). ring. }
    destruct (n / radix =? 0) eqn:E.
    + apply Z.eqb_eq in E. rewrite Hv. f_equal. f_equal. lia.
    + apply Z.eqb_neq in E. rewrite IH.
      * rewrite Hv. cbn [String.length].
        rewrite Nat2Z.inj_succ, Z.pow_succ_r by lia.
        set (P := radix ^ Z.of_nat (String.length acc)).
        replace (n * P) with ((radix * (n / radix) + n mod radix) * P) by (f_equal; lia).
        ring.
      * exact Hr.
      * split; [exact Hq|].
        rewrite Nat2Z.inj_succ, Z.pow_succ_r in Hn by lia.
        apply Z.div_lt_upper_bound; [lia|].
        assert (2 * (n / radix) <= radix * (n / radix)) by (apply Z.mul_le_mono_nonneg_r; lia).
        assert (0 <= 2 ^ Z.of_nat fuel) by (apply Z.pow_nonneg; lia).
        nia.
Qed.

Lemma toStringRadix_value (radix n : Z) :
  2 <= radix <= 36 -> 0 <= n -> fromDigits radix 0 (toStringRadix radix n) = n.
Proof.
  intros Hr Hn. unfold toStringRadix. rewrite toStringDigits_value.
  - cbn [String.length fromDigits]. change (radix ^ Z.of_nat 0) with 1. lia.
  - exact Hr.
  - split; [exact Hn|]. rewrite Nat2Z.inj_succ, Z2Nat.id by apply Z.log2_nonneg.
    destruct (Z.eq_dec n 0) as [->|Hne]; [reflexivity|].
    apply Z.log2_spec. lia.
Qed.

(** A number below [radix ^ k] is written with at most [k] digits, all of
    them in [0-9a-z]. *)
Lemma toStringDigits_shape (fuel : nat) : forall (n k : Z) (acc : string),
  0 <= n < 36 ^ k -> 1 <= k ->
  Validation.allChars isBase36 acc = true ->
  Z.of_nat (String.length (toStringDigits fuel 36 n acc))
    <= Z.of_nat (String.length acc) + k /\
  Validation.allChars isBase36 (toStringDigits fuel 36 n acc) = true.
Proof.
  induction fuel as [|fuel IH]; intros n k acc Hn Hk Hacc.
  - cbn [toStringDigits]. split; [lia | exact Hacc].
  - cbn [toStringDigits].
    pose proof (Z.mod_pos_bound n 36 ltac:(lia)) as Hmod.
    assert (Hacc' : Validation.allChars isBase36 (String (digitChar (n mod 36)) acc) = true).
    { cbn [Validation.allChars].
      now rewrite (proj2 (digitChar_base36 (n mod 36) ltac:(lia))), Hacc. }
    destruct (n / 36 =? 0) eqn:E.
    + split; [cbn [String.length]; lia | exact Hacc'].
    + apply Z.eqb_neq in E.
      assert (Hq : 0 <= n / 36) by (apply Z.div_pos; lia).
      assert (Hk2 : 2 <= k).
      { destruct (Z.eq_dec k 1) as [->|]; [|lia].
        change (36 ^ 1) with 36 in Hn. rewrite Z.div_small in E by lia. congruence. }
      destruct (IH (n / 36) (k - 1) (String (digitChar (n mod 36)) acc)) as [Hlen Hall].
      * split; [exact Hq|]. apply Z.div_lt_upper_bound; [lia|].
        rewrite <- Z.pow_succ_r by lia. replace (Z.succ (k - 1)) with k by lia. lia.
      * lia.
      * exact Hacc'.
      * split; [cbn [String.length] in Hlen; lia | exact Hall].
Qed.

Lemma toStringDigits_nonempty (fuel : nat) (n : Z) (acc : string) :
  (String.length acc < String.length (toStringDigits (S fuel) 36 n acc))%nat.
Proof.
  revert n acc. induction fuel as [|fuel IH]; intros n acc.
  - cbn [toStringDigits]. destruct (n / 36 =? 0); cbn [String.length]; lia.
  - change (toStringDigits (S (S fuel)) 36 n acc)
      with (if n / 36 =? 0 then String (digitChar (n mod 36)) acc
            else toStringDigits (S fuel) 36 (n / 36) (String (digitChar (n mod 36)) acc)).
    destruct (n / 36 =? 0); [cbn [String.length]; lia|].
    specialize (IH (n / 36) (String (digitChar (n mod 36)) acc)).
    cbn [String.length] in IH. lia.
Qed.

(** X6.  [simpleHash] is Java's string hash: the polynomial in 31 of the code
    units, wrapped to a signed 32-bit integer, without its sign, written in
    base 36.  The result has 1 to 6 characters, all in [0-9a-z]. *)
Theorem simpleHash_polynomial (value : string) :
  simpleHash value = toStringRadix 36 (Z.abs (toInt32 (polynomial value))) /\
  1 <= len (simpleHash value) <= 6 /\
  Validation.allChars isBase36 (simpleHash value) = true.
Proof.
  assert (E : hashLoop 0 value = toInt32 (polynomial value))
    by apply (hashLoop_polynomial value 0).
  unfold simpleHash. rewrite E. split; [reflexivity|].
  pose proof (toInt32_range (polynomial value)) as Hr.
  set (n := Z.abs (toInt32 (polynomial value))) in *.
  assert (Hn : 0 <= n < 36 ^ 6).
  { change (36 ^ 6) with 2176782336. change (2 ^ 31) with 2147483648 in Hr.
    unfold n. lia. }
  unfold toStringRadix.
  destruct (toStringDigits_shape (S (Z.to_nat (Z.log2 n))) n 6 EmptyString Hn
              ltac:(lia) eq_refl) as [Hlen Hall].
  pose proof (toStringDigits_nonempty (Z.to_nat (Z.log2 n)) n EmptyString) as Hne.
  cbn [String.length] in Hlen, Hne. unfold len.
  split; [lia | exact Hall].
Qed.

(** X7.  Two strings have the same hash exactly when their 32-bit polynomial
    values are equal or opposite: the base-36 rendering loses nothing, the
    absolute value loses the sign. *)
Theorem simpleHash_collisions (a b : string) :
  simpleHash a = simpleHash b <->
  Z.abs (toInt32 (polynomial a)) = Z.abs (toInt32 (polynomial b)).
Proof.
  assert (E : forall v, hashLoop 0 v = toInt32 (polynomial v))
    by (intros v; apply (hashLoop_polynomial v 0)).
  unfold simpleHash. rewrite !E. split; [|now intros ->].
  intros H. apply (f_equal (fromDigits 36 0)) in H.
  rewrite !toStringRadix_value in H by lia. exact H.
Qed.

End HashFacts.

(** ** api/client.ts: failures of the request, and the retry loop in general *)

Section RequestFailureFacts.
Import JS Client.



End RequestFailureFacts.

Section RetryInGeneral.
Import JS Client.
Context {World T : Type}.
Variable fn : World -> Completion T * World.
Variable maxRetries baseDelay : Z.

(** The time a run spends waiting. *)
Definition totalWait (events : list Event) : Z :=
  fold_right (fun ev acc => match ev with Waited d => d + acc | Invoked => acc end) 0 events.

Lemma totalWait_app (a b : list Event) : totalWait (a ++ b) = totalWait a + totalWait b.
Proof.
  unfold totalWait. induction a as [|ev a IH]; [reflexivity|].
  cbn [app fold_right]. rewrite IH. destruct ev; lia.
Qed.

Lemma totalWait_backoff (k : nat) : forall attempt : Z,
  0 <= attempt ->
  totalWait (backoff baseDelay attempt k) = baseDelay * 2 ^ attempt * (2 ^ Z.of_nat k - 1).
Proof.
  induction k as [|k IH]; intros attempt Ha.
  - unfold backoff. cbn [seq flat_map totalWait fold_right].
    change (2 ^ Z.of_nat 0) with 1. ring.
  - rewrite backoff_S, totalWait_app, IH by lia.
    cbn [totalWait fold_right app]. rewrite Nat2Z.inj_succ, Z.pow_succ_r by lia.
    rewrite (Z.pow_add_r 2 attempt 1) by lia. change (2 ^ 1) with 2. ring.
Qed.

Lemma calls_app (a b : list Event) (w w' : World) :
  calls (mkRun w (a ++ b)) = (calls (mkRun w' a) + calls (mkRun w' b))%nat.
Proof. unfold calls. cbn [trace]. now rewrite List.filter_app, length_app. Qed.

Lemma calls_backoff (w : World) (k : nat) : forall attempt : Z,
  calls (mkRun w (backoff baseDelay attempt k)) = k.
Proof.
  induction k as [|k IH]; intros attempt; [reflexivity|].
  rewrite backoff_S. unfold calls in *. cbn [trace] in *.
  rewrite List.filter_app, length_app, IH. reflexivity.
Qed.

(** An attempt that is retried: it throws, and not a client error. *)
Definition retried (c : Completion T) : Prop :=
  exists thrown, c = Throw thrown /\ isClientError thrown = false.

Lemma retried_not_final (c : Completion T) : retried c -> final c = false.
Proof. intros (thrown & -> & H). exact H. Qed.

(** X9.  With [maxRetries] zero or negative the operation is never invoked:
    the call throws [Error('Max retries exceeded')] at once. *)
Theorem retryRequest_without_attempts (w : World) :
  maxRetries <= 0 ->
  retryRequest fn maxRetries baseDelay w
  = (Throw (ThrownError "Error" "Max retries exceeded"), start w).
Proof.
  intros Hn. unfold retryRequest.
  replace (Z.to_nat maxRetries) with 0%nat by lia. reflexivity.
Qed.

(** X10.  When the operation fails [k] times with errors that are retried and
    then returns, [retryRequest] returns that value after [k + 1] invocations
    and [k] waits that add up to [baseDelay * (2^k - 1)]. *)
Theorem retryRequest_returns_after_failures (w : World) (k : nat) (v : T) :
  Z.of_nat k < maxRetries ->
  (forall i, (i < k)%nat -> retried (outcome fn w i)) ->
  outcome fn w k = Return v ->
  let run := retryRequest fn maxRetries baseDelay w in
  fst run = Return v /\
  calls (snd run) = S k /\
  totalWait (trace (snd run)) = baseDelay * (2 ^ Z.of_nat k - 1).
Proof.
  intros Hk Hfail Hret. cbn zeta. unfold retryRequest.
  rewrite (retryLoop_stops fn maxRetries baseDelay k (Z.to_nat maxRetries) 0 None (start w));
    cbn [start world trace]; try lia.
  - cbn [fst snd trace app]. split; [exact Hret|]. split.
    + rewrite (calls_app _ _ _ w), calls_backoff. cbn. lia.
    + rewrite totalWait_app, totalWait_backoff by lia. cbn [totalWait fold_right].
      change (2 ^ 0) with 1. ring.
  - intros i Hi. apply retried_not_final, Hfail, Hi.
  - rewrite Hret. reflexivity.
Qed.

End RetryInGeneral.

Definition unavailableThenOk (n : nat) : Client.Completion JS.JsValue * nat :=
  match n with
  | O => alwaysUnavailable n
  | _ => (Client.Return (JS.JStr "ok"), S n)
  end.

Lemma retryRequest_without_attempts_witness :
  Client.retryRequest alwaysUnavailable 0 1000 0%nat
  = (Client.Throw (Client.ThrownError "Error" "Max retries exceeded"), Client.start 0%nat).
Proof. apply (retryRequest_without_attempts alwaysUnavailable 0 1000 0%nat). lia. Defined.

Lemma retryRequest_returns_after_failures_witness :
  let run := Client.retryRequest unavailableThenOk 3 1000 0%nat in
  fst run = Client.Return (JS.JStr "ok") /\
  Client.calls (snd run) = 2%nat /\
  totalWait (Client.trace (snd run)) = 1000 * (2 ^ Z.of_nat 1 - 1).
Proof.
  apply (retryRequest_returns_after_failures unavailableThenOk 3 1000 0%nat 1).
  - lia.
  - intros i Hi. assert (i = 0%nat) as -> by lia. eexists. split; reflexivity.
  - reflexivity.
Defined.

Section RetryExhaustion.
Import JS Client.
Context {World T : Type}.
Variable fn : World -> Completion T * World.
Variable maxRetries baseDelay : Z.

(** X11.  When each of the [maxRetries] attempts fails with an error that is
    retried, the operation is invoked [maxRetries] times, the waits between
    the attempts add up to [baseDelay * (2^(maxRetries - 1) - 1)] with none
    after the last attempt, and the last error is thrown -- replaced by
    [Error('Unknown error')] when what was thrown is no [Error]. *)
Theorem retryRequest_gives_up (w : World) (lastThrown : Thrown) :
  1 <= maxRetries ->
  (forall i, Z.of_nat i < maxRetries -> retried (outcome fn w i)) ->
  outcome fn w (Z.to_nat (maxRetries - 1)) = Throw lastThrown ->
  let run := retryRequest fn maxRetries baseDelay w in
  fst run = Throw (if instanceofError lastThrown then lastThrown
                   else ThrownError "Error" "Unknown error") /\
  calls (snd run) = Z.to_nat maxRetries /\
  totalWait (trace (snd run)) = baseDelay * (2 ^ (maxRetries - 1) - 1) /\
  (forall d, List.last (trace (snd run)) (Waited d) = Invoked).
Proof.
  intros Hn Hfail Hlast. cbn zeta. unfold retryRequest.
  set (n := Z.to_nat (maxRetries - 1)) in *.
  replace (Z.to_nat maxRetries) with (S n) by (unfold n; lia).
  rewrite (retryLoop_exhausts fn maxRetries baseDelay n 0 None (start w)).
  - cbn [fst snd start world trace app]. rewrite Hlast. cbn [surfaced].
    split; [reflexivity|]. split; [|split].
    + rewrite (calls_app _ _ _ w), calls_backoff. cbn. lia.
    + rewrite totalWait_app, totalWait_backoff by lia. cbn [totalWait fold_right].
      change (2 ^ 0) with 1. replace (Z.of_nat n) with (maxRetries - 1) by (unfold n; lia).
      ring.
    + intros d. apply List.last_last.
  - unfold n. lia.
  - intros i Hi. cbn [start world]. apply retried_not_final, Hfail. unfold n in Hi. lia.
Qed.

(** The trace of the loop continues the trace it starts from. *)
Lemma retryLoop_extends : forall (remaining : nat) (attempt : Z)
    (lastError : option Thrown) (r : Run),
  exists more,
    trace (snd (retryLoop fn maxRetries baseDelay remaining attempt lastError r))
    = trace r ++ more.
Proof.
  induction remaining as [|remaining IH]; intros attempt lastError r.
  - exists []. cbn [retryLoop snd]. now rewrite app_nil_r.
  - cbn [retryLoop]. unfold invoke.
    destruct (fst (fn (world r))) as [v|error].
    + exists [Invoked]. reflexivity.
    + destruct (isClientError error); [exists [Invoked]; reflexivity|].
      match goal with
      | |- context [retryLoop _ _ _ remaining ?a ?l ?r2] =>
          destruct (IH a l r2) as [more Hmore]; rewrite Hmore
      end.
      destruct (attempt <? maxRetries - 1); cbn [setTimeout trace];
        rewrite <- ?app_assoc; eexists; reflexivity.
Qed.

(** X12.  With two attempts or more allowed, a first failure ends the run
    after a single invocation exactly when it is an [ApiClientError] whose
    status is not zero and below 500 -- whether 4xx or not; any other error
    is followed by a second invocation. *)
Theorem retryRequest_single_attempt_iff (w : World) (thrown : Thrown) :
  2 <= maxRetries ->
  outcome fn w 0 = Throw thrown ->
  (calls (snd (retryRequest fn maxRetries baseDelay w)) = 1%nat <->
   exists e s, thrown = ThrownApiClientError e /\ statusCode e = Some s /\
               s <> 0 /\ s < 500).
Proof.
  intros Hn Hout.
  assert (Hclient : isClientError thrown = true <->
                    exists e s, thrown = ThrownApiClientError e /\ statusCode e = Some s /\
                                s <> 0 /\ s < 500).
  { split.
    - destruct thrown as [e| | |]; cbn [isClientError]; try discriminate.
      destruct (statusCode e) as [s|] eqn:Es; [|discriminate].
      intros H. apply andb_true_iff in H as [H0 H5].
      apply negb_true_iff, Z.eqb_neq in H0. apply Z.ltb_lt in H5.
      exists e, s. auto.
    - intros (e & s & -> & Hs & H0 & H5). cbn [isClientError]. rewrite Hs.
      apply andb_true_iff. split; [apply negb_true_iff, Z.eqb_neq | apply Z.ltb_lt];
        assumption. }
  rewrite <- Hclient. unfold retryRequest.
  destruct (Z.to_nat maxRetries) as [|[|m]] eqn:Em; try lia.
  unfold outcome in Hout. cbn [worldAfter] in Hout.
  cbn [retryLoop]. unfold invoke at 1. cbn [start world trace app].
  rewrite Hout.
  destruct (isClientError thrown) eqn:Ec.
  - cbn [snd]. split; reflexivity.
  - split; [|discriminate]. intros Hcalls. exfalso.
    replace (0 <? maxRetries - 1) with true in Hcalls by (symmetry; apply Z.ltb_lt; lia).
    cbn [retryLoop] in Hcalls. unfold invoke at 1 in Hcalls.
    cbn [setTimeout world trace app] in Hcalls.
    unfold calls in Hcalls.
    destruct (fst (fn (snd (fn w)))) as [v|error2].
    + cbn in Hcalls. discriminate.
    + destruct (isClientError error2); [cbn in Hcalls; discriminate|].
      match type of Hcalls with
      | context [retryLoop _ _ _ m ?a ?l ?r2] =>
          destruct (retryLoop_extends m a l r2) as [more Hmore]; rewrite Hmore in Hcalls
      end.
      destruct (0 + 1 <? maxRetries - 1); cbn [setTimeout trace] in Hcalls;
        rewrite List.filter_app, length_app in Hcalls; cbn in Hcalls; lia.
Qed.

End RetryExhaustion.

Definition alwaysThrowsString (n : nat) : Client.Completion JS.JsValue * nat :=
  (Client.Throw (Client.ThrownValue (JS.JStr "boom")), S n).

Definition movedThenUnavailable (n : nat) : Client.Completion JS.JsValue * nat :=
  match n with
  | O => (Client.Throw (Client.ThrownApiClientError
            (Client.mkApiClientError (JS.JStr "Moved") (Some 302)
               (JS.JStr "MOVED") JS.JUndefined)), S n)
  | _ => alwaysUnavailable n
  end.

Lemma retryRequest_gives_up_witness :
  let run := Client.retryRequest alwaysThrowsString 3 1000 0%nat in
  fst run = Client.Throw (Client.ThrownError "Error" "Unknown error") /\
  Client.calls (snd run) = 3%nat /\
  totalWait (Client.trace (snd run)) = 1000 * (2 ^ (3 - 1) - 1) /\
  (forall d, List.last (Client.trace (snd run)) (Client.Waited d) = Client.Invoked).
Proof.
  apply (retryRequest_gives_up alwaysThrowsString 3 1000 0%nat
           (Client.ThrownValue (JS.JStr "boom"))).
  - lia.
  - intros i Hi. eexists. split; reflexivity.
  - reflexivity.
Defined.

Lemma retryRequest_single_attempt_iff_witness :
  Client.calls (snd (Client.retryRequest movedThenUnavailable 3 1000 0%nat)) = 1%nat <->
  exists e s,
    Client.ThrownApiClientError
      (Client.mkApiClientError (JS.JStr "Moved") (Some 302) (JS.JStr "MOVED") JS.JUndefined)
    = Client.ThrownApiClientError e /\
    Client.statusCode e = Some s /\ s <> 0 /\ s < 500.
Proof.
  apply (retryRequest_single_attempt_iff movedThenUnavailable 3 1000 0%nat).
  - lia.
  - reflexivity.
Defined.

Section TimeoutFacts.
Import JS Client.
Context {World : Type}.
Variable fetch : World -> Completion Response * World.
Variable maxRetries baseDelay : Z.

(** A request as a caller hands it to [retryRequest], [() => apiGet(path)]:
    each invocation calls [fetch] once, under the timer. *)
Definition requestOver (w : World) : Completion JsValue * World :=
  (apiRequest (fetchWithTimeout (fst (fetch w))), snd (fetch w)).

Lemma outcome_requestOver (w : World) (i : nat) :
  outcome requestOver w i
  = apiRequest (fetchWithTimeout (fst (fetch (worldAfter fetch i w)))).
Proof.
  unfold outcome. revert w. induction i as [|i IH]; intros w; [reflexivity|].
  cbn [worldAfter]. exact (IH (snd (fetch w))).
Qed.

(** X13.  Under [retryRequest], a request that runs into its timeout is not
    retried -- the 408 it is reported with counts as a client error --
    whereas a request that fails on the network every time is sent
    [maxRetries] times. *)
Theorem retryRequest_does_not_retry_timeouts (w : World) :
  1 <= maxRetries ->
  let run := retryRequest requestOver maxRetries baseDelay w in
  ((exists msg, fst (fetch w) = Throw (ThrownError "AbortError" msg)) ->
   fst run = Throw (ThrownApiClientError
                      (mkApiClientError (JStr "Request timeout") (Some 408)
                         (JStr "TIMEOUT") JUndefined)) /\
   trace (snd run) = [Invoked]) /\
  ((forall i, Z.of_nat i < maxRetries ->
      exists name msg, fst (fetch (worldAfter fetch i w)) = Throw (ThrownError name msg) /\
                       name <> "AbortError") ->
   calls (snd run) = Z.to_nat maxRetries).
Proof.
  intros Hn. cbn zeta. split.
  - intros [msg Hfetch]. unfold retryRequest.
    rewrite (retryLoop_stops requestOver maxRetries baseDelay 0 (Z.to_nat maxRetries)
               0 None (start w)); cbn [start world trace]; try lia.
    + cbn [fst snd trace backoff app]. rewrite outcome_requestOver.
      cbn [worldAfter]. rewrite Hfetch. split; reflexivity.
    + rewrite outcome_requestOver. cbn [worldAfter]. rewrite Hfetch. reflexivity.
  - intros Hnet. unfold retryRequest.
    set (n := Z.to_nat (maxRetries - 1)).
    replace (Z.to_nat maxRetries) with (S n) by (unfold n; lia).
    rewrite (retryLoop_exhausts requestOver maxRetries baseDelay n 0 None (start w)).
    + cbn [snd start world trace app].
      rewrite (calls_app _ _ _ w), calls_backoff. cbn. lia.
    + unfold n. lia.
    + intros i Hi. cbn [start world]. rewrite outcome_requestOver.
      destruct (Hnet i ltac:(unfold n in Hi; lia)) as (name & msg & -> & Hname).
      cbn [fetchWithTimeout].
      destruct (String.eqb name "AbortError") eqn:E;
        [apply String.eqb_eq in E; congruence | reflexivity].
Qed.

End TimeoutFacts.

Definition alwaysAborted (n : nat) : Client.Completion Client.Response * nat :=
  (Client.Throw (Client.ThrownError "AbortError" "The operation was aborted"), S n).

Lemma retryRequest_does_not_retry_timeouts_witness :
  let run := Client.retryRequest (requestOver alwaysAborted) 3 1000 0%nat in
  fst run = Client.Throw (Client.ThrownApiClientError
                            (Client.mkApiClientError (JS.JStr "Request timeout") (Some 408)
                               (JS.JStr "TIMEOUT") JS.JUndefined)) /\
  Client.trace (snd run) = [Client.Invoked].
Proof.
  apply (proj1 (retryRequest_does_not_retry_timeouts alwaysAborted 3 1000 0%nat
                  ltac:(lia))).
  eexists. reflexivity.
Defined.

(** ** validation/index.ts: the other schemas *)

Section MoneySchemaFacts.
Import JS Validation.

Lemma numLt_finite (a b : Q) : numLt (Finite a) (Finite b) = negb (Qle_bool b a).
Proof. reflexivity. Qed.

(** X14.  [PositiveCentsSchema] accepts a value iff it is a number that is an
    integer greater than zero, and hands it back unchanged; zero is turned
    down as too small. *)
Theorem PositiveCentsSchema_accepts_positive_integers (p : list PathSegment)
    (v : JsValue) :
  ((exists out, Zod.PositiveCentsSchema p v = Zod.OK out)
   <-> (exists n z, v = JNum n /\ isInt n z /\ 0 < z)) /\
  (forall out, Zod.PositiveCentsSchema p v = Zod.OK out -> out = v) /\
  Zod.PositiveCentsSchema p (JNum (num 0))
  = Zod.DIRTY (JNum (num 0)) [mkIssue "too_small" p "Number must be greater than 0"].
Proof.
  assert (Hfin : forall q,
    Zod.PositiveCentsSchema p (JNum (Finite q))
    = Zod.checked (JNum (Finite q))
        ((if isInteger (Finite q) then []
          else [mkIssue "invalid_type" p "Expected integer, received float"])
         ++ (if Zod.numLe (Finite q) (num 0)
             then [mkIssue "too_small" p "Number must be greater than 0"] else []))).
  { intros q. unfold Zod.PositiveCentsSchema, Zod.number, Zod.finite, Zod.positive,
      Zod.int, Zod.z_number.
    cbn [app flat_map Zod.runNumberCheck isFinite].
    rewrite app_nil_r.
    destruct (Zod.numLe (Finite q) (num 0)); reflexivity. }
  split; [split|split].
  - intros [out H]. destruct v as [| | |[| | |q]| | |]; try discriminate.
    rewrite Hfin in H.
    destruct (isInteger (Finite q)) eqn:E; [|discriminate].
    apply isInteger_iff in E as [z Hz]. exists (Finite q), z.
    split; [reflexivity|]. split; [exact Hz|].
    unfold Zod.numLe in H. rewrite (numLt_int_r (Finite q) z 0 Hz) in H.
    destruct (0 <? z) eqn:E0; [now apply Z.ltb_lt in E0 | discriminate].
  - intros (n & z & -> & Hz & Hpos). destruct n as [| | |q]; try contradiction.
    exists (JNum (Finite q)). rewrite Hfin.
    rewrite (proj2 (isInteger_iff (Finite q)) (ex_intro _ z Hz)).
    unfold Zod.numLe. rewrite (numLt_int_r (Finite q) z 0 Hz).
    now rewrite (proj2 (Z.ltb_lt 0 z) Hpos).
  - intros out H. destruct v as [| | |[| | |q]| | |]; try discriminate.
    rewrite Hfin in H.
    destruct (isInteger (Finite q)); [|discriminate].
    destruct (Zod.numLe (Finite q) (num 0)); [discriminate|].
    now injection H as <-.
  - reflexivity.
Qed.

(** X15.  [PercentageSchema] accepts a value iff it is a number from 0 to 1,
    both ends included, and hands it back unchanged; NaN and the infinities
    are turned down. *)
Theorem PercentageSchema_accepts_unit_interval (p : list PathSegment) (v : JsValue) :
  ((exists out, PercentageSchema p v = Valid out)
   <-> (exists q, v = JNum (Finite q) /\ (0 <= q)%Q /\ (q <= 1)%Q)) /\
  (forall out, PercentageSchema p v = Valid out -> out = v).
Proof.
  assert (Hfin : forall q,
    PercentageSchema p (JNum (Finite q))
    = match (if Qle_bool 0 q then []
             else [mkIssue "too_small" p "Number must be greater than or equal to 0"])
            ++ (if Qle_bool q 1 then []
                else [mkIssue "too_big" p "Number must be less than or equal to 1"])
      with
      | [] => Valid (JNum (Finite q))
      | issues => Invalid issues
      end).
  { intros q. unfold PercentageSchema, number, max, min, z_number.
    cbn [app flat_map runNumberCheck]. rewrite app_nil_r.
    unfold num. rewrite !numLt_finite.
    change (inject_Z 0) with 0%Q. change (inject_Z 1) with 1%Q.
    destruct (Qle_bool 0 q), (Qle_bool q 1); reflexivity. }
  split; [split|].
  - intros [out H]. destruct v as [| | |[| | |q]| | |]; try discriminate.
    rewrite Hfin in H. exists q. split; [reflexivity|].
    destruct (Qle_bool 0 q) eqn:E0; [|discriminate].
    destruct (Qle_bool q 1) eqn:E1; [|discriminate].
    split; now apply Qle_bool_iff.
  - intros (q & -> & H0 & H1). exists (JNum (Finite q)). rewrite Hfin.
    apply Qle_bool_iff in H0, H1. now rewrite H0, H1.
  - intros out H. destruct v as [| | |[| | |q]| | |]; try discriminate.
    rewrite Hfin in H.
    destruct (Qle_bool 0 q); [|discriminate].
    destruct (Qle_bool q 1); [|discriminate].
    now injection H as <-.
Qed.

End MoneySchemaFacts.

Section BankNumberFacts.
Import JS Security Validation.

Lemma regex_only (test : string -> bool) (msg : string) (p : list PathSegment)
    (s : string) :
  str (regex test msg z_string) p (JStr s)
  = if test s then Valid (JStr s) else Invalid [mkIssue "invalid_string" p msg].
Proof.
  unfold str, regex, z_string. cbn [app flat_map runStringCheck].
  destruct (test s); reflexivity.
Qed.

Lemma accountNumberPattern_iff (s : string) :
  accountNumberPattern s = true <-> allChars isDigit s = true /\ 4 <= len s <= 17.
Proof.
  unfold accountNumberPattern. rewrite !andb_true_iff, !Z.leb_le. tauto.
Qed.

(** X16.  [AccountNumberSchema] accepts exactly the strings of 4 to 17 digits,
    and [maskAccountNumber] shows the last four digits of every one of them:
    behind as many asterisks as there are other digits, up to four -- so an
    accepted number of four digits is shown whole. *)
Theorem maskAccountNumber_on_valid_numbers (p : list PathSegment) (accountNumber : string) :
  (AccountNumberSchema p (JStr accountNumber) = Valid (JStr accountNumber)
   <-> allChars isDigit accountNumber = true /\ 4 <= len accountNumber <= 17) /\
  (AccountNumberSchema p (JStr accountNumber) = Valid (JStr accountNumber) ->
   maskAccountNumber accountNumber
   = Some (repeatN "*" (Z.to_nat (Z.min (len accountNumber - 4) 4))
           +:+ String.substring (String.length accountNumber - 4) 4 accountNumber) /\
   (len accountNumber = 4 -> maskAccountNumber accountNumber = Some accountNumber)).
Proof.
  assert (Hiff : AccountNumberSchema p (JStr accountNumber) = Valid (JStr accountNumber)
                 <-> accountNumberPattern accountNumber = true).
  { unfold AccountNumberSchema. rewrite regex_only.
    destruct (accountNumberPattern accountNumber); split; congruence. }
  split; [now rewrite Hiff, accountNumberPattern_iff|].
  intros H. apply Hiff, accountNumberPattern_iff in H as [_ Hlen].
  assert (Hshort : len accountNumber = 4 -> maskAccountNumber accountNumber = Some accountNumber)
    by (intros E; apply maskAccountNumber_short; lia).
  split; [|exact Hshort].
  destruct (Z.eq_dec (len accountNumber) 4) as [E|E].
  - rewrite (Hshort E), E. cbn [Z.sub Z.min Z.to_nat repeatN].
    rewrite append_nil_l. f_equal.
    assert (En : String.length accountNumber = 4%nat) by (unfold len in E; lia).
    pose proof (substring_all accountNumber) as Hall. rewrite En in Hall.
    rewrite En. cbn [Nat.sub]. now rewrite Hall.
  - apply maskAccountNumber_long. lia.
Qed.

Lemma maskAccountNumber_on_valid_numbers_witness :
  maskAccountNumber "1234567890"
  = Some (repeatN "*" (Z.to_nat (Z.min (len "1234567890" - 4) 4))
          +:+ String.substring (String.length "1234567890" - 4) 4 "1234567890") /\
  (len "1234567890" = 4 -> maskAccountNumber "1234567890" = Some "1234567890").
Proof.
  apply (proj2 (maskAccountNumber_on_valid_numbers [] "1234567890")). reflexivity.
Defined.

(** X17.  [sanitizeForLog] treats bank numbers as it treats API keys, not as
    [maskAccountNumber] does: under the key [accountNumber] an accepted
    account number of up to 8 digits is logged whole and a longer one with
    its first 8 digits, and under [routingNumber] an accepted routing number
    is logged with 8 of its 9 digits. *)
Theorem sanitizeForLog_bank_numbers (accountNumber routingNumber : string) :
  AccountNumberSchema [] (JStr accountNumber) = Valid (JStr accountNumber) ->
  RoutingNumberSchema [] (JStr routingNumber) = Valid (JStr routingNumber) ->
  sanitizeForLog [ ("accountNumber", JStr accountNumber);
                   ("routingNumber", JStr routingNumber) ]
  = [ ("accountNumber",
       JStr (if len accountNumber <=? 8 then accountNumber
             else String.substring 0 8 accountNumber +:+ "..."));
      ("routingNumber", JStr (String.substring 0 8 routingNumber +:+ "...")) ].
Proof.
  unfold AccountNumberSchema, RoutingNumberSchema. rewrite !regex_only.
  destruct (accountNumberPattern accountNumber) eqn:Ha; [|discriminate].
  destruct (routingNumberPattern routingNumber) eqn:Hr; [|discriminate].
  intros _ _. apply accountNumberPattern_iff in Ha as [_ Ha].
  unfold routingNumberPattern in Hr. apply andb_true_iff in Hr as [_ Hr].
  apply Z.eqb_eq in Hr.
  unfold sanitizeForLog, sanitizeForLogWith.
  cbn [flat_map fst snd sanitizeEntry assigned String.eqb Ascii.eqb Bool.eqb app].
  change (isSensitive defaultSensitiveFields "accountNumber") with true.
  change (isSensitive defaultSensitiveFields "routingNumber") with true.
  cbv iota. rewrite (sanitizeApiKey_long routingNumber) by lia.
  do 3 f_equal.
  destruct (len accountNumber <=? 8) eqn:E.
  - apply Z.leb_le in E. unfold sanitizeApiKey.
    rewrite isEmpty_false by lia.
    now rewrite (proj2 (Z.leb_le (len accountNumber) 8) E).
  - apply Z.leb_gt in E. apply sanitizeApiKey_long. exact E.
Qed.

Lemma sanitizeForLog_bank_numbers_witness :
  sanitizeForLog [ ("accountNumber", JStr "12345678"); ("routingNumber", JStr "021000021") ]
  = [ ("accountNumber", JStr "12345678"); ("routingNumber", JStr "02100002...") ].
Proof.
  apply (sanitizeForLog_bank_numbers "12345678" "021000021"); reflexivity.
Defined.

End BankNumberFacts.

Section DateRangeFacts.
Import JS Validation.

(** The year, month and day a date string names. *)
Definition dateFields (s : string) : Z * Z * Z :=
  (fromDigits 10 0 (String.substring 0 4 s),
   fromDigits 10 0 (String.substring 5 2 s),
   fromDigits 10 0 (String.substring 8 2 s)).

(** The first date is not after the second. *)
Definition notAfter (a b : Z * Z * Z) : Prop :=
  let '(y1, m1, d1) := a in
  let '(y2, m2, d2) := b in
  y1 < y2 \/ (y1 = y2 /\ (m1 < m2 \/ (m1 = m2 /\ d1 <= d2))).

Lemma isDigit_value (c : ascii) :
  isDigit c = true -> digitValue c = charCode c - 48 /\ 48 <= charCode c <= 57.
Proof.
  intros H. unfold digitValue. rewrite H. split; [reflexivity|].
  unfold isDigit in H. apply andb_true_iff in H as [H1 H2].
  apply Nat.leb_le in H1, H2. unfold charCode. lia.
Qed.

(** On dates of the form YYYY-MM-DD, the order of strings is the order of
    the calendar. *)
Lemma strLe_dates (a b : string) :
  datePattern a = true -> datePattern b = true ->
  (Zod.strLe a b = true <-> notAfter (dateFields a) (dateFields b)).
Proof.
  unfold datePattern.
  destruct a as [|a1 [|a2 [|a3 [|a4 [|a5 [|a6 [|a7 [|a8 [|a9 [|a10 [|? ?]]]]]]]]]]];
    try discriminate.
  destruct b as [|b1 [|b2 [|b3 [|b4 [|b5 [|b6 [|b7 [|b8 [|b9 [|b10 [|? ?]]]]]]]]]]];
    try discriminate.
  rewrite !andb_true_iff.
  intros [[[[[[[[[A1 A2] A3] A4] A5] A6] A7] A8] A9] A10]
         [[[[[[[[[B1 B2] B3] B4] B5] B6] B7] B8] B9] B10].
  apply Ascii.eqb_eq in A5, A8, B5, B8. subst a5 a8 b5 b8.
  apply isDigit_value in A1 as [Ea1 Ra1], A2 as [Ea2 Ra2], A3 as [Ea3 Ra3],
    A4 as [Ea4 Ra4], A6 as [Ea6 Ra6], A7 as [Ea7 Ra7], A9 as [Ea9 Ra9],
    A10 as [Ea10 Ra10].
  apply isDigit_value in B1 as [Eb1 Rb1], B2 as [Eb2 Rb2], B3 as [Eb3 Rb3],
    B4 as [Eb4 Rb4], B6 as [Eb6 Rb6], B7 as [Eb7 Rb7], B9 as [Eb9 Rb9],
    B10 as [Eb10 Rb10].
  unfold dateFields, notAfter. cbn [String.substring fromDigits].
  rewrite Ea1, Ea2, Ea3, Ea4, Ea6, Ea7, Ea9, Ea10, Eb1, Eb2, Eb3, Eb4, Eb6, Eb7, Eb9, Eb10.
  unfold Zod.strLe. rewrite negb_true_iff. cbn [Zod.strLt].
  change (charCode "-") with 45. change (45 <? 45) with false. cbv iota.
  repeat match goal with
         | |- context [?x <? ?y] =>
             let E := fresh "E" in
             destruct (x <? y) eqn:E;
             [apply Z.ltb_lt in E | apply Z.ltb_ge in E]
         end;
    split; intros H; first [discriminate | reflexivity | lia].
Qed.

Lemma DateSchema_string (p : list PathSegment) (s : string) :
  Zod.DateSchema p (JStr s)
  = if datePattern s then Zod.OK (JStr s)
    else Zod.DIRTY (JStr s) [mkIssue "invalid_string" p "Invalid"].
Proof.
  unfold Zod.DateSchema, Zod.str, regex, z_string.
  cbn [app flat_map runStringCheck]. destruct (datePattern s); reflexivity.
Qed.

Lemma DateSchema_aborts (p : list PathSegment) (v : JsValue) :
  (forall s, v <> JStr s) -> Zod.DateSchema p v = Zod.INVALID [invalidType "string" p v].
Proof. intros H. destruct v; try reflexivity. now destruct (H s). Qed.

Definition patternIssue (key : string) (s : string) : list ZodIssue :=
  if datePattern s then [] else [mkIssue "invalid_string" [Key key] "Invalid"].

(** The parse of an object whose two dates are strings. *)
Lemma DateRangeSchema_strings (entries : list (string * JsValue))
    (startDate endDate : string) :
  prop entries "startDate" = JStr startDate ->
  prop entries "endDate" = JStr endDate ->
  Zod.DateRangeSchema [] (JObj entries)
  = let value := JObj [("startDate", JStr startDate); ("endDate", JStr endDate)] in
    let issues := patternIssue "startDate" startDate ++ patternIssue "endDate" endDate in
    if Zod.strLe startDate endDate then Zod.checked value issues
    else Zod.DIRTY value
           (issues ++ [mkIssue "custom" []
                         "Start date must be before or equal to end date"]).
Proof.
  intros Hs He.
  unfold Zod.DateRangeSchema, Zod.refine, Zod.object, patternIssue.
  cbn [map flat_map existsb fst snd Zod.parseField app].
  rewrite Hs, He, !DateSchema_string.
  destruct (datePattern startDate), (datePattern endDate);
    cbn [Zod.aborted Zod.issuesIn Zod.outputEntry app orb Zod.checked
         Zod.startNotAfterEnd prop lookupEntry String.eqb Ascii.eqb Bool.eqb];
    destruct (Zod.strLe startDate endDate); reflexivity.
Qed.

(** A date that is no string aborts the parse. *)
Lemma DateRangeSchema_aborts (entries : list (string * JsValue)) :
  (forall s, prop entries "startDate" <> JStr s) \/
  (forall s, prop entries "endDate" <> JStr s) ->
  exists issues, Zod.DateRangeSchema [] (JObj entries) = Zod.INVALID issues.
Proof.
  intros H.
  unfold Zod.DateRangeSchema, Zod.refine, Zod.object.
  cbn [map flat_map existsb fst snd Zod.parseField app].
  destruct H as [H|H].
  - rewrite (DateSchema_aborts _ _ H). cbn [Zod.aborted orb]. eauto.
  - rewrite (DateSchema_aborts _ (prop entries "endDate") H).
    cbn [Zod.aborted orb]. rewrite orb_true_r. eauto.
Qed.

(** X18.  [DateRangeSchema] accepts an object iff its [startDate] and
    [endDate] are strings of the form YYYY-MM-DD and the start is not after
    the end in the calendar -- the comparison of the two strings decides just
    that.  Two well-formed dates in the wrong order give one issue, with the
    schema's message, at the path of the object. *)
Theorem DateRangeSchema_orders_dates (entries : list (string * JsValue)) :
  ((exists out, Zod.safeParse Zod.DateRangeSchema (JObj entries) = SafeParseSuccess out)
   <-> (exists startDate endDate,
          prop entries "startDate" = JStr startDate /\
          prop entries "endDate" = JStr endDate /\
          datePattern startDate = true /\ datePattern endDate = true /\
          notAfter (dateFields startDate) (dateFields endDate))) /\
  (forall startDate endDate,
     prop entries "startDate" = JStr startDate ->
     prop entries "endDate" = JStr endDate ->
     datePattern startDate = true -> datePattern endDate = true ->
     ~ notAfter (dateFields startDate) (dateFields endDate) ->
     Zod.safeParse Zod.DateRangeSchema (JObj entries)
     = SafeParseError
         (mkZodError [mkIssue "custom" []
                        "Start date must be before or equal to end date"])).
Proof.
  split; [split|].
  - intros [out H]. unfold Zod.safeParse in H.
    assert (Hstr : exists s e, prop entries "startDate" = JStr s /\
                               prop entries "endDate" = JStr e).
    { destruct (prop entries "startDate") as [| | | |s| |] eqn:Hs;
        try (destruct (DateRangeSchema_aborts entries) as [issues Hi];
             [left; rewrite Hs; discriminate | rewrite Hi in H; discriminate]).
      destruct (prop entries "endDate") as [| | | |e| |] eqn:He;
        try (destruct (DateRangeSchema_aborts entries) as [issues Hi];
             [right; rewrite He; discriminate | rewrite Hi in H; discriminate]).
      now exists s, e. }
    destruct Hstr as (s & e & Hs & He).
    rewrite (DateRangeSchema_strings entries s e Hs He) in H. cbv zeta in H.
    unfold patternIssue in H.
    exists s, e. split; [exact Hs|]. split; [exact He|].
    destruct (Zod.strLe s e) eqn:Hle; [|discriminate].
    destruct (datePattern s) eqn:Ps; [|discriminate].
    destruct (datePattern e) eqn:Pe; [|discriminate].
    repeat split. now apply strLe_dates.
  - intros (s & e & Hs & He & Ps & Pe & Hord).
    unfold Zod.safeParse. rewrite (DateRangeSchema_strings entries s e Hs He).
    cbv zeta. unfold patternIssue. rewrite Ps, Pe.
    rewrite (proj2 (strLe_dates s e Ps Pe) Hord). cbn [app Zod.checked]. eauto.
  - intros s e Hs He Ps Pe Hord.
    unfold Zod.safeParse. rewrite (DateRangeSchema_strings entries s e Hs He).
    cbv zeta. unfold patternIssue. rewrite Ps, Pe.
    destruct (Zod.strLe s e) eqn:Hle; [|reflexivity].
    now apply strLe_dates in Hle.
Qed.

Definition january : list (string * JsValue) :=
  [ ("startDate", JStr "2026-01-01"); ("endDate", JStr "2026-01-31") ].

Definition backwards : list (string * JsValue) :=
  [ ("startDate", JStr "2026-02-02"); ("endDate", JStr "2026-01-01") ].

Lemma DateRangeSchema_orders_dates_witness :
  (exists out, Zod.safeParse Zod.DateRangeSchema (JObj january) = SafeParseSuccess out) /\
  Zod.safeParse Zod.DateRangeSchema (JObj backwards)
  = SafeParseError
      (mkZodError [mkIssue "custom" [] "Start date must be before or equal to end date"]).
Proof.
  split.
  - apply (proj1 (DateRangeSchema_orders_dates january)).
    exists "2026-01-01", "2026-01-31". repeat split.
    change (notAfter (2026, 1, 1) (2026, 1, 31)). unfold notAfter. lia.
  - apply (proj2 (DateRangeSchema_orders_dates backwards) "2026-02-02" "2026-01-01");
      try reflexivity.
    change (~ notAfter (2026, 2, 2) (2026, 1, 1)). unfold notAfter. lia.
Defined.

End DateRangeFacts.

Section ObjectOutputFacts.
Import JS Validation.

Lemma outputEntry_keys (entries : list (string * JsValue)) (kv : string * ZodType)
    (r : ParseResult) :
  map fst (outputEntry entries kv r) = [] \/ map fst (outputEntry entries kv r) = [fst kv].
Proof.
  destruct r as [v|issues]; [|now left].
  destruct v; cbn [outputEntry]; try (now right).
  destruct (hasKey entries (fst kv)); [now right | now left].
Qed.

(** The keys of a parsed object are keys of the shape, in the order of the
    shape. *)
Lemma object_output_keys (shape : list (string * ZodType)) (p : list PathSegment)
    (entries : list (string * JsValue)) (out : JsValue) :
  object shape p (JObj entries) = Valid out ->
  exists outEntries, out = JObj outEntries /\ sublist (map fst outEntries) (map fst shape).
Proof.
  intros H. apply object_valid_output in H. eexists. split; [exact H|].
  clear H. induction shape as [|kv shape IH]; [constructor|].
  cbn [flat_map map]. rewrite map_app.
  destruct (outputEntry_keys entries kv (parseField p entries kv)) as [-> | ->].
  - now apply sublist_cons.
  - now apply sublist_skip.
Qed.

(** X19.  An object parsed by [TransactionQuerySchema] holds fields of the
    schema only, each at most once and in the order of the schema: a key of
    the input that the schema does not name is dropped, not reported. *)
Theorem TransactionQuerySchema_strips_unknown_keys (p : list PathSegment)
    (entries : list (string * JsValue)) (out : JsValue) :
  TransactionQuerySchema p (JObj entries) = Valid out ->
  exists outEntries,
    out = JObj outEntries /\
    sublist (map fst outEntries)
      ["entityId"; "accountId"; "startDate"; "endDate"; "minAmount"; "maxAmount";
       "search"; "limit"; "offset"] /\
    (forall key, hasKey outEntries key = true ->
       In key ["entityId"; "accountId"; "startDate"; "endDate"; "minAmount";
               "maxAmount"; "search"; "limit"; "offset"]).
Proof.
  intros H. destruct (object_output_keys _ _ _ _ H) as (outEntries & -> & Hsub).
  exists outEntries. split; [reflexivity|]. split; [exact Hsub|].
  intros key Hkey.
  assert (Hin : In key (map fst outEntries)).
  { unfold hasKey in Hkey. clear Hsub H.
    induction outEntries as [|[k v] rest IH]; [discriminate|].
    cbn [lookupEntry] in Hkey. cbn [map fst].
    destruct (String.eqb key k) eqn:E; [left; symmetry; now apply String.eqb_eq|].
    right. now apply IH. }
  apply list_elem_of_In. apply list_elem_of_In in Hin.
  exact (elem_of_sublist _ _ _ Hin Hsub).
Qed.

Lemma TransactionQuerySchema_strips_unknown_keys_witness :
  exists outEntries,
    TransactionQuerySchema [] (JObj [ ("page", JNum (num 2)); ("limit", JNum (num 50)) ])
    = Valid (JObj outEntries) /\
    hasKey outEntries "page" = false.
Proof.
  destruct (TransactionQuerySchema_strips_unknown_keys []
              [ ("page", JNum (num 2)); ("limit", JNum (num 50)) ] _ eq_refl)
    as (outEntries & Hout & _ & Hkeys).
  exists outEntries. split; [rewrite <- Hout; reflexivity|].
  destruct (hasKey outEntries "page") eqn:E; [|reflexivity].
  apply Hkeys in E. simpl in E. intuition discriminate.
Defined.

(** X20.  When [TransactionQuerySchema] turns an input down, every name in
    the [fields] of the formatted error is a field of the schema; an input
    that is no object at all is reported under the empty name. *)
Theorem formatValidationError_names_fields (data : JsValue) (error : ZodError)
    (key : string) :
  safeValidate TransactionQuerySchema data = Failure error ->
  is_Some (fields (formatValidationError error) !! key) ->
  (exists entries, data = JObj entries /\
     In key ["entityId"; "accountId"; "startDate"; "endDate"; "minAmount";
             "maxAmount"; "search"; "limit"; "offset"]) \/
  ((forall entries, data <> JObj entries) /\ key = EmptyString).
Proof.
  unfold safeValidate, safeParse.
  destruct (TransactionQuerySchema [] data) as [out|issues] eqn:Hparse; [discriminate|].
  intros Herr. injection Herr as <-.
  unfold formatValidationError. cbn [fields errors]. intros Hentry.
  assert (Hproto : key <> "__proto__").
  { intros ->. rewrite lookup_foldl_setField_proto, lookup_empty in Hentry.
    destruct Hentry as [x Hx]. discriminate. }
  rewrite lookup_foldl_setField, is_Some_foldl_last, lookup_empty in Hentry
    by exact Hproto.
  destruct Hentry as [[x Hx]|(i & Hi & Hkey)]; [discriminate|].
  assert (Hissues : issues = issuesOf (TransactionQuerySchema [] data))
    by now rewrite Hparse.
  destruct data as [| | | | | |entries].
  1-6: right; split; [discriminate|]; subst issues;
       cbn in Hi; destruct Hi as [<-|[]]; rewrite <- Hkey; reflexivity.
  left. exists entries. split; [reflexivity|].
  unfold TransactionQuerySchema in Hissues. rewrite issuesOf_object in Hissues.
  subst issues. apply in_flat_map in Hi as ([k s] & Hks & Hi).
  pose proof TransactionQueryShape_local as Hlocal.
  rewrite List.Forall_forall in Hlocal. specialize (Hlocal _ Hks). cbn [snd] in Hlocal.
  apply Hlocal in Hi. cbn [fst app] in Hi.
  rewrite Hi in Hkey. cbn in Hkey. subst key.
  change (In (fst (k, s)) (map fst TransactionQueryShape)).
  now apply in_map.
Qed.

Lemma formatValidationError_names_fields_witness :
  (exists entries, JNull = JObj entries /\
     In EmptyString ["entityId"; "accountId"; "startDate"; "endDate"; "minAmount";
                     "maxAmount"; "search"; "limit"; "offset"]) \/
  ((forall entries, JNull <> JObj entries) /\ EmptyString = EmptyString).
Proof.
  apply (formatValidationError_names_fields JNull
           (mkZodError [invalidType "object" [] JNull]) EmptyString).
  - reflexivity.
  - vm_compute. eauto.
Defined.

End ObjectOutputFacts.

Section GoalInputFacts.
Import JS Validation.

Lemma object_valid_iff (shape : list (string * ZodType)) (p : list PathSegment)
    (entries : list (string * JsValue)) :
  (exists out, object shape p (JObj entries) = Valid out)
  <-> flat_map (fun kv => issuesOf (parseField p entries kv)) shape = [].
Proof.
  rewrite <- issuesOf_object. destruct (object shape p (JObj entries)) as [out|issues] eqn:E.
  - split; eauto.
  - split; [intros [out H]; discriminate|]. cbn [issuesOf]. intros ->.
    exfalso. unfold object in E.
    destruct (flat_map _ (map _ shape)); discriminate.
Qed.

Lemma DateSchema_issues (p : list PathSegment) (v : JsValue) :
  issuesOf (DateSchema p v) = [] <-> exists s, v = JStr s /\ datePattern s = true.
Proof.
  unfold DateSchema. destruct v as [| | | |s| |];
    try (split; [discriminate | intros (s & H & _); discriminate]).
  rewrite regex_only. destruct (datePattern s) eqn:E.
  - split; [eauto | reflexivity].
  - split; [discriminate | intros (s' & H & Hs'); injection H as <-; congruence].
Qed.

Lemma GoalInputSchema_swap (entries swapped : list (string * JsValue)) :
  (forall key, key <> "startDate" -> key <> "endDate" ->
     prop swapped key = prop entries key) ->
  prop swapped "startDate" = prop entries "endDate" ->
  prop swapped "endDate" = prop entries "startDate" ->
  (exists out, GoalInputSchema [] (JObj entries) = Valid out) ->
  exists out, GoalInputSchema [] (JObj swapped) = Valid out.
Proof.
  intros Hother Hstart Hend. unfold GoalInputSchema. rewrite !object_valid_iff.
  unfold GoalInputShape. cbn [flat_map parseField fst snd app].
  rewrite !(Hother "name"), !(Hother "description"), !(Hother "entityId"),
    !(Hother "targetValue"), !(Hother "currentValue"), !(Hother "unit"),
    !(Hother "phase"), Hstart, Hend by discriminate.
  intros H.
  repeat match type of H with
         | _ ++ _ = [] => apply app_eq_nil in H as [? H]
         end.
  repeat match goal with
         | E : ?l = [] |- context [?l] => rewrite E
         end.
  cbn [app].
  assert (Es : issuesOf (DateSchema [Key "startDate"] (prop entries "endDate")) = []).
  { apply DateSchema_issues. eapply DateSchema_issues. eassumption. }
  assert (Ee : issuesOf (DateSchema [Key "endDate"] (prop entries "startDate")) = []).
  { apply DateSchema_issues. eapply DateSchema_issues. eassumption. }
  now rewrite Es, Ee.
Qed.

(** X21.  [GoalInputSchema] does not look at the order of its two dates:
    exchanging [startDate] and [endDate] of an input changes nothing to
    whether it is accepted, so a goal that ends before it starts passes. *)
Theorem GoalInputSchema_ignores_date_order (entries swapped : list (string * JsValue)) :
  (forall key, key <> "startDate" -> key <> "endDate" ->
     prop swapped key = prop entries key) ->
  prop swapped "startDate" = prop entries "endDate" ->
  prop swapped "endDate" = prop entries "startDate" ->
  ((exists out, GoalInputSchema [] (JObj entries) = Valid out)
   <-> (exists out, GoalInputSchema [] (JObj swapped) = Valid out)).
Proof.
  intros Hother Hstart Hend. split.
  - now apply GoalInputSchema_swap.
  - apply GoalInputSchema_swap; [|congruence..].
    intros key H1 H2. symmetry. now apply Hother.
Qed.

Definition goalForward : list (string * JsValue) :=
  [ ("name", JStr "Reach $100K"); ("targetValue", JNum (num 10000000));
    ("startDate", JStr "2026-01-01"); ("endDate", JStr "2026-12-31") ].

Definition goalBackward : list (string * JsValue) :=
  [ ("name", JStr "Reach $100K"); ("targetValue", JNum (num 10000000));
    ("startDate", JStr "2026-12-31"); ("endDate", JStr "2026-01-01") ].

Lemma prop_goalBackward (key : string) :
  key <> "startDate" -> key <> "endDate" -> prop goalBackward key = prop goalForward key.
Proof.
  intros H1 H2. unfold prop, goalBackward, goalForward. cbn [lookupEntry].
  destruct (String.eqb key "name"); [reflexivity|].
  destruct (String.eqb key "targetValue"); [reflexivity|].
  destruct (String.eqb key "startDate") eqn:E1; [apply String.eqb_eq in E1; contradiction|].
  destruct (String.eqb key "endDate") eqn:E2; [apply String.eqb_eq in E2; contradiction|].
  reflexivity.
Qed.

Lemma GoalInputSchema_ignores_date_order_witness :
  exists out, GoalInputSchema [] (JObj goalBackward) = Valid out.
Proof.
  apply (proj1 (GoalInputSchema_ignores_date_order goalForward goalBackward
                  prop_goalBackward eq_refl eq_refl)).
  eexists. reflexivity.
Defined.

End GoalInputFacts.

(** ** utils/currency.ts: where the arithmetic is exact *)

Section ExactRounding.

(** A mantissa that is a 53-bit number times a power of two is rounded to
    that 53-bit number: nothing is lost. *)
Lemma binary_round_aux_multiple (sx : bool) (m : positive) (n ex : Z) :
  2 ^ 52 <= Zpos m < 2 ^ 53 -> 0 <= n ->
  -1074 <= ex -> ex + n <= 970 ->
  binary_round_aux prec emax sx (Zpos m * 2 ^ n) ex loc_Exact = S754_finite sx m (ex + n).
Proof.
  intros Hm Hn Hlo Hhi.
  pose proof (pow2_pos n Hn) as Hp.
  set (mx := Zpos m * 2 ^ n).
  assert (Hmx : 2 ^ 52 <= mx).
  { unfold mx. assert (Zpos m * 1 <= Zpos m * 2 ^ n) by (apply Z.mul_le_mono_nonneg_l; lia).
    lia. }
  assert (Hd : Zdigits2 mx = 53 + n).
  { apply Zdigits2_unique; [|lia]. unfold mx.
    replace (53 + n - 1) with (52 + n) by lia. rewrite !Z.pow_add_r by lia.
    split; [apply Z.mul_le_mono_nonneg_r | apply Z.mul_lt_mono_pos_r]; lia. }
  assert (Hloc : located mx 1 mx loc_Exact) by (cbn [located]; lia).
  pose proof (shr_fexp_located mx 1 mx ex loc_Exact ltac:(lia) ltac:(lia)
                ltac:(lia) ltac:(lia) Hloc) as Hloc1.
  destruct (shr_fexp_spec mx ex loc_Exact ltac:(lia) ltac:(lia) ltac:(lia)) as [Hm1 He1].
  rewrite Hd in Hloc1, Hm1, He1.
  replace (53 + n - 53) with n in Hloc1, Hm1, He1 by lia.
  unfold binary_round_aux.
  destruct (shr_fexp prec emax mx ex loc_Exact) as [mrs' e'].
  cbn [fst snd] in Hm1, He1, Hloc1.
  assert (Em1 : shr_m mrs' = Zpos m) by (rewrite Hm1; unfold mx; apply Z.div_mul; lia).
  rewrite Em1 in *. rewrite Z.mul_1_r in Hloc1.
  pose proof (round_nearest_even_located mx (2 ^ n) (Zpos m) _ Hp Hloc1) as [Hup Hdown].
  pose proof (round_nearest_even_range (Zpos m) (loc_of_shr_record mrs')) as Hr.
  set (m2 := round_nearest_even (Zpos m) (loc_of_shr_record mrs')) in *.
  assert (Em2 : m2 = Zpos m).
  { destruct Hr as [E|E]; [exact E | exfalso]. rewrite E in Hup. unfold mx in Hup. lia. }
  rewrite Em2.
  assert (Hshr : shr_fexp prec emax (Zpos m) e' loc_Exact
                 = (shr_record_of_loc (Zpos m) loc_Exact, e')).
  { unfold shr_fexp. rewrite (digits_of_53_bits m Hm), fexp_normal by lia.
    replace (53 + e' - 53 - e') with 0 by lia. reflexivity. }
  rewrite Hshr. cbn [shr_record_of_loc shr_m].
  assert (Hle : (e' <=? emax - prec) = true) by (apply Z.leb_le; unfold emax, prec; lia).
  rewrite Hle, He1. reflexivity.
Qed.

(** The 53-bit form of a positive integer is unique. *)
Lemma normal_form_unique (k a b : Z) :
  0 <= a -> 0 <= b ->
  2 ^ 52 <= k * 2 ^ a < 2 ^ 53 -> 2 ^ 52 <= k * 2 ^ b < 2 ^ 53 -> a = b.
Proof.
  intros Ha Hb Hka Hkb.
  assert (Hk : 0 < k).
  { pose proof (pow2_pos a Ha). destruct (Z_lt_le_dec 0 k); [assumption|].
    assert (k * 2 ^ a <= 0) by (apply Z.mul_nonpos_nonneg; lia). lia. }
  assert (Hstep : forall x y, 0 <= x -> x < y ->
            2 ^ 52 <= k * 2 ^ x -> k * 2 ^ y < 2 ^ 53 -> False).
  { intros x y Hx Hxy H1 H2.
    assert (2 * 2 ^ x <= 2 ^ y).
    { rewrite <- Z.pow_succ_r by lia. apply Z.pow_le_mono_r; lia. }
    assert (k * (2 * 2 ^ x) <= k * 2 ^ y) by (apply Z.mul_le_mono_nonneg_l; lia).
    change (2 ^ 53) with (2 * 2 ^ 52) in H2. lia. }
  destruct (Z.lt_trichotomy a b) as [H|[H|H]]; [exfalso|exact H|exfalso].
  - apply (Hstep a b); lia.
  - apply (Hstep b a); lia.
Qed.

(** Rounding the integer [k * 2^j] set at the exponent [-j] gives the 53-bit
    form of [k]. *)
Lemma binary_round_scaled (sx : bool) (P m : positive) (k j c : Z) :
  Zpos P = k * 2 ^ j -> 0 <= j <= 1000 ->
  Zpos m = k * 2 ^ c -> 0 <= c -> 2 ^ 52 <= Zpos m < 2 ^ 53 ->
  binary_round prec emax sx P (- j) = S754_finite sx m (- c).
Proof.
  intros HP Hj Hm Hc Hnorm.
  pose proof (pow2_pos j (proj1 Hj)) as Hpj. pose proof (pow2_pos c Hc) as Hpc.
  assert (Hk : 0 < k) by nia.
  assert (Hc52 : c <= 52).
  { destruct (Z_le_gt_dec c 52); [assumption | exfalso].
    assert (2 ^ 53 <= 2 ^ c) by (apply Z.pow_le_mono_r; lia).
    assert (1 * 2 ^ c <= k * 2 ^ c) by (apply Z.mul_le_mono_nonneg_r; lia). lia. }
  assert (Hd : Zdigits2 (Zpos P) = 53 - c + j).
  { apply Zdigits2_unique; [|lia]. rewrite HP.
    assert (E52 : 2 ^ 52 = 2 ^ (52 - c) * 2 ^ c)
      by (rewrite <- Z.pow_add_r by lia; f_equal; lia).
    assert (E53 : 2 ^ 53 = 2 ^ (53 - c) * 2 ^ c)
      by (rewrite <- Z.pow_add_r by lia; f_equal; lia).
    rewrite Hm, E52, E53 in Hnorm.
    assert (Hkr : 2 ^ (52 - c) <= k < 2 ^ (53 - c)).
    { split; [apply Z.mul_le_mono_pos_r with (p := 2 ^ c) |
              apply Z.mul_lt_mono_pos_r with (p := 2 ^ c)]; lia. }
    replace (53 - c + j - 1) with (52 - c + j) by lia.
    rewrite !Z.pow_add_r by lia.
    split; [apply Z.mul_le_mono_nonneg_r | apply Z.mul_lt_mono_pos_r]; lia. }
  unfold binary_round. change (Zpos (digits2_pos P)) with (Zdigits2 (Zpos P)).
  rewrite Hd, fexp_normal by lia.
  replace (53 - c + j + - j - 53) with (- c) by lia.
  unfold shl_align.
  destruct (- c - - j) as [|d|d] eqn:Ed.
  - (* the integer has 53 bits already *)
    assert (j = c) by lia. subst j.
    assert (P = m) by (apply Pos2Z.inj; congruence). subst P.
    apply binary_round_aux_exact; lia.
  - (* more than 53 bits: the low ones are zero *)
    assert (Ej : j = c + Zpos d) by lia.
    assert (EP : Zpos P = Zpos m * 2 ^ Zpos d).
    { rewrite HP, Hm, Ej, Z.pow_add_r by lia. ring. }
    rewrite EP, binary_round_aux_multiple by lia.
    f_equal. lia.
  - (* fewer than 53 bits: shifted up *)
    assert (Ec : c = j + Zpos d) by lia.
    assert (Em : Pos.iter xO P d = m).
    { apply Pos2Z.inj. rewrite iter_xO, HP, Hm, Ec, Z.pow_add_r by lia. ring. }
    rewrite Em. apply binary_round_aux_exact; lia.
Qed.

End ExactRounding.

Section IntegerAmounts.
Import Currency.

(** The float of a non-zero integer below 2^53 in magnitude: its sign and its
    53-bit form. *)
Lemma normal_exponent (k c : Z) :
  0 < k -> 0 <= c -> k * 2 ^ c < 2 ^ 53 -> c <= 52.
Proof.
  intros Hk Hc Hm. destruct (Z_le_gt_dec c 52); [assumption | exfalso].
  assert (2 ^ 53 <= 2 ^ c) by (apply Z.pow_le_mono_r; lia).
  assert (1 * 2 ^ c <= k * 2 ^ c) by (apply Z.mul_le_mono_nonneg_r; lia). lia.
Qed.

Lemma Prim2SF_ofZ (z : Z) :
  z <> 0 -> - 2 ^ 53 < z < 2 ^ 53 ->
  exists (m : positive) (c : Z),
    Prim2SF (ofZ z) = S754_finite (z <? 0) m (- c) /\
    0 <= c <= 52 /\ Zpos m = Z.abs z * 2 ^ c /\ 2 ^ 52 <= Zpos m < 2 ^ 53.
Proof.
  intros Hz Hr. destruct z as [|p|p]; [congruence| |].
  - destruct (Prim2SF_of_pos p ltac:(lia)) as (m & c & Hx & Hc & Em & Hm).
    exists m, c. split; [exact Hx|]. split; [|split; [exact Em | exact Hm]].
    split; [exact Hc|]. apply (normal_exponent (Zpos p)); lia.
  - destruct (Prim2SF_of_pos p) as (m & c & Hx & Hc & Em & Hm).
    { change (2 ^ 53) with 9007199254740992 in *. lia. }
    exists m, c. cbn [ofZ]. rewrite FloatAxioms.opp_spec, Hx.
    split; [reflexivity|]. split; [|split; [exact Em | exact Hm]].
    split; [exact Hc|]. apply (normal_exponent (Zpos p)); lia.
Qed.

(** A float with the sign and the 53-bit form of [z] is the float of [z]. *)
Lemma float_is_ofZ (x : float) (z : Z) (m : positive) (c : Z) :
  z <> 0 -> - 2 ^ 53 < z < 2 ^ 53 ->
  Prim2SF x = S754_finite (z <? 0) m (- c) ->
  0 <= c -> Zpos m = Z.abs z * 2 ^ c -> 2 ^ 52 <= Zpos m < 2 ^ 53 ->
  x = ofZ z.
Proof.
  intros Hz Hr Hx Hc Em Hm.
  destruct (Prim2SF_ofZ z Hz Hr) as (m' & c' & Hx' & [Hc' _] & Em' & Hm').
  assert (c = c') by (apply (normal_form_unique (Z.abs z)); lia). subst c'.
  assert (m = m') by (apply Pos2Z.inj; congruence). subst m'.
  apply Prim2SF_inj. congruence.
Qed.

Lemma cond_Zopp_sign (z m : Z) : m = Z.abs z -> cond_Zopp (z <? 0) m = z.
Proof.
  intros ->. unfold cond_Zopp. destruct (z <? 0) eqn:E;
    [apply Z.ltb_lt in E | apply Z.ltb_ge in E]; lia.
Qed.

Lemma cond_Zopp_scaled (z k : Z) : cond_Zopp (z <? 0) (Z.abs z * k) = z * k.
Proof.
  unfold cond_Zopp. destruct (z <? 0) eqn:E;
    [apply Z.ltb_lt in E; rewrite Z.abs_neq by lia
    | apply Z.ltb_ge in E; rewrite Z.abs_eq by lia]; ring.
Qed.

Lemma xorb_sign (a b : Z) : a <> 0 -> b <> 0 -> xorb (a <? 0) (b <? 0) = (a * b <? 0).
Proof.
  intros Ha Hb.
  destruct (a <? 0) eqn:Ea; destruct (b <? 0) eqn:Eb; symmetry;
    [apply Z.ltb_lt in Ea, Eb | apply Z.ltb_lt in Ea; apply Z.ltb_ge in Eb
     | apply Z.ltb_ge in Ea; apply Z.ltb_lt in Eb | apply Z.ltb_ge in Ea, Eb];
    cbn [xorb]; [apply Z.ltb_ge | apply Z.ltb_lt | apply Z.ltb_lt | apply Z.ltb_ge]; nia.
Qed.

(** The product of two integers is exact when it is below 2^53. *)
Lemma mul_ofZ (a b : Z) :
  a <> 0 -> b <> 0 -> - 2 ^ 53 < a * b < 2 ^ 53 ->
  (ofZ a * ofZ b)%float = ofZ (a * b).
Proof.
  intros Ha Hb Hab.
  assert (Hra : - 2 ^ 53 < a < 2 ^ 53) by nia.
  assert (Hrb : - 2 ^ 53 < b < 2 ^ 53) by nia.
  destruct (Prim2SF_ofZ a Ha Hra) as (ma & ca & Hxa & [Hca Hca52] & Ema & Hma).
  destruct (Prim2SF_ofZ b Hb Hrb) as (mb & cb & Hxb & [Hcb Hcb52] & Emb & Hmb).
  destruct (Prim2SF_ofZ (a * b) ltac:(nia) Hab) as (m & c & Hx & [Hc Hc52] & Em & Hm).
  apply (float_is_ofZ _ (a * b) m c); try assumption; [nia|].
  rewrite FloatAxioms.mul_spec, Hxa, Hxb. unfold SF64mul. cbn [SFmul].
  rewrite xorb_sign by assumption.
  pose proof (pow2_pos ca Hca). pose proof (pow2_pos cb Hcb). pose proof (pow2_pos c Hc).
  assert (Hn : c <= ca + cb).
  { destruct (Z_le_gt_dec c (ca + cb)) as [|Hgt]; [assumption | exfalso].
    assert (2 ^ (ca + cb) <= 2 ^ c) by (apply Z.pow_le_mono_r; lia).
    assert (Hprod : Zpos ma * Zpos mb = Z.abs (a * b) * 2 ^ (ca + cb))
      by (rewrite Ema, Emb, Z.abs_mul, Z.pow_add_r by lia; ring).
    assert (Z.abs (a * b) * 2 ^ (ca + cb) <= Z.abs (a * b) * 2 ^ c)
      by (apply Z.mul_le_mono_nonneg_l; lia).
    assert (2 ^ 52 * 2 ^ 52 <= Zpos ma * Zpos mb) by (apply Z.mul_le_mono_nonneg; lia).
    change (2 ^ 52 * 2 ^ 52) with (2 ^ 104) in *.
    change (2 ^ 53) with 9007199254740992 in *.
    change (2 ^ 104) with 20282409603651670423947251286016 in *. lia. }
  assert (E : Zpos (ma * mb) = Zpos m * 2 ^ (ca + cb - c)).
  { rewrite Pos2Z.inj_mul, Ema, Emb, Em, Z.abs_mul.
    replace (2 ^ ca * 2 ^ cb) with (2 ^ c * 2 ^ (ca + cb - c)) at 1
      by (rewrite <- !Z.pow_add_r by lia; f_equal; lia).
    rewrite <- !Z.mul_assoc. f_equal.
    rewrite <- !Z.pow_add_r by lia.
    rewrite (Z.mul_comm (2 ^ ca)), <- Z.mul_assoc, (Z.mul_comm (2 ^ cb)),
      <- Z.pow_add_r by lia.
    f_equal. f_equal. lia. }
  rewrite E, binary_round_aux_multiple by lia.
  f_equal. lia.
Qed.

Lemma shl_align_fst (m : positive) (ex ez : Z) :
  ez <= ex -> Zpos (fst (shl_align m ex ez)) = Zpos m * 2 ^ (ex - ez).
Proof.
  intros H. unfold shl_align. destruct (ez - ex) as [|d|d] eqn:E; try lia; cbn [fst].
  - replace (ex - ez) with 0 by lia. change (2 ^ 0) with 1. lia.
  - rewrite iter_xO. f_equal. f_equal. lia.
Qed.

(** The sum of two integers is exact when it, and they, are below 2^53. *)
Lemma add_ofZ (a b : Z) :
  - 2 ^ 53 < a < 2 ^ 53 -> - 2 ^ 53 < b < 2 ^ 53 -> - 2 ^ 53 < a + b < 2 ^ 53 ->
  (ofZ a + ofZ b)%float = ofZ (a + b).
Proof.
  intros Hra Hrb Hrab.
  destruct (Z.eq_dec a 0) as [->|Ha].
  { apply Prim2SF_inj. rewrite FloatAxioms.add_spec, Z.add_0_l. cbn [ofZ].
    unfold SF64add. change (Prim2SF 0) with (S754_zero false).
    destruct (Z.eq_dec b 0) as [->|Hb]; [reflexivity|].
    destruct (Prim2SF_ofZ b Hb Hrb) as (mb & cb & -> & _). reflexivity. }
  destruct (Z.eq_dec b 0) as [->|Hb].
  { apply Prim2SF_inj. rewrite FloatAxioms.add_spec, Z.add_0_r. cbn [ofZ].
    unfold SF64add. change (Prim2SF 0) with (S754_zero false).
    destruct (Prim2SF_ofZ a Ha Hra) as (ma & ca & -> & _). reflexivity. }
  destruct (Prim2SF_ofZ a Ha Hra) as (ma & ca & Hxa & [Hca Hca52] & Ema & Hma).
  destruct (Prim2SF_ofZ b Hb Hrb) as (mb & cb & Hxb & [Hcb Hcb52] & Emb & Hmb).
  set (j := Z.max ca cb).
  assert (Hj : 0 <= j <= 52) by (unfold j; lia).
  assert (Hsum : Prim2SF (ofZ a + ofZ b)
                 = binary_normalize prec emax ((a + b) * 2 ^ j) (- j) false).
  { rewrite FloatAxioms.add_spec, Hxa, Hxb. unfold SF64add. cbn [SFadd].
    replace (Z.min (- ca) (- cb)) with (- j) by (unfold j; lia).
    rewrite !shl_align_fst by (unfold j; lia).
    assert (EA : Zpos ma * 2 ^ (- ca - - j) = Z.abs a * 2 ^ j).
    { rewrite Ema, <- Z.mul_assoc, <- Z.pow_add_r by (unfold j; lia).
      f_equal. f_equal. lia. }
    assert (EB : Zpos mb * 2 ^ (- cb - - j) = Z.abs b * 2 ^ j).
    { rewrite Emb, <- Z.mul_assoc, <- Z.pow_add_r by (unfold j; lia).
      f_equal. f_equal. lia. }
    rewrite EA, EB, !cond_Zopp_scaled, <- Z.mul_add_distr_r. reflexivity. }
  pose proof (pow2_pos j (proj1 Hj)) as Hpj.
  destruct (Z.eq_dec (a + b) 0) as [E0|Hab].
  { apply Prim2SF_inj. rewrite Hsum, E0. reflexivity. }
  destruct (Prim2SF_ofZ (a + b) Hab Hrab) as (m & c & Hx & [Hc Hc52] & Em & Hm).
  apply (float_is_ofZ _ (a + b) m c); try assumption.
  rewrite Hsum.
  destruct ((a + b) * 2 ^ j) as [|P|P] eqn:EP; [nia| |].
  - assert (Hpos : 0 < a + b) by nia.
    replace (a + b <? 0) with false by (symmetry; apply Z.ltb_ge; lia).
    cbn [binary_normalize].
    apply (binary_round_scaled false P m (a + b) j c); lia.
  - assert (Hneg : a + b < 0) by nia.
    replace (a + b <? 0) with true by (symmetry; apply Z.ltb_lt; lia).
    cbn [binary_normalize].
    apply (binary_round_scaled true P m (- (a + b)) j c); lia.
Qed.

End IntegerAmounts.

Section IntegerQuotients.
Import Currency.

Lemma new_location_zero (d : Z) : SpecFloat.new_location d 0 = loc_Exact.
Proof. unfold SpecFloat.new_location. now destruct (Z.even d). Qed.

(** A quotient that is an integer is exact. *)
Lemma div_ofZ (k w : Z) :
  k <> 0 -> w <> 0 -> - 2 ^ 53 < k * w < 2 ^ 53 ->
  (ofZ (k * w) / ofZ w)%float = ofZ k.
Proof.
  intros Hk Hw Hkw.
  assert (Hrk : - 2 ^ 53 < k < 2 ^ 53) by nia.
  assert (Hrw : - 2 ^ 53 < w < 2 ^ 53) by nia.
  destruct (Prim2SF_ofZ (k * w) ltac:(nia) Hkw)
    as (m1 & c1 & Hx1 & [Hc1 Hc1'] & Em1 & Hm1).
  destruct (Prim2SF_ofZ w Hw Hrw) as (m2 & c2 & Hx2 & [Hc2 Hc2'] & Em2 & Hm2).
  destruct (Prim2SF_ofZ k Hk Hrk) as (m & c & Hx & [Hc Hc'] & Em & Hm).
  apply (float_is_ofZ _ k m c); try assumption.
  rewrite FloatAxioms.div_spec, Hx1, Hx2. unfold SF64div. cbn [SFdiv].
  unfold SFdiv_core_binary.
  rewrite (digits_of_53_bits m1 Hm1), (digits_of_53_bits m2 Hm2).
  replace (53 + - c1 - (53 + - c2)) with (- c1 - - c2) by lia.
  rewrite fexp_normal by lia.
  rewrite Z.min_l by lia.
  replace (- c1 - - c2 - (- c1 - - c2 - 53)) with 53 by lia.
  cbv iota. rewrite Z.shiftl_mul_pow2 by lia.
  pose proof (pow2_pos c1 Hc1). pose proof (pow2_pos c2 Hc2). pose proof (pow2_pos c Hc).
  set (q := Z.abs k * 2 ^ (c1 + 53 - c2)).
  assert (Eq : Zpos m1 * 2 ^ 53 = q * Zpos m2).
  { unfold q. rewrite Em1, Em2, Z.abs_mul.
    replace (2 ^ (c1 + 53 - c2)) with (2 ^ c1 * 2 ^ 53 / 2 ^ c2).
    2:{ rewrite <- Z.pow_add_r by lia. rewrite <- Z.pow_sub_r by lia. reflexivity. }
    assert (Ediv : 2 ^ c1 * 2 ^ 53 = 2 ^ c2 * (2 ^ c1 * 2 ^ 53 / 2 ^ c2)).
    { rewrite <- Z.pow_add_r by lia. rewrite <- Z.pow_sub_r by lia.
      rewrite <- Z.pow_add_r by lia. f_equal. lia. }
    set (X := 2 ^ c1 * 2 ^ 53 / 2 ^ c2) in *.
    replace (Z.abs k * Z.abs w * 2 ^ c1 * 2 ^ 53)
      with (Z.abs k * Z.abs w * (2 ^ c1 * 2 ^ 53)) by ring.
    rewrite Ediv. ring. }
  assert (Hdiv : Z.div_eucl (Zpos m1 * 2 ^ 53) (Zpos m2) = (q, 0)).
  { pose proof (Z.div_mod (Zpos m1 * 2 ^ 53) (Zpos m2) ltac:(lia)) as Hdm.
    pose proof (Z.mod_pos_bound (Zpos m1 * 2 ^ 53) (Zpos m2) ltac:(lia)) as Hmod.
    assert (Eqv : (Zpos m1 * 2 ^ 53) / Zpos m2 = q)
      by (rewrite Eq; apply Z.div_mul; lia).
    assert (Emod : (Zpos m1 * 2 ^ 53) mod Zpos m2 = 0)
      by (rewrite Eq; apply Z.mod_mul; lia).
    unfold Z.div, Z.modulo in Eqv, Emod.
    destruct (Z.div_eucl (Zpos m1 * 2 ^ 53) (Zpos m2)) as [q' r'].
    cbn [fst snd] in *. congruence. }
  rewrite Hdiv, new_location_zero.
  assert (Hq : 2 ^ 52 <= q).
  { assert (2 ^ 52 * 2 ^ 53 <= q * Zpos m2) by (rewrite <- Eq; apply Z.mul_le_mono_nonneg_r; lia).
    destruct (Z_lt_le_dec q (2 ^ 52)) as [Hlt|]; [exfalso|assumption].
    assert (0 <= q) by (unfold q; apply Z.mul_nonneg_nonneg; [lia | apply Z.pow_nonneg; lia]).
    assert (q * Zpos m2 <= 2 ^ 52 * Zpos m2) by (apply Z.mul_le_mono_nonneg_r; lia).
    assert (2 ^ 52 * Zpos m2 < 2 ^ 52 * 2 ^ 53) by (apply Z.mul_lt_mono_pos_l; lia).
    lia. }
  assert (Hn : c <= c1 + 53 - c2).
  { destruct (Z_le_gt_dec c (c1 + 53 - c2)) as [|Hgt]; [assumption | exfalso].
    assert (2 * 2 ^ (c1 + 53 - c2) <= 2 ^ c).
    { rewrite <- Z.pow_succ_r by lia. apply Z.pow_le_mono_r; lia. }
    assert (Z.abs k * (2 * 2 ^ (c1 + 53 - c2)) <= Z.abs k * 2 ^ c)
      by (apply Z.mul_le_mono_nonneg_l; lia).
    unfold q in Hq. change (2 ^ 53) with (2 * 2 ^ 52) in Hm. lia. }
  assert (E : q = Zpos m * 2 ^ (c1 + 53 - c2 - c)).
  { unfold q. rewrite Em, <- Z.mul_assoc, <- Z.pow_add_r by lia.
    f_equal. f_equal. lia. }
  rewrite E, binary_round_aux_multiple by lia.
  assert (Hkw0 : k * w <> 0) by nia.
  rewrite xorb_sign by assumption.
  replace (k * w * w <? 0) with (k <? 0); [f_equal; lia|].
  destruct (k <? 0) eqn:Ek; symmetry;
    [apply Z.ltb_lt in Ek; apply Z.ltb_lt | apply Z.ltb_ge in Ek; apply Z.ltb_ge]; nia.
Qed.

(** [Math.round] leaves an integer as it is. *)
Lemma Math_round_ofZ (k : Z) : - 2 ^ 53 < k < 2 ^ 53 -> Math_round (ofZ k) = ofZ k.
Proof.
  intros Hr. destruct (Z.eq_dec k 0) as [->|Hk]; [reflexivity|].
  destruct (Prim2SF_ofZ k Hk Hr) as (m & c & Hx & [Hc Hc'] & Em & Hm).
  unfold Math_round. rewrite Hx.
  destruct (0 <=? - c) eqn:E0; [reflexivity|]. apply Z.leb_gt in E0.
  cbv zeta. rewrite Z.opp_involutive.
  rewrite Z.shiftr_div_pow2, Z.shiftl_mul_pow2, Z.pow_add_r by lia.
  change (2 ^ 1) with 2. rewrite Z.mul_1_l.
  pose proof (pow2_pos c Hc) as Hp.
  assert (En : (2 * (if k <? 0 then Zneg m else Zpos m) + 2 ^ c) / (2 ^ c * 2) = k).
  { assert (Ev : (if k <? 0 then Zneg m else Zpos m) = k * 2 ^ c).
    { destruct (k <? 0) eqn:Ek; [apply Z.ltb_lt in Ek | apply Z.ltb_ge in Ek].
      - change (Zneg m) with (- Zpos m). rewrite Em, Z.abs_neq by lia. ring.
      - rewrite Em, Z.abs_eq by lia. reflexivity. }
    rewrite Ev. symmetry. apply Z.div_unique with (r := 2 ^ c); lia. }
  rewrite En.
  replace (k =? 0) with false by (symmetry; now apply Z.eqb_neq).
  reflexivity.
Qed.

(** X22.  Whole dollars convert exactly, both ways: for an integer [d] with
    [|100 d| < 2^53], [dollarsToCents(d)] is [100 d] and
    [centsToDollars(100 d)] is [d] again. *)
Theorem whole_dollars_convert_exactly (d : Z) :
  - 2 ^ 53 < 100 * d < 2 ^ 53 ->
  dollarsToCents (ofZ d) = ofZ (100 * d) /\
  centsToDollars (ofZ (100 * d)) = ofZ d /\
  centsToDollars (dollarsToCents (ofZ d)) = ofZ d.
Proof.
  intros Hr.
  assert (Hcents : dollarsToCents (ofZ d) = ofZ (100 * d)).
  { unfold dollarsToCents. destruct (Z.eq_dec d 0) as [->|Hd]; [reflexivity|].
    change 100%float with (ofZ 100).
    rewrite mul_ofZ by lia. rewrite (Z.mul_comm d 100).
    apply Math_round_ofZ. exact Hr. }
  assert (Hdollars : centsToDollars (ofZ (100 * d)) = ofZ d).
  { unfold centsToDollars. destruct (Z.eq_dec d 0) as [->|Hd]; [reflexivity|].
    change 100%float with (ofZ 100). rewrite (Z.mul_comm 100 d).
    apply div_ofZ; lia. }
  split; [exact Hcents|]. split; [exact Hdollars|]. now rewrite Hcents.
Qed.

Lemma whole_dollars_convert_exactly_witness :
  dollarsToCents (ofZ 100) = ofZ (100 * 100) /\
  centsToDollars (ofZ (100 * 100)) = ofZ 100 /\
  centsToDollars (dollarsToCents (ofZ 100)) = ofZ 100.
Proof. apply (whole_dollars_convert_exactly 100). split; reflexivity. Defined.

(** The sums [sumCents] goes through: the total so far after each amount. *)
Fixpoint runningTotals (total : Z) (amounts : list Z) : list Z :=
  match amounts with
  | [] => []
  | a :: rest => (total + a) :: runningTotals (total + a) rest
  end.

Definition total (amounts : list Z) : Z := fold_left Z.add amounts 0.

Lemma sumCents_from (amounts : list Z) : forall t : Z,
  - 2 ^ 53 < t < 2 ^ 53 ->
  List.Forall (fun a => - 2 ^ 53 < a < 2 ^ 53) amounts ->
  List.Forall (fun s => - 2 ^ 53 < s < 2 ^ 53) (runningTotals t amounts) ->
  fold_left (fun sum amount => (sum + amount)%float) (map ofZ amounts) (ofZ t)
  = ofZ (fold_left Z.add amounts t).
Proof.
  induction amounts as [|a rest IH]; intros t Ht Hall Hruns; [reflexivity|].
  inversion Hall as [|? ? Ha Hrest]; subst.
  cbn [runningTotals] in Hruns. inversion Hruns as [|? ? Hta Hruns']; subst.
  cbn [map fold_left]. rewrite add_ofZ by assumption. now apply IH.
Qed.

(** X23.  [sumCents] is exact on integer amounts: as long as the amounts and
    the total after each of them stay below 2^53 in magnitude, the result
    is the sum of the integers. *)
Theorem sumCents_exact (amounts : list Z) :
  List.Forall (fun a => - 2 ^ 53 < a < 2 ^ 53) amounts ->
  List.Forall (fun s => - 2 ^ 53 < s < 2 ^ 53) (runningTotals 0 amounts) ->
  sumCents (map ofZ amounts) = ofZ (total amounts).
Proof.
  intros Hall Hruns. unfold sumCents, total.
  now apply (sumCents_from amounts 0).
Qed.

Lemma sumCents_exact_witness :
  sumCents (map ofZ [10000; 20000; 30000]) = ofZ (total [10000; 20000; 30000]).
Proof.
  apply (sumCents_exact [10000; 20000; 30000]);
    repeat constructor; reflexivity.
Defined.

End IntegerQuotients.

Section NoChangeFacts.
Import Currency.
Local Open Scope float_scope.

Lemma finite_shape (x : float) :
  is_finite x = true ->
  (exists s, Prim2SF x = S754_zero s) \/ (exists s m e, Prim2SF x = S754_finite s m e).
Proof.
  unfold is_finite, is_nan, is_infinity.
  rewrite !FloatAxioms.eqb_spec, FloatAxioms.abs_spec.
  destruct (Prim2SF x) as [s|s| |s m e] eqn:E; cbn; try discriminate; eauto.
  destruct s; discriminate.
Qed.

(** X24.  An amount compared with itself has changed by 0: for every finite
    [x], zero included, [calculatePercentageChange(x, x)] is 0 and not NaN. *)
Theorem calculatePercentageChange_no_change (x : float) :
  is_finite x = true -> calculatePercentageChange x x = 0.
Proof.
  intros Hfin. unfold calculatePercentageChange.
  rewrite FloatAxioms.eqb_spec, FloatAxioms.ltb_spec.
  destruct (finite_shape x Hfin) as [[s E]|(s & m & e & E)].
  - rewrite E. change (Prim2SF 0) with (S754_zero false). reflexivity.
  - rewrite E. change (Prim2SF 0) with (S754_zero false).
    replace (SFeqb (S754_finite s m e) (S754_zero false)) with false
      by (destruct s; reflexivity).
    apply Prim2SF_inj.
    rewrite FloatAxioms.div_spec, FloatAxioms.sub_spec, FloatAxioms.abs_spec, E.
    unfold SF64div, SF64sub. cbn [SFsub SFabs].
    unfold shl_align. rewrite Z.min_id, Z.sub_diag. cbn [fst]. reflexivity.
Qed.

Lemma calculatePercentageChange_no_change_witness :
  calculatePercentageChange 100000 100000 = 0.
Proof. apply (calculatePercentageChange_no_change 100000). reflexivity. Defined.

End NoChangeFacts.

Section AverageFacts.
Import Currency.

(** The arithmetic of the average.  [V / Pk] is the rounded quotient of [S]
    by [n], within half a unit of its last place; [R] is [S / n] rounded half
    up.  The quotient then rounds half up to [R] too. *)
Lemma average_core (S n V Pk h R : Z) :
  0 < n < Pk -> Pk = 2 * h ->
  2 * (V * n - S * Pk) <= n -> 2 * (S * Pk - V * n) <= n ->
  (2 * R - 1) * n <= 2 * S < (2 * R + 1) * n ->
  (2 * R - 1) * Pk <= 2 * V < (2 * R + 1) * Pk.
Proof.
  intros Hn Heven Hup Hdown [HR1 HR2].
  assert (Hlow : (2 * R - 1) * n * Pk <= 2 * S * Pk)
    by (apply Z.mul_le_mono_nonneg_r; lia).
  assert (Hhigh : (2 * S + 1) * Pk <= (2 * R + 1) * n * Pk)
    by (apply Z.mul_le_mono_nonneg_r; lia).
  split.
  - (* n * ((2R-1) Pk - 1) <= n * 2V, and the left side is odd *)
    assert (H1 : n * ((2 * R - 1) * Pk - 1) <= n * (2 * V)) by lia.
    apply Z.mul_le_mono_pos_l in H1; [|lia].
    rewrite Heven in *. lia.
  - assert (H1 : n * (2 * V) < n * ((2 * R + 1) * Pk)) by lia.
    apply Z.mul_lt_mono_pos_l in H1; lia.
Qed.

(** The quotient of two integers, rounded by [Math.round]: the exact
    quotient rounded half up.  A negative quotient that rounds to zero keeps
    its sign. *)
Lemma Math_round_div_ofZ (S n : Z) :
  S <> 0 -> - 2 ^ 52 < S < 2 ^ 52 -> 0 < n < 2 ^ 53 ->
  Math_round (ofZ S / ofZ n)
  = if ((2 * S + n) / (2 * n) =? 0) && (S <? 0) then (-0)%float
    else ofZ ((2 * S + n) / (2 * n)).
Proof.
  intros HS HrS Hn.
  set (R := (2 * S + n) / (2 * n)).
  assert (HR : (2 * R - 1) * n <= 2 * S < (2 * R + 1) * n).
  { pose proof (Z.div_mod (2 * S + n) (2 * n) ltac:(lia)) as Hdm.
    pose proof (Z.mod_pos_bound (2 * S + n) (2 * n) ltac:(lia)) as Hmod.
    fold R in Hdm. lia. }
  destruct (Prim2SF_ofZ S HS) as (m1 & c1 & Hx1 & [Hc1 Hc1'] & Em1 & Hm1).
  { change (2 ^ 52) with 4503599627370496 in HrS.
    change (2 ^ 53) with 9007199254740992. lia. }
  destruct (Prim2SF_ofZ n ltac:(lia) ltac:(lia))
    as (m2 & c2 & Hx2 & [Hc2 Hc2'] & Em2 & Hm2).
  replace (n <? 0) with false in Hx2 by (symmetry; apply Z.ltb_ge; lia).
  rewrite (Z.abs_eq n) in Em2 by lia.
  unfold Math_round. rewrite FloatAxioms.div_spec, Hx1, Hx2. unfold SF64div.
  destruct (SFdiv_nearest (S <? 0) false m1 m2 (- c1) (- c2) Hm1 Hm2 ltac:(lia))
    as (my & ey & Hdiv & Hmy & Ht & Hup & Hdown).
  rewrite Hdiv, xorb_false_r.
  set (t := ey - (- c1 - - c2 - 53)) in *.
  set (A := Z.abs S) in *.
  assert (HA : 0 < A < 2 ^ 52) by (unfold A; lia).
  pose proof (pow2_pos c1 Hc1) as Hp1. pose proof (pow2_pos c2 Hc2) as Hp2.
  pose proof (pow2_pos t (proj1 Ht)) as Hpt.
  (* both sides of the bound at the scale 2^(t + c2) *)
  set (E2 := t + c2).
  assert (HpE2 : 0 < 2 ^ E2) by (apply pow2_pos; unfold E2; lia).
  assert (Escale2 : 2 ^ t * Zpos m2 = n * 2 ^ E2).
  { rewrite Em2. unfold E2. rewrite Z.pow_add_r by lia. ring. }
  assert (Escale1 : Zpos m1 * 2 ^ 53 = A * 2 ^ (c1 + 53)).
  { rewrite Em1, Z.pow_add_r by lia. ring. }
  rewrite Escale2, Escale1 in Hup, Hdown.
  (* the quotient has binary places: its exponent is negative *)
  assert (Hk : E2 < c1 + 53 /\ n * 2 ^ E2 < 2 ^ (c1 + 53)).
  { assert (Hbig : n * 2 ^ E2 < 2 ^ (c1 + 53)).
    { assert (H1 : 2 ^ 52 * (n * 2 ^ E2) <= Zpos my * (n * 2 ^ E2))
        by (apply Z.mul_le_mono_nonneg_r; [apply Z.mul_nonneg_nonneg|]; lia).
      assert (H2 : A * 2 ^ (c1 + 53) <= (2 ^ 52 - 1) * 2 ^ (c1 + 53))
        by (apply Z.mul_le_mono_nonneg_r; [apply Z.pow_nonneg|]; lia).
      assert (0 < 2 ^ (c1 + 53)) by (apply pow2_pos; lia).
      assert (0 < n * 2 ^ E2) by (apply Z.mul_pos_pos; lia).
      change (2 ^ 52) with 4503599627370496 in *. lia. }
    split; [|exact Hbig].
    destruct (Z_lt_le_dec E2 (c1 + 53)) as [|Hge]; [assumption | exfalso].
    assert (2 ^ (c1 + 53) <= 2 ^ E2) by (apply Z.pow_le_mono_r; lia).
    assert (1 * 2 ^ E2 <= n * 2 ^ E2) by (apply Z.mul_le_mono_nonneg_r; lia). lia. }
  destruct Hk as [Hk Hbig].
  set (k := c1 + 53 - E2).
  assert (Hk1 : 1 <= k) by (unfold k; lia).
  assert (Ek : 2 ^ (c1 + 53) = 2 ^ k * 2 ^ E2).
  { rewrite <- Z.pow_add_r by (unfold k, E2; lia). f_equal. unfold k. lia. }
  assert (Eey : ey = - k) by (unfold k, E2, t; lia).
  pose proof (pow2_pos k ltac:(lia)) as Hpk.
  assert (Hnk : n < 2 ^ k).
  { rewrite Ek in Hbig. apply Z.mul_lt_mono_pos_r in Hbig; lia. }
  rewrite Ek in Hup, Hdown.
  assert (Hup' : 2 * (Zpos my * n - A * 2 ^ k) <= n).
  { apply Z.mul_le_mono_pos_r with (p := 2 ^ E2); [exact HpE2|].
    replace (2 * (Zpos my * n - A * 2 ^ k) * 2 ^ E2)
      with (2 * (Zpos my * (n * 2 ^ E2) - A * (2 ^ k * 2 ^ E2))) by ring.
    exact Hup. }
  assert (Hdown' : 2 * (A * 2 ^ k - Zpos my * n) <= n).
  { apply Z.mul_le_mono_pos_r with (p := 2 ^ E2); [exact HpE2|].
    replace (2 * (A * 2 ^ k - Zpos my * n) * 2 ^ E2)
      with (2 * (A * (2 ^ k * 2 ^ E2) - Zpos my * (n * 2 ^ E2))) by ring.
    exact Hdown. }
  (* the signed mantissa *)
  set (V := if S <? 0 then Zneg my else Zpos my).
  assert (HV : 2 * (V * n - S * 2 ^ k) <= n /\ 2 * (S * 2 ^ k - V * n) <= n).
  { unfold V, A in *. destruct (S <? 0) eqn:Es;
      [apply Z.ltb_lt in Es; rewrite Z.abs_neq in * by lia;
       change (Zneg my) with (- Zpos my)
      | apply Z.ltb_ge in Es; rewrite Z.abs_eq in * by lia]; lia. }
  destruct HV as [HV1 HV2].
  assert (Heven : 2 ^ k = 2 * 2 ^ (k - 1)).
  { rewrite <- Z.pow_succ_r by lia. f_equal. lia. }
  pose proof (average_core S n V (2 ^ k) (2 ^ (k - 1)) R ltac:(lia) Heven HV1 HV2 HR)
    as Hhalf.
  destruct (0 <=? ey) eqn:E0; [apply Z.leb_le in E0; lia|].
  cbv zeta. rewrite Eey, Z.opp_involutive.
  rewrite Z.shiftr_div_pow2, Z.shiftl_mul_pow2, Z.pow_add_r by lia.
  change (2 ^ 1) with 2. rewrite Z.mul_1_l.
  fold V.
  assert (En : (2 * V + 2 ^ k) / (2 ^ k * 2) = R).
  { symmetry. apply Z.div_unique with (r := 2 * V + 2 ^ k - R * (2 ^ k * 2)); lia. }
  rewrite En. reflexivity.
Qed.

Lemma div_zero_ofZ (n : Z) : 0 < n < 2 ^ 53 -> (ofZ 0 / ofZ n)%float = ofZ 0.
Proof.
  intros Hn.
  destruct (Prim2SF_ofZ n ltac:(lia) ltac:(lia)) as (m & c & Hx & _).
  apply FloatAxioms.Prim2SF_inj.
  rewrite FloatAxioms.div_spec, Hx.
  replace (n <? 0) with false by (symmetry; apply Z.ltb_ge; lia).
  reflexivity.
Qed.

Lemma runningTotals_last (P : Z -> Prop) (amounts : list Z) : forall t : Z,
  amounts <> [] -> List.Forall P (runningTotals t amounts) ->
  P (fold_left Z.add amounts t).
Proof.
  induction amounts as [|a rest IH]; intros t Hne Hruns; [congruence|].
  cbn [runningTotals] in Hruns. inversion Hruns as [|? ? Hta Hrest]; subst.
  cbn [fold_left]. destruct rest as [|b rest']; [exact Hta|].
  apply IH; [discriminate | exact Hrest].
Qed.

Lemma Forall_range_weaken (l : list Z) :
  List.Forall (fun s => - 2 ^ 52 < s < 2 ^ 52) l ->
  List.Forall (fun s => - 2 ^ 53 < s < 2 ^ 53) l.
Proof.
  intros H. eapply List.Forall_impl; [|exact H].
  cbv beta. intros s Hs.
  change (2 ^ 52) with 4503599627370496 in Hs.
  change (2 ^ 53) with 9007199254740992. lia.
Qed.

(** The mean of integers of sum [S] over [n] of them, rounded half up:
    floor (S / n + 1/2). *)
Definition meanHalfUp (S n : Z) : Z := (2 * S + n) / (2 * n).

(** X25.  [averageCents] of a non-empty array of integer amounts is their
    exact mean rounded half up (towards positive infinity at a tie), as
    long as the amounts stay below 2^53 and the total after each of them
    below 2^52 in magnitude: the rounding of the division never tips the
    result over.  A negative mean that rounds to zero gives -0. *)
Theorem averageCents_rounds_half_up (amounts : list Z) :
  amounts <> [] ->
  Z.of_nat (List.length amounts) < 2 ^ 32 ->
  List.Forall (fun a => - 2 ^ 53 < a < 2 ^ 53) amounts ->
  List.Forall (fun s => - 2 ^ 52 < s < 2 ^ 52) (runningTotals 0 amounts) ->
  averageCents (map ofZ amounts)
  = if (meanHalfUp (total amounts) (Z.of_nat (List.length amounts)) =? 0)
       && (total amounts <? 0)
    then (-0)%float
    else ofZ (meanHalfUp (total amounts) (Z.of_nat (List.length amounts))).
Proof.
  intros Hne Hlen Hall Hruns.
  unfold averageCents. rewrite length_map.
  destruct (List.length amounts =? 0)%nat eqn:El.
  { apply Nat.eqb_eq in El. destruct amounts; [congruence | discriminate]. }
  apply Nat.eqb_neq in El.
  rewrite (sumCents_exact amounts Hall (Forall_range_weaken _ Hruns)).
  pose proof (runningTotals_last _ amounts 0 Hne Hruns) as HS. fold (total amounts) in HS.
  set (S := total amounts) in *. set (n := Z.of_nat (List.length amounts)) in *.
  assert (Hn : 0 < n < 2 ^ 53).
  { change (2 ^ 32) with 4294967296 in Hlen.
    change (2 ^ 53) with 9007199254740992. unfold n. lia. }
  destruct (Z.eq_dec S 0) as [E0|HS0].
  - rewrite E0, div_zero_ofZ by exact Hn.
    unfold meanHalfUp. rewrite Z.mul_0_r, Z.add_0_l.
    rewrite (Z.div_small n (2 * n)) by lia. reflexivity.
  - unfold meanHalfUp. now apply Math_round_div_ofZ.
Qed.

Lemma averageCents_rounds_half_up_witness :
  averageCents (map ofZ [10000; 20001]) = ofZ 15001.
Proof.
  apply (averageCents_rounds_half_up [10000; 20001]);
    [discriminate | reflexivity | repeat constructor; reflexivity
    | repeat constructor; reflexivity].
Defined.

End AverageFacts.
